(** * Runtime profile counters and profile trees (be/src/util/runtime_profile.h)

    A shallow embedding of the counter classes, the scoped helpers and the
    profile-node operations declared in [runtime_profile.h], together with the
    properties stated about them. *)

From Stdlib Require Import ZArith QArith Lqa String List Sorted Lia.
From stdpp Require Import base functions gmap sets list strings.

Set Warnings "-register-all".

Close Scope Q_scope.
Local Open Scope Z_scope.

(** ** 64-bit signed integers ([int64_t]) *)

Module Int64.

Definition MIN_INT64 : Z := - 2 ^ 63.
Definition MAX_INT64 : Z := 9223372036854775807.

(** Values representable in an [int64_t]. *)
Definition in_int64 (z : Z) : Prop := MIN_INT64 <= z <= MAX_INT64.

(** Two's-complement reduction of a mathematical integer to 64 bits. *)
Definition wrap64 (z : Z) : Z := (z + 2 ^ 63) mod 2 ^ 64 - 2 ^ 63.

(** [a + b] inside [std::atomic<int64_t>::fetch_add]: the result wraps. *)
Definition add64 (a b : Z) : Z := wrap64 (a + b).

#[global] Instance in_int64_dec z : Decision (in_int64 z).
Proof. unfold in_int64. apply _. Defined.

(** [a + b] on plain [int64_t] operands: signed overflow is undefined
    behaviour, so the sum exists only when it is representable. *)
Definition checked_add64 (a b : Z) : option Z :=
  if decide (in_int64 (a + b)) then Some (a + b) else None.

(** [a - b] on plain [int64_t] operands. *)
Definition checked_sub64 (a b : Z) : option Z :=
  if decide (in_int64 (a - b)) then Some (a - b) else None.

End Int64.
Import Int64.

(** ** [std::atomic<int64_t>]

    A cell holds one 64-bit value; every member function is one indivisible
    step on the cell and returns what the C++ call returns. *)

Module Atomic.

Definition atomic_int64 : Set := Z.

Definition load (cell : atomic_int64) : Z := cell.

Definition store (v : Z) (_ : atomic_int64) : atomic_int64 := v.

(** [fetch_add(delta)]: returns the previous value; the stored sum wraps. *)
Definition fetch_add (delta : Z) (cell : atomic_int64) : Z * atomic_int64 :=
  (cell, add64 cell delta).

(** [compare_exchange_strong(expected, desired)]: returns the success flag,
    the cell afterwards and the (possibly refreshed) [expected]. *)
Definition compare_exchange_strong (expected desired : Z) (cell : atomic_int64)
  : bool * atomic_int64 * Z :=
  if cell =? expected then (true, desired, expected) else (false, cell, cell).

End Atomic.

(** ** Thrift enumerations *)

(** Modelled from the spec: [gen_cpp/RuntimeProfile_types.h] is generated and
    not part of the sources.  The four time units are the ones compared by
    [is_time_type]; the other enumerators stand for the non-time units. *)
Module TUnit.
Inductive type : Set :=
| UNIT | UNIT_PER_SECOND | CPU_TICKS | BYTES | BYTES_PER_SECOND
| TIME_NS | DOUBLE_VALUE | NONE | TIME_MS | TIME_S.
#[global] Instance type_eq_dec : EqDecision type.
Proof. solve_decision. Defined.
End TUnit.

(** Modelled from the spec: the enumerators that [is_sum] and [is_avg] name. *)
Module TCounterAggregateType.
Inductive type : Set := SUM | AVG | SUM_AVG | AVG_SUM.
#[global] Instance type_eq_dec : EqDecision type.
Proof. solve_decision. Defined.
End TCounterAggregateType.

(** Modelled from the spec: the enumerators that [skip_merge] and
    [create_strategy] name. *)
Module TCounterMergeType.
Inductive type : Set := MERGE_ALL | SKIP_ALL | SKIP_FIRST_MERGE.
#[global] Instance type_eq_dec : EqDecision type.
Proof. solve_decision. Defined.
End TCounterMergeType.

(** Modelled from the spec: the enumerators that [skip_min_max] and
    [create_strategy] name. *)
Module TCounterMinMaxType.
Inductive type : Set := MIN_MAX_ALL | SKIP_ALL.
#[global] Instance type_eq_dec : EqDecision type.
Proof. solve_decision. Defined.
End TCounterMinMaxType.

Record TCounterStrategy : Set := mkTCounterStrategy {
  aggregate_type : TCounterAggregateType.type;
  merge_type : TCounterMergeType.type;
  display_threshold : Z;
  min_max_type : TCounterMinMaxType.type
}.

(** [RuntimeProfile::is_time_type] *)
Definition is_time_type (type : TUnit.type) : bool :=
  bool_decide (TUnit.CPU_TICKS = type) || bool_decide (TUnit.TIME_NS = type)
  || bool_decide (TUnit.TIME_MS = type) || bool_decide (TUnit.TIME_S = type).

(** ** [RuntimeProfile::Counter] *)

Module Counter.

(** [create_strategy(aggregate_type, merge_type, display_threshold, min_max_type)] *)
Definition create_strategy (aggregate_type : TCounterAggregateType.type)
    (merge_type : TCounterMergeType.type) (display_threshold : Z)
    (min_max_type : TCounterMinMaxType.type) : TCounterStrategy :=
  mkTCounterStrategy aggregate_type merge_type display_threshold min_max_type.

(** [create_strategy(TUnit::type, merge_type, display_threshold, min_max_type)] *)
Definition create_strategy_of_unit (type : TUnit.type)
    (merge_type : TCounterMergeType.type) (display_threshold : Z)
    (min_max_type : TCounterMinMaxType.type) : TCounterStrategy :=
  let aggregate_type :=
    if is_time_type type then TCounterAggregateType.AVG else TCounterAggregateType.SUM in
  create_strategy aggregate_type merge_type display_threshold min_max_type.

(** [create_strategy(type)] with every default argument. *)
Definition default_strategy (type : TUnit.type) : TCounterStrategy :=
  create_strategy_of_unit type TCounterMergeType.MERGE_ALL 0 TCounterMinMaxType.MIN_MAX_ALL.

Record t : Set := mk {
  _value : Atomic.atomic_int64;
  _type : TUnit.type;
  _strategy : TCounterStrategy;
  _min_value : option Z;
  _max_value : option Z
}.

Definition with_value (v : Atomic.atomic_int64) (c : t) : t :=
  mk v (_type c) (_strategy c) (_min_value c) (_max_value c).

(** [explicit Counter(TUnit::type type, int64_t value = 0)] *)
Definition Counter2 (type : TUnit.type) (value : Z) : t :=
  mk 0 type (default_strategy type) None None.

(** [explicit Counter(TUnit::type type, const TCounterStrategy& strategy, int64_t value = 0)] *)
Definition Counter3 (type : TUnit.type) (strategy : TCounterStrategy) (value : Z) : t :=
  mk value type strategy None None.

(** [update(delta)] *)
Definition update (delta : Z) (c : t) : t :=
  with_value (snd (Atomic.fetch_add delta (_value c))) c.

(** [set(int64_t value)] *)
Definition set (v : Z) (c : t) : t := with_value (Atomic.store v (_value c)) c.

(** [value()] *)
Definition value (c : t) : Z := Atomic.load (_value c).

Definition set_min (m : Z) (c : t) : t :=
  mk (_value c) (_type c) (_strategy c) (Some m) (_max_value c).
Definition set_max (m : Z) (c : t) : t :=
  mk (_value c) (_type c) (_strategy c) (_min_value c) (Some m).
Definition min_value (c : t) : option Z := _min_value c.
Definition max_value (c : t) : option Z := _max_value c.

Definition type (c : t) : TUnit.type := _type c.
Definition strategy (c : t) : TCounterStrategy := _strategy c.

Definition is_sum (c : t) : bool :=
  bool_decide (aggregate_type (_strategy c) = TCounterAggregateType.SUM)
  || bool_decide (aggregate_type (_strategy c) = TCounterAggregateType.SUM_AVG).

Definition is_avg (c : t) : bool :=
  bool_decide (aggregate_type (_strategy c) = TCounterAggregateType.AVG)
  || bool_decide (aggregate_type (_strategy c) = TCounterAggregateType.AVG_SUM).

Definition skip_merge (c : t) : bool :=
  bool_decide (merge_type (_strategy c) = TCounterMergeType.SKIP_ALL)
  || bool_decide (merge_type (_strategy c) = TCounterMergeType.SKIP_FIRST_MERGE).

Definition skip_min_max (c : t) : bool :=
  bool_decide (min_max_type (_strategy c) = TCounterMinMaxType.SKIP_ALL).

Definition should_display (c : t) : bool :=
  let threshold := display_threshold (_strategy c) in
  (threshold =? 0) || (value c >? threshold).

(** [bit_or(delta)]: the compare-and-exchange loop is bounded by [fuel];
    [None] means that the bound was reached. *)
Fixpoint bit_or (fuel : nat) (delta : Z) (c : t) : option t :=
  match fuel with
  | O => None
  | S fuel' =>
      let old := Atomic.load (_value c) in
      if Z.lor old delta =? old then Some c
      else
        let '(ok, cell, _) :=
          Atomic.compare_exchange_strong old (Z.lor old delta) (_value c) in
        if ok then Some (with_value cell c) else bit_or fuel' delta (with_value cell c)
  end.

End Counter.

(** ** [RuntimeProfile::WaterMarkCounter<is_high>]

    The object is a [Counter] (whose [_value] is the recorded extreme) plus the
    atomic [current_value_].  The compare-and-exchange loops are bounded by a
    fuel argument; [None] means that the bound was reached or that a plain
    signed addition overflowed. *)

Module WaterMarkCounter.

Record t : Set := mk {
  base : Counter.t;
  current_value_ : Atomic.atomic_int64
}.

(** [_set_init_value()] *)
Definition _set_init_value (is_high : bool) (w : t) : t :=
  if is_high
  then mk (Counter.with_value (Atomic.store 0 (Counter._value (base w))) (base w))
          (Atomic.store 0 (current_value_ w))
  else mk (Counter.with_value (Atomic.store MAX_INT64 (Counter._value (base w))) (base w))
          (Atomic.store MAX_INT64 (current_value_ w)).

(** [WaterMarkCounter(type, value)]; [uninit] is the content of the
    default-initialised [current_value_] before the constructor body runs. *)
Definition WaterMarkCounter2 (is_high : bool) (uninit : Z) (type : TUnit.type) (value : Z) : t :=
  _set_init_value is_high (mk (Counter.Counter2 type value) uninit).

(** [WaterMarkCounter(type, strategy, value)] *)
Definition WaterMarkCounter3 (is_high : bool) (uninit : Z) (type : TUnit.type)
    (strategy : TCounterStrategy) (value : Z) : t :=
  _set_init_value is_high (mk (Counter.Counter3 type strategy value) uninit).

(** [value()], inherited from [Counter]. *)
Definition value (w : t) : Z := Counter.value (base w).

(** [current_value()] *)
Definition current_value (w : t) : Z := Atomic.load (current_value_ w).

(** [Update(v)] *)
Fixpoint Update (is_high : bool) (fuel : nat) (v : Z) (w : t) : option t :=
  match fuel with
  | O => None
  | S fuel' =>
      let old_value := Atomic.load (Counter._value (base w)) in
      let new_value := if is_high then Z.max old_value v else Z.min old_value v in
      if new_value =? old_value then Some w
      else
        let '(ok, cell, _) :=
          Atomic.compare_exchange_strong old_value new_value (Counter._value (base w)) in
        let w' := mk (Counter.with_value cell (base w)) (current_value_ w) in
        if ok then Some w' else Update is_high fuel' v w'
  end.

(** [add(delta)] *)
Definition add (is_high : bool) (fuel : nat) (delta : Z) (w : t) : option t :=
  let '(old, cell) := Atomic.fetch_add delta (current_value_ w) in
  match checked_add64 old delta with
  | Some new_val => Update is_high fuel new_val (mk (base w) cell)
  | None => None
  end.

(** [try_add(delta, max)] *)
Fixpoint try_add (is_high : bool) (fuel : nat) (delta max : Z) (w : t) : option (bool * t) :=
  match fuel with
  | O => None
  | S fuel' =>
      let old_val := Atomic.load (current_value_ w) in
      match checked_add64 old_val delta with
      | None => None
      | Some new_val =>
          if new_val >? max then Some (false, w)
          else
            let '(ok, cell, _) :=
              Atomic.compare_exchange_strong old_val new_val (current_value_ w) in
            let w' := mk (base w) cell in
            if ok
            then match Update is_high fuel new_val w' with
                 | Some w'' => Some (true, w'')
                 | None => None
                 end
            else try_add is_high fuel' delta max w'
      end
  end.

(** [set(v)] *)
Definition set (is_high : bool) (fuel : nat) (v : Z) (w : t) : option t :=
  Update is_high fuel v (mk (base w) (Atomic.store v (current_value_ w))).

End WaterMarkCounter.

Definition HighWaterMarkCounter2 := WaterMarkCounter.WaterMarkCounter2 true.
Definition HighWaterMarkCounter3 := WaterMarkCounter.WaterMarkCounter3 true.
Definition LowWaterMarkCounter2 := WaterMarkCounter.WaterMarkCounter2 false.
Definition LowWaterMarkCounter3 := WaterMarkCounter.WaterMarkCounter3 false.


(** ** Concurrent [Counter::update]

    Each thread is the list of [update(delta)] calls it still has to issue, in
    program order.  One step of the system lets any thread that has a call
    left perform it; the call is the single atomic [fetch_add] of
    [Counter::update], so no other step can fall inside it. *)

Module Concurrent.

Record sys : Set := mkSys {
  counter : Counter.t;
  threads : list (list Z)
}.

Inductive step : sys -> sys -> Prop :=
| step_update (c : Counter.t) (ths : list (list Z)) (i : nat) (delta : Z) (rest : list Z) :
    ths !! i = Some (delta :: rest) ->
    step (mkSys c ths) (mkSys (Counter.update delta c) (<[i := rest]> ths)).

(** Every thread has issued all of its calls. *)
Definition finished (s : sys) : Prop := Forall (fun th => th = []) (threads s).

(** Sum of the deltas one thread still has to issue. *)
Definition sum_deltas (th : list Z) : Z := foldr Z.add 0 th.

(** Sum of the deltas of all threads. *)
Definition total_deltas (ths : list (list Z)) : Z := foldr (fun th acc => sum_deltas th + acc) 0 ths.

(** A scheduler given as the list of thread indices that run next; a thread
    picked after it has finished does nothing. *)
Fixpoint run_schedule (sched : list nat) (s : sys) : sys :=
  match sched with
  | [] => s
  | i :: sched' =>
      match threads s !! i with
      | Some (delta :: rest) =>
          run_schedule sched' (mkSys (Counter.update delta (counter s)) (<[i := rest]> (threads s)))
      | _ => run_schedule sched' s
      end
  end.

(** What the counter holds plus what is still to be added never changes. *)
Definition pending_total (s : sys) : Z :=
  wrap64 (Counter.value (counter s) + total_deltas (threads s)).

End Concurrent.

(** ** Stop watches and [ScopedTimer<T>] *)

(** The stop-watch interface that the template parameter [T] of [ScopedTimer]
    must implement.  Every call reads the clock; the reading is passed as
    [now]. *)
Class StopWatch (T : Type) := {
  sw_new : T;
  sw_start : Z -> T -> T;
  sw_stop : Z -> T -> T;
  sw_elapsed_time : Z -> T -> Z
}.

(** Modelled from the spec: [util/stopwatch.hpp] is not part of the sources.
    A monotonic stop watch records the clock reading at which it was started
    and accumulates the time between [start] and [stop]. *)
Module MonotonicStopWatch.

Record t : Set := mk {
  _start : Z;
  _total_time : Z;
  _running : bool
}.

Definition new : t := mk 0 0 false.

Definition start (now : Z) (sw : t) : t :=
  if _running sw then sw else mk now (_total_time sw) true.

Definition elapsed_time (now : Z) (sw : t) : Z :=
  if _running sw then _total_time sw + (now - _start sw) else _total_time sw.

Definition stop (now : Z) (sw : t) : t :=
  if _running sw then mk (_start sw) (elapsed_time now sw) false else sw.

#[global] Instance stop_watch : StopWatch t := {
  sw_new := new;
  sw_start := start;
  sw_stop := stop;
  sw_elapsed_time := elapsed_time
}.

End MonotonicStopWatch.

Module ScopedTimer.

(** Addresses of the objects a timer points to. *)
Abbreviation addr := nat (only parsing).

(** The memory a scoped timer can reach: the counters and the [bool] flags. *)
Record store : Set := mkStore {
  counters : addr -> Counter.t;
  flags : addr -> bool
}.

Section WithStopWatch.

Context {T : Type} `{StopWatch T}.

(** A null pointer is [None]. *)
Record t : Type := mk {
  _sw : T;
  _counter : option addr;
  _is_cancelled : option addr
}.

(** [ScopedTimer(counter, is_cancelled)] *)
Definition ScopedTimer (now : Z) (counter : option addr) (is_cancelled : option addr) : t :=
  match counter with
  | None => mk sw_new counter is_cancelled
  | Some _ => mk (sw_start now sw_new) counter is_cancelled
  end.

(** [stop()] *)
Definition stop (now : Z) (tm : t) : t :=
  mk (sw_stop now (_sw tm)) (_counter tm) (_is_cancelled tm).

(** [start()] *)
Definition start (now : Z) (tm : t) : t :=
  mk (sw_start now (_sw tm)) (_counter tm) (_is_cancelled tm).

(** [elapsed_time()] *)
Definition elapsed_time (now : Z) (tm : t) : Z := sw_elapsed_time now (_sw tm).

(** [is_cancelled()] *)
Definition is_cancelled (st : store) (tm : t) : bool :=
  match _is_cancelled tm with
  | None => false
  | Some p => flags st p
  end.

(** [UpdateCounter()] *)
Definition UpdateCounter (now : Z) (tm : t) (st : store) : store :=
  match _counter tm with
  | Some c =>
      if negb (is_cancelled st tm)
      then mkStore (<[c := Counter.update (elapsed_time now tm) (counters st c)]> (counters st))
                   (flags st)
      else st
  | None => st
  end.

(** [~ScopedTimer()] *)
Definition destroy (now : Z) (tm : t) (st : store) : store :=
  let tm' := stop now tm in
  UpdateCounter now tm' st.

(** The ways control can leave a block. *)
Inductive exit_path : Set := normal_return | early_return | unwinding.

(** A block that declares a scoped timer first and then runs [body].  The body
    works on the store and reports how it leaves the block and what the clock
    reads then; the timer is destroyed on every path. *)
Definition scoped (t0 : Z) (counter is_cancelled : option addr)
    (body : store -> exit_path * store * Z) (st : store) : exit_path * store :=
  let tm := ScopedTimer t0 counter is_cancelled in
  let '(path, st1, t1) := body st in
  (path, destroy t1 tm st1).

End WithStopWatch.

Arguments t T : clear implicits.

(** A store in which every counter is a timer at 0 and no flag is set. *)
Definition zero_timer_store : store :=
  mkStore (fun _ => Counter.Counter3 TUnit.TIME_NS (Counter.default_strategy TUnit.TIME_NS) 0)
          (fun _ => false).

(** A body that runs for 50 time units and, when [cancel] holds, sets the
    flag at address 0 on the way. *)
Definition body_50 (cancel : bool) (now : Z) (path : exit_path)
    (st : store) : exit_path * store * Z :=
  (path, mkStore (counters st) (if cancel then <[0%nat := true]> (flags st) else flags st),
   now + 50).

End ScopedTimer.

(** ** The flattened wire form *)

(** Modelled from the spec: the thrift structures of
    [gen_cpp/RuntimeProfile_types.h] are not part of the sources.  A counter
    entry carries name, unit, strategy, value and optional minimum and
    maximum. *)
Module TCounter.
Record t : Set := mk {
  name : string;
  type : TUnit.type;
  value : Z;
  strategy : TCounterStrategy;
  min_value : option Z;
  max_value : option Z
}.
End TCounter.

(** Modelled from the spec: one entry of the depth-first listing, with its
    name, metadata, averaged flag, counters, display strings, version and the
    declared number of children that follow it. *)
Module TRuntimeProfileNode.
Record t : Set := mk {
  name : string;
  num_children : Z;
  counters : list TCounter.t;
  metadata : Z;
  is_averaged : bool;
  indent : bool;
  info_strings : list (string * string);
  version : Z
}.
End TRuntimeProfileNode.

(** ** [RuntimeProfile] nodes in their object pool *)

Module RuntimeProfile.

(** Identity of an object allocated from the pool. *)
Abbreviation addr := nat (only parsing).

Definition MERGED_INFO_PREFIX_MIN : string := "__MIN_OF_".
Definition MERGED_INFO_PREFIX_MAX : string := "__MAX_OF_".

(** Modelled from the spec: [ROOT_COUNTER] is declared in the header and
    defined in [runtime_profile.cpp]; the root sentinel is the empty name. *)
Definition ROOT_COUNTER : string := "".

(** The data members of one profile node.  Pointers are pool addresses;
    [nullptr] is [None].  The locks, the bucket counters and the event
    sequences carry no data used here. *)
Record t : Type := mk {
  _parent : option addr;
  _name : string;
  _metadata : Z;
  _is_averaged_profile : bool;
  _counter_map : gmap string (addr * string);
  _child_counter_map : gmap string (gset string);
  _child_map : gmap string addr;
  _children : list (addr * bool);
  _info_strings : gmap string string;
  _info_strings_display_order : list string;
  _counter_total_time : Counter.t;
  _local_time_percent : Q;
  _version : Z
}.

(** The objects reachable from profile nodes: the nodes themselves and the
    counters their counter maps point to. *)
Record heap : Type := mkHeap {
  profiles : gmap addr t;
  counters : gmap addr Counter.t
}.

Definition with_parent (x : option addr) (p : t) : t :=
  mk x (_name p) (_metadata p) (_is_averaged_profile p) (_counter_map p)
     (_child_counter_map p) (_child_map p) (_children p) (_info_strings p)
     (_info_strings_display_order p) (_counter_total_time p) (_local_time_percent p)
     (_version p).

Definition with_name (x : string) (p : t) : t :=
  mk (_parent p) x (_metadata p) (_is_averaged_profile p) (_counter_map p)
     (_child_counter_map p) (_child_map p) (_children p) (_info_strings p)
     (_info_strings_display_order p) (_counter_total_time p) (_local_time_percent p)
     (_version p).

Definition with_metadata (x : Z) (p : t) : t :=
  mk (_parent p) (_name p) x (_is_averaged_profile p) (_counter_map p)
     (_child_counter_map p) (_child_map p) (_children p) (_info_strings p)
     (_info_strings_display_order p) (_counter_total_time p) (_local_time_percent p)
     (_version p).

Definition with_counters (cm : gmap string (addr * string))
    (ccm : gmap string (gset string)) (p : t) : t :=
  mk (_parent p) (_name p) (_metadata p) (_is_averaged_profile p) cm ccm
     (_child_map p) (_children p) (_info_strings p)
     (_info_strings_display_order p) (_counter_total_time p) (_local_time_percent p)
     (_version p).

Definition with_children (m : gmap string addr) (l : list (addr * bool)) (p : t) : t :=
  mk (_parent p) (_name p) (_metadata p) (_is_averaged_profile p) (_counter_map p)
     (_child_counter_map p) m l (_info_strings p)
     (_info_strings_display_order p) (_counter_total_time p) (_local_time_percent p)
     (_version p).

Definition with_info_strings (m : gmap string string) (l : list string) (p : t) : t :=
  mk (_parent p) (_name p) (_metadata p) (_is_averaged_profile p) (_counter_map p)
     (_child_counter_map p) (_child_map p) (_children p) m l
     (_counter_total_time p) (_local_time_percent p) (_version p).

Definition with_version (x : Z) (p : t) : t :=
  mk (_parent p) (_name p) (_metadata p) (_is_averaged_profile p) (_counter_map p)
     (_child_counter_map p) (_child_map p) (_children p) (_info_strings p)
     (_info_strings_display_order p) (_counter_total_time p) (_local_time_percent p) x.

Definition set_profile (a : addr) (p : t) (h : heap) : heap :=
  mkHeap (<[a := p]> (profiles h)) (counters h).

Definition set_counter (a : addr) (c : Counter.t) (h : heap) : heap :=
  mkHeap (profiles h) (<[a := c]> (counters h)).

(** Modelled from the spec: the constructor is defined in
    [runtime_profile.cpp].  A node is created with a name and the averaged
    flag, without counters, children or display strings, with its own
    total-time counter and (by the in-class initialiser) version 0. *)
Definition RuntimeProfile (name : string) (is_averaged_profile : bool) : t :=
  mk None name (-1) is_averaged_profile ∅ ∅ ∅ [] ∅ []
     (Counter.Counter2 TUnit.TIME_NS 0) 0%Q 0.

(** [parent()] *)
Definition parent (this : addr) (h : heap) : option (option addr) :=
  _parent <$> profiles h !! this.

(** [reset_parent()] *)
Definition reset_parent (this : addr) (h : heap) : option heap :=
  p ← profiles h !! this; Some (set_profile this (with_parent None p) h).

(** [name()] *)
Definition name (this : addr) (h : heap) : option string :=
  _name <$> profiles h !! this.

(** [set_name(name)] *)
Definition set_name (x : string) (this : addr) (h : heap) : option heap :=
  p ← profiles h !! this; Some (set_profile this (with_name x p) h).

(** [metadata()] *)
Definition metadata (this : addr) (h : heap) : option Z :=
  _metadata <$> profiles h !! this.

(** [set_metadata(md)] *)
Definition set_metadata (md : Z) (this : addr) (h : heap) : option heap :=
  p ← profiles h !! this; Some (set_profile this (with_metadata md p) h).

(** [num_children()] *)
Definition num_children (this : addr) (h : heap) : option nat :=
  (fun p => size (_child_map p)) <$> profiles h !! this.

(** [num_counters()] *)
Definition num_counters (this : addr) (h : heap) : option nat :=
  (fun p => size (_counter_map p)) <$> profiles h !! this.

(** [inc_version()]: [_version += 1] on a plain [int64_t]. *)
Definition inc_version (this : addr) (h : heap) : option heap :=
  p ← profiles h !! this;
  v ← checked_add64 (_version p) 1;
  Some (set_profile this (with_version v p) h).

(** [get_version()] *)
Definition get_version (this : addr) (h : heap) : option Z :=
  _version <$> profiles h !! this.

(** Modelled from the spec: [create_child] is defined in
    [runtime_profile.cpp].  If a child with that name exists it is returned
    and [indent] and [prepend] are ignored; otherwise a new node is allocated,
    its parent back-reference is set, and it is inserted at the front or at
    the back of the ordered child list. *)
Definition create_child (name : string) (indent prepend : bool) (this : addr) (h : heap)
  : option (addr * heap) :=
  p ← profiles h !! this;
  match _child_map p !! name with
  | Some child => Some (child, h)
  | None =>
      let child := fresh (dom (profiles h)) in
      let c := with_parent (Some this) (RuntimeProfile name false) in
      let l := if prepend then (child, indent) :: _children p
               else _children p ++ [(child, indent)] in
      let p' := with_children (<[name := child]> (_child_map p)) l p in
      Some (child, set_profile this p' (set_profile child c h))
  end.

(** Modelled from the spec: [add_child_counter] is defined in
    [runtime_profile.cpp].  If a counter with that name exists anywhere in the
    node it is returned unchanged and the arguments are ignored; otherwise a
    counter is allocated and registered under [parent_name]. *)
Definition add_child_counter (name : string) (type : TUnit.type) (strategy : TCounterStrategy)
    (parent_name : string) (this : addr) (h : heap) : option (addr * heap) :=
  p ← profiles h !! this;
  match _counter_map p !! name with
  | Some (c, _) => Some (c, h)
  | None =>
      let c := fresh (dom (counters h)) in
      let siblings := default ∅ (_child_counter_map p !! parent_name) in
      let p' := with_counters (<[name := (c, parent_name)]> (_counter_map p))
                  (<[parent_name := siblings ∪ {[name]}]> (_child_counter_map p)) p in
      Some (c, set_profile this p' (set_counter c (Counter.Counter3 type strategy 0) h))
  end.

(** [add_counter(name, type, strategy)] *)
Definition add_counter (name : string) (type : TUnit.type) (strategy : TCounterStrategy)
    (this : addr) (h : heap) : option (addr * heap) :=
  add_child_counter name type strategy ROOT_COUNTER this h.

(** Modelled from the spec: [add_info_string] is defined in
    [runtime_profile.cpp]; an existing key has its value replaced, a new key
    is also appended to the display order. *)
Definition add_info_string (key value : string) (this : addr) (h : heap) : option heap :=
  p ← profiles h !! this;
  let order := match _info_strings p !! key with
               | Some _ => _info_strings_display_order p
               | None => _info_strings_display_order p ++ [key]
               end in
  Some (set_profile this (with_info_strings (<[key := value]> (_info_strings p)) order p) h).

(** *** Incremental update from a flattened snapshot *)

(** What a snapshot entry writes into a counter: the value, and the minimum
    and maximum when present. *)
Definition overwrite_counter (tc : TCounter.t) (c : Counter.t) : Counter.t :=
  let c1 := Counter.set (TCounter.value tc) c in
  let c2 := match TCounter.min_value tc with Some m => Counter.set_min m c1 | None => c1 end in
  match TCounter.max_value tc with Some m => Counter.set_max m c2 | None => c2 end.

(** A counter of the snapshot that is absent locally is created; its value is
    overwritten in either case. *)
Definition update_counter (tc : TCounter.t) (this : addr) (h : heap) : option heap :=
  '(c, h1) ← add_child_counter (TCounter.name tc) (TCounter.type tc) (TCounter.strategy tc)
               ROOT_COUNTER this h;
  cnt ← counters h1 !! c;
  Some (set_counter c (overwrite_counter tc cnt) h1).

Fixpoint update_counters (tcs : list TCounter.t) (this : addr) (h : heap) : option heap :=
  match tcs with
  | [] => Some h
  | tc :: tcs' => h1 ← update_counter tc this h; update_counters tcs' this h1
  end.

Fixpoint update_info_strings (kvs : list (string * string)) (this : addr) (h : heap)
  : option heap :=
  match kvs with
  | [] => Some h
  | (k, v) :: kvs' => h1 ← add_info_string k v this h; update_info_strings kvs' this h1
  end.

(** The value updates of one snapshot entry: counters, display strings and
    the stored version. *)
Definition update_values (node : TRuntimeProfileNode.t) (this : addr) (h : heap) : option heap :=
  h1 ← update_counters (TRuntimeProfileNode.counters node) this h;
  h2 ← update_info_strings (TRuntimeProfileNode.info_strings node) this h1;
  p ← profiles h2 !! this;
  Some (set_profile this (with_version (TRuntimeProfileNode.version node) p) h2).

(** The loop over the declared children of an entry: each child entry is
    matched by name with a child of [this] (created when absent) and handed to
    [rec], which returns the cursor behind that child's subtree. *)
Fixpoint update_children (rec : nat -> addr -> heap -> option (nat * heap))
    (count : nat) (nodes : list TRuntimeProfileNode.t) (idx : nat) (this : addr) (h : heap)
  : option (nat * heap) :=
  match count with
  | O => Some (idx, h)
  | S count' =>
      tchild ← nodes !! idx;
      '(child, h1) ← create_child (TRuntimeProfileNode.name tchild)
                       (TRuntimeProfileNode.indent tchild) false this h;
      '(idx', h2) ← rec idx child h1;
      update_children rec count' nodes idx' this h2
  end.

(** Modelled from the spec: [update(nodes, idx, is_parent_node_old)] is
    declared in the header and defined in [runtime_profile.cpp].  The entry at
    the cursor is stale when its parent was, or when its version is not
    strictly newer than the stored one; a stale entry has its value updates
    skipped, and in either case the children entries are traversed.  The
    result is the cursor on return and the heap; [None] when the listing ends
    too early (or the recursion bound [fuel] is reached). *)
Fixpoint update_rec (fuel : nat) (nodes : list TRuntimeProfileNode.t) (idx : nat)
    (is_parent_node_old : bool) (this : addr) (h : heap) : option (nat * heap) :=
  match fuel with
  | O => None
  | S fuel' =>
      node ← nodes !! idx;
      p ← profiles h !! this;
      let is_node_old :=
        is_parent_node_old || (TRuntimeProfileNode.version node <=? _version p) in
      h1 ← (if is_node_old then Some h else update_values node this h);
      update_children
        (fun i child hh => update_rec fuel' nodes i is_node_old child hh)
        (Z.to_nat (TRuntimeProfileNode.num_children node)) nodes (S idx) this h1
  end.

(** [update(thrift_profile)]: the whole listing, from its first entry. *)
Definition update (fuel : nat) (nodes : list TRuntimeProfileNode.t) (this : addr) (h : heap)
  : option heap :=
  snd <$> update_rec fuel nodes 0 false this h.

(** *** Snapshots as trees *)

(** A snapshot before flattening: an entry and the snapshots of its children. *)
Inductive snapshot : Set :=
| Snapshot (node : TRuntimeProfileNode.t) (children : list snapshot).

Definition with_num_children (n : Z) (node : TRuntimeProfileNode.t) : TRuntimeProfileNode.t :=
  TRuntimeProfileNode.mk (TRuntimeProfileNode.name node) n
    (TRuntimeProfileNode.counters node) (TRuntimeProfileNode.metadata node)
    (TRuntimeProfileNode.is_averaged node) (TRuntimeProfileNode.indent node)
    (TRuntimeProfileNode.info_strings node) (TRuntimeProfileNode.version node).

(** The depth-first pre-order listing: every entry declares how many children
    follow it. *)
Fixpoint flatten (s : snapshot) : list TRuntimeProfileNode.t :=
  match s with
  | Snapshot node children =>
      with_num_children (Z.of_nat (length children)) node
        :: concat (List.map flatten children)
  end.

(** Number of entries in the subtree span. *)
Fixpoint span (s : snapshot) : nat :=
  match s with
  | Snapshot _ children => S (list_sum (List.map span children))
  end.

Definition root_version (s : snapshot) : Z :=
  match s with Snapshot node _ => TRuntimeProfileNode.version node end.

(** Every child pointer of every node leads to a node of the pool. *)
Definition heap_wf (h : heap) : Prop :=
  forall a p name c,
    profiles h !! a = Some p -> _child_map p !! name = Some c ->
    is_Some (profiles h !! c).

(** *** Sequences of operations on nodes *)

Inductive operation : Type :=
| op_inc_version
| op_get_version
| op_reset_parent
| op_set_name (name : string)
| op_set_metadata (md : Z)
| op_create_child (name : string) (indent prepend : bool)
| op_add_child_counter (name : string) (type : TUnit.type) (strategy : TCounterStrategy)
    (parent_name : string)
| op_add_info_string (key value : string)
| op_update (fuel : nat) (nodes : list TRuntimeProfileNode.t).

Definition run_operation (o : operation) (this : addr) (h : heap) : option heap :=
  match o with
  | op_inc_version => inc_version this h
  | op_get_version => _ ← get_version this h; Some h
  | op_reset_parent => reset_parent this h
  | op_set_name x => set_name x this h
  | op_set_metadata md => set_metadata md this h
  | op_create_child name indent prepend => snd <$> create_child name indent prepend this h
  | op_add_child_counter name type strategy parent_name =>
      snd <$> add_child_counter name type strategy parent_name this h
  | op_add_info_string key value => add_info_string key value this h
  | op_update fuel nodes => update fuel nodes this h
  end.

(** Operations applied in order, each to the node it names. *)
Fixpoint run_operations (ops : list (addr * operation)) (h : heap) : option heap :=
  match ops with
  | [] => Some h
  | (this, o) :: ops' => h1 ← run_operation o this h; run_operations ops' h1
  end.

(** *** Relations between heaps *)

(** The nodes of [h] are still there in [h'], each related by [R] to what it
    was. *)
Definition heap_rel (R : t -> t -> Prop) (h h' : heap) : Prop :=
  forall a p, profiles h !! a = Some p -> exists p', profiles h' !! a = Some p' /\ R p p'.

(** Versions compared. *)
Definition version_le (p p' : t) : Prop := _version p <= _version p'.
Definition version_eq (p p' : t) : Prop := _version p' = _version p.

(** Equal up to the child map and the child list. *)
Definition same_values (p p' : t) : Prop := exists m l, p' = with_children m l p.

(** The outcome of traversing stale entries: the call returns with the cursor
    at [idx'], and the heap differs from [h] only in child nodes that were
    created on the way. *)
Definition stale_result (r : option (nat * heap)) (idx' : nat) (h : heap) : Prop :=
  exists h', r = Some (idx', h') /\ heap_wf h' /\ counters h' = counters h /\
             heap_rel same_values h h'.

Definition stale_traversal (fuel : nat) : Prop :=
  forall s, (span s <= fuel)%nat ->
  forall nodes pre post old this h p,
    nodes = pre ++ flatten s ++ post ->
    heap_wf h -> profiles h !! this = Some p ->
    old || (root_version s <=? _version p) = true ->
    stale_result (update_rec fuel nodes (length pre) old this h)
      (length pre + span s)%nat h.

(** *** Example data *)

(** A pool that holds a single fresh node, at address 0. *)
Definition root_only_heap : heap :=
  mkHeap {[ 0%nat := RuntimeProfile "root" false ]} ∅.

Definition example_counter (name : string) (value : Z) : TCounter.t :=
  TCounter.mk name TUnit.UNIT value (Counter.default_strategy TUnit.UNIT) None None.

Definition example_entry (name : string) (counters : list TCounter.t) (version : Z)
  : TRuntimeProfileNode.t :=
  TRuntimeProfileNode.mk name 0 counters 0 false true [] version.

(** A snapshot of three entries whose root version 0 is not newer than the
    version of a fresh node, followed in the listing by a sibling entry. *)
Definition stale_snapshot : snapshot :=
  Snapshot (example_entry "root" [example_counter "rows" 99] 0)
    [Snapshot (example_entry "a" [example_counter "bytes" 77] 9) [];
     Snapshot (example_entry "b" [] 9) []].

Definition next_sibling : TRuntimeProfileNode.t := example_entry "sibling" [] 1.

End RuntimeProfile.

(** ** Profile trees: merging isomorphic instances and time attribution *)

(** Modelled from the spec: [merge_isomorphic_profiles],
    [merge_isomorphic_counters] and [compute_time_in_profile] are declared in
    the header and defined in [runtime_profile.cpp].  They are modelled on the
    tree that a root node spans: every node with its name, its counters by
    name (each with its parent counter name), its total-time counter, its
    local-time fraction and its ordered children. *)
Module ProfileTree.

Inductive t : Type := Tree {
  name : string;
  counter_map : gmap string (Counter.t * string);
  counter_total_time : Counter.t;
  local_time_percent : Q;
  children : list t
}.

(** The node reached from [p] by following child positions. *)
Fixpoint subtree (path : list nat) (p : t) : option t :=
  match path with
  | [] => Some p
  | i :: path' => children p !! i ≫= subtree path'
  end.

(** *** Merging N isomorphic trees *)

(** [MergedInfo]: merged value, minimum, maximum. *)
Definition MergedInfo : Set := (Z * Z * Z)%type.

(** The values added up one after the other in a 64-bit accumulator. *)
Definition sum64 (vs : list Z) : Z := foldl add64 0 vs.

(** The merged value is the sum of the instance values for a counter that
    aggregates by sum and their average (the sum divided by the number of
    instances, truncated) for one that aggregates by average; minimum and
    maximum are the extremes observed across the instances. *)
Definition merge_isomorphic_counters (counters : list Counter.t) : MergedInfo :=
  match counters with
  | [] => (0, 0, 0)
  | c0 :: rest =>
      let total := sum64 (Counter.value <$> counters) in
      let merged := if Counter.is_sum c0 then total
                    else total `quot` Z.of_nat (length counters) in
      (merged,
       foldr Z.min (Counter.value c0) (Counter.value <$> rest),
       foldr Z.max (Counter.value c0) (Counter.value <$> rest))
  end.

(** The counters named [cname] of the instances that have one; an instance
    without it is skipped. *)
Definition instance_counters (cname : string) (others : list t) : list Counter.t :=
  omap (fun p => fst <$> counter_map p !! cname) others.

(** The children at position [i] of the instances that have one. *)
Definition instance_children (i : nat) (others : list t) : list t :=
  omap (fun p => children p !! i) others.

(** A synthetic counter that publishes a cross-instance extreme of [c0]. *)
Definition published (c0 : Counter.t) (v : Z) : Counter.t :=
  Counter.Counter3 (Counter.type c0) (Counter.strategy c0) v.

(** For every counter of the first instance, the counter, its parent name
    and what merging it with the same-named counters of the other instances
    gives. *)
Definition merged_info (cm0 : gmap string (Counter.t * string)) (others : list t)
  : gmap string (Counter.t * string * MergedInfo) :=
  map_imap (fun cname '(c0, parent) =>
              Some (c0, parent,
                    merge_isomorphic_counters (c0 :: instance_counters cname others)))
           cm0.

(** The counter with its merged value. *)
Definition merged_entry (x : Counter.t * string * MergedInfo) : Counter.t * string :=
  let '(c0, parent, (v, _, _)) := x in (Counter.set v c0, parent).

(** The published minimum, unless the min-max policy is [SKIP_ALL]. *)
Definition published_min (x : Counter.t * string * MergedInfo) : option (Counter.t * string) :=
  let '(c0, parent, (_, mn, _)) := x in
  if Counter.skip_min_max c0 then None else Some (published c0 mn, parent).

(** The published maximum, unless the min-max policy is [SKIP_ALL]. *)
Definition published_max (x : Counter.t * string * MergedInfo) : option (Counter.t * string) :=
  let '(c0, parent, (_, _, mx)) := x in
  if Counter.skip_min_max c0 then None else Some (published c0 mx, parent).

(** The counters of the merged node: every counter of the first instance
    with its merged value and, unless its min-max policy is [SKIP_ALL], its
    cross-instance minimum and maximum published next to it under the
    prefixed names. *)
Definition merge_counter_map (cm0 : gmap string (Counter.t * string)) (others : list t)
  : gmap string (Counter.t * string) :=
  let info := merged_info cm0 others in
  kmap (M2 := gmap string) (String.append RuntimeProfile.MERGED_INFO_PREFIX_MIN)
    (omap published_min info)
  ∪ kmap (M2 := gmap string) (String.append RuntimeProfile.MERGED_INFO_PREFIX_MAX)
      (omap published_max info)
  ∪ (merged_entry <$> info).

(** The loop over the children of the first instance: the child at position
    [i] is merged with the children at that position of the other instances. *)
Fixpoint merge_children (merge : t -> list t -> t) (others : list t) (i : nat)
    (kids : list t) {struct kids} : list t :=
  match kids with
  | [] => []
  | k :: kids' => merge k (instance_children i others) :: merge_children merge others (S i) kids'
  end.

(** The merge into the first instance [p0], position by position. *)
Fixpoint merge_into_first (p0 : t) (others : list t) {struct p0} : t :=
  match p0 with
  | Tree n cm total_time f kids =>
      Tree n (merge_counter_map cm others) total_time f
        (merge_children merge_into_first others 0 kids)
  end.

(** Pairwise comparison of two child lists. *)
Fixpoint identical_children (identical : t -> t -> bool) (ka kb : list t) {struct ka} : bool :=
  match ka, kb with
  | [], [] => true
  | x :: ka', y :: kb' => identical x y && identical_children identical ka' kb'
  | _, _ => false
  end.

(** Same name, same counter names and pairwise identical children. *)
Fixpoint identical_shape (a b : t) {struct a} : bool :=
  match a, b with
  | Tree na cma _ _ kidsa, Tree nb cmb _ _ kidsb =>
      bool_decide (na = nb) && bool_decide (dom cma = dom cmb)
      && identical_children identical_shape kidsa kidsb
  end.

(** [merge_isomorphic_profiles(obj_pool, profiles, require_identical)]: no
    result for an empty list, or when [require_identical] is set and an
    instance differs in shape from the first; otherwise the first tree,
    overwritten with the merge. *)
Definition merge_isomorphic_profiles (profiles : list t) (require_identical : bool)
  : option t :=
  match profiles with
  | [] => None
  | p0 :: others =>
      if require_identical && negb (forallb (identical_shape p0) others) then None
      else Some (merge_into_first p0 others)
  end.

(** The values that the counter [cname] of the node at [path] has in the
    instances. *)
Definition counter_values (path : list nat) (cname : string) (profiles : list t) : list Z :=
  omap (fun p => n ← subtree path p;
                 cp ← counter_map n !! cname;
                 Some (Counter.value (fst cp))) profiles.

(** The value of the counter [cname] of a node, if it has one. *)
Definition counter_value (cname : string) (p : t) : option Z :=
  (fun cp => Counter.value (fst cp)) <$> counter_map p !! cname.

(** The mathematical sum of the values. *)
Definition sum_values (vs : list Z) : Z := foldr Z.add 0 vs.

(** An instance with a single counter and no children. *)
Definition single_counter_instance (cname : string) (type : TUnit.type)
    (aggregate : TCounterAggregateType.type) (v : Z) : t :=
  Tree "instance"
    {[ cname := (Counter.Counter3 type
                   (Counter.create_strategy aggregate TCounterMergeType.MERGE_ALL 0
                      TCounterMinMaxType.MIN_MAX_ALL) v,
                 RuntimeProfile.ROOT_COUNTER) ]}
    (Counter.Counter2 TUnit.TIME_NS 0) 0%Q [].

(** No counter of the node carries one of the reserved prefixes. *)
Definition unprefixed_names (p : t) : Prop :=
  forall cname,
    counter_map p !! (RuntimeProfile.MERGED_INFO_PREFIX_MIN +:+ cname) = None /\
    counter_map p !! (RuntimeProfile.MERGED_INFO_PREFIX_MAX +:+ cname) = None.

(** *** Time attribution *)

(** [q] clamped to the interval from 0 to 1. *)
Definition clamp01 (q : Q) : Q :=
  if Qle_bool q 0 then 0%Q else if Qle_bool 1 q then 1%Q else q.

(** Sum of the total-time counters of the direct children. *)
Definition children_total_time (kids : list t) : Z :=
  foldr (fun k acc => Counter.value (counter_total_time k) + acc) 0 kids.

(** The fraction of [total] spent in the node itself; the quotient is taken
    exactly. *)
Definition local_time_fraction (total : Z) (p : t) : Q :=
  if total =? 0 then 0%Q
  else clamp01 (inject_Z (Counter.value (counter_total_time p)
                          - children_total_time (children p))
                / inject_Z total)%Q.

(** [compute_time_in_profile(total_time)] *)
Fixpoint compute_time_in_profile_rec (total : Z) (p : t) {struct p} : t :=
  match p with
  | Tree n cm total_time f kids =>
      Tree n cm total_time (local_time_fraction total p)
        (List.map (compute_time_in_profile_rec total) kids)
  end.

(** [compute_time_in_profile()] *)
Definition compute_time_in_profile (p : t) : t :=
  compute_time_in_profile_rec (Counter.value (counter_total_time p)) p.

End ProfileTree.

(** ** Runs of watermark-counter calls by one thread *)

Module WaterMarkCalls.

(** The mutating member functions of a watermark counter. *)
Inductive call : Set :=
| call_add (delta : Z)
| call_try_add (delta max : Z)
| call_set (v : Z).

(** One call; each retry loop gets [S fuel] iterations. *)
Definition run_call (is_high : bool) (fuel : nat) (c : call) (w : WaterMarkCounter.t)
  : option WaterMarkCounter.t :=
  match c with
  | call_add delta => WaterMarkCounter.add is_high (S fuel) delta w
  | call_try_add delta max => snd <$> WaterMarkCounter.try_add is_high (S fuel) delta max w
  | call_set v => WaterMarkCounter.set is_high (S fuel) v w
  end.

Fixpoint run_calls (is_high : bool) (fuel : nat) (cs : list call) (w : WaterMarkCounter.t)
  : option WaterMarkCounter.t :=
  match cs with
  | [] => Some w
  | c :: cs' => w' ← run_call is_high fuel c w; run_calls is_high fuel cs' w'
  end.

(** The running sums [d1], [d1 + d2], ... of a list of deltas, from [start]. *)
Fixpoint running_sums (start : Z) (deltas : list Z) : list Z :=
  match deltas with
  | [] => []
  | d :: ds => (start + d) :: running_sums (start + d) ds
  end.

(** The recorded extreme is on the right side of the current value. *)
Definition extreme_covers (is_high : bool) (w : WaterMarkCounter.t) : Prop :=
  if is_high then WaterMarkCounter.current_value w <= WaterMarkCounter.value w else WaterMarkCounter.value w <= WaterMarkCounter.current_value w.

(** The recorded extreme only moves outwards. *)
Definition extreme_moved (is_high : bool) (w w' : WaterMarkCounter.t) : Prop :=
  if is_high then WaterMarkCounter.value w <= WaterMarkCounter.value w' else WaterMarkCounter.value w' <= WaterMarkCounter.value w.

(** What a call needs for its plain addition not to overflow. *)
Definition call_defined (c : call) (w : WaterMarkCounter.t) : Prop :=
  match c with
  | call_add delta | call_try_add delta _ => in_int64 (WaterMarkCounter.current_value w + delta)
  | call_set _ => True
  end.

End WaterMarkCalls.

(** ** [ScopedCounter] *)

Module ScopedCounter.

Record t : Set := mk {
  _val : Z;
  _counter : option nat
}.

(** [-1L * _val] on plain [int64_t] operands. *)
Definition checked_neg64 (v : Z) : option Z :=
  if decide (in_int64 (- v)) then Some (- v) else None.

(** [ScopedCounter(counter, val)]: [None] when the negation overflows. *)
Definition ScopedCounter (counter : option nat) (val : Z) (st : ScopedTimer.store)
  : option (t * ScopedTimer.store) :=
  match counter with
  | None => Some (mk val counter, st)
  | Some c =>
      d ← checked_neg64 val;
      Some (mk val counter,
            ScopedTimer.mkStore
              (<[c := Counter.update d (ScopedTimer.counters st c)]> (ScopedTimer.counters st))
              (ScopedTimer.flags st))
  end.

(** [~ScopedCounter()] *)
Definition destroy (sc : t) (st : ScopedTimer.store) : ScopedTimer.store :=
  match _counter sc with
  | Some c =>
      ScopedTimer.mkStore
        (<[c := Counter.update (_val sc) (ScopedTimer.counters st c)]> (ScopedTimer.counters st))
        (ScopedTimer.flags st)
  | None => st
  end.

(** A block body that only issues [update(delta)] calls on counters. *)
Fixpoint run_updates (us : list (nat * Z)) (st : ScopedTimer.store) : ScopedTimer.store :=
  match us with
  | [] => st
  | (c, delta) :: us' =>
      run_updates us'
        (ScopedTimer.mkStore
           (<[c := Counter.update delta (ScopedTimer.counters st c)]> (ScopedTimer.counters st))
           (ScopedTimer.flags st))
  end.

(** A block that declares a scoped counter and then runs [body]; the
    destructor runs however the block is left. *)
Definition scoped (counter : option nat) (val : Z)
    (body : ScopedTimer.store -> ScopedTimer.store) (st : ScopedTimer.store)
  : option ScopedTimer.store :=
  '(sc, st1) ← ScopedCounter counter val st;
  Some (destroy sc (body st1)).

End ScopedCounter.

(** ** [RuntimeProfile::EventSequence] *)

Module EventSequence.

Section WithStopWatch.

Context {T : Type} `{StopWatch T}.

(** An [Event] is a pair of label and timestamp. *)
Record t : Type := mk {
  _events : list (string * Z);
  _sw : T
}.

(** [EventSequence()] *)
Definition EventSequence : t := mk [] sw_new.

(** [start()] *)
Definition start (now : Z) (es : t) : t := mk (_events es) (sw_start now (_sw es)).

(** [stop()] *)
Definition stop (now : Z) (es : t) : t := mk (_events es) (sw_stop now (_sw es)).

(** [elapsed_time()] *)
Definition elapsed_time (now : Z) (es : t) : Z := sw_elapsed_time now (_sw es).

(** [mark_event(label)] *)
Definition mark_event (now : Z) (label : string) (es : t) : t :=
  mk (_events es ++ [(label, sw_elapsed_time now (_sw es))]) (_sw es).


(** [mark_event] called for each label, at the clock reading that comes with
    it. *)
Fixpoint mark_events (marks : list (Z * string)) (es : t) : t :=
  match marks with
  | [] => es
  | (now, label) :: marks' => mark_events marks' (mark_event now label es)
  end.

End WithStopWatch.

Arguments t T : clear implicits.

End EventSequence.

(** ** Watermark-counter calls from several threads

    Each thread runs one call.  A step of the system is one atomic access to
    [current_value_] or to [_value] by one thread; between its steps a thread
    only holds the values it has read.  Any thread that has not returned may
    take the next step. *)

Module WaterMarkConcurrent.

Import WaterMarkCalls.

(** Where a thread is inside its call. *)
Inductive pc : Set :=
| pc_start                          (* the call has not touched the counter yet *)
| pc_try_cas (old_val : Z)          (* [try_add]: read [old_val], about to compare-exchange *)
| pc_update (v : Z)                 (* [Update(v)]: about to read [_value] *)
| pc_update_cas (v old_value : Z)   (* [Update(v)]: read [old_value], about to compare-exchange *)
| pc_done (result : bool)           (* returned; [result] is what [try_add] returns *)
| pc_undefined.                     (* a plain addition overflowed *)

Abbreviation thread := (call * pc)%type (only parsing).

Record sys : Set := mkSys {
  counter : WaterMarkCounter.t;
  threads : list thread
}.

(** [std::max] or [std::min], by the template argument. *)
Definition extreme (is_high : bool) (a b : Z) : Z :=
  if is_high then Z.max a b else Z.min a b.

(** The next atomic access of a thread and where it leaves the thread. *)
Definition thread_step (is_high : bool) (c : call) (p : pc) (w : WaterMarkCounter.t)
  : option (pc * WaterMarkCounter.t) :=
  let cur := WaterMarkCounter.current_value_ w in
  let val := Counter._value (WaterMarkCounter.base w) in
  match p with
  | pc_start =>
      match c with
      | call_add delta =>
          let '(old, cell) := Atomic.fetch_add delta cur in
          let w' := WaterMarkCounter.mk (WaterMarkCounter.base w) cell in
          match checked_add64 old delta with
          | Some new_val => Some (pc_update new_val, w')
          | None => Some (pc_undefined, w')
          end
      | call_try_add delta max =>
          let old_val := Atomic.load cur in
          match checked_add64 old_val delta with
          | None => Some (pc_undefined, w)
          | Some new_val =>
              if new_val >? max then Some (pc_done false, w)
              else Some (pc_try_cas old_val, w)
          end
      | call_set v =>
          Some (pc_update v, WaterMarkCounter.mk (WaterMarkCounter.base w) (Atomic.store v cur))
      end
  | pc_try_cas old_val =>
      match c with
      | call_try_add delta max =>
          let new_val := old_val + delta in
          let '(ok, cell, _) := Atomic.compare_exchange_strong old_val new_val cur in
          let w' := WaterMarkCounter.mk (WaterMarkCounter.base w) cell in
          if ok then Some (pc_update new_val, w') else Some (pc_start, w')
      | _ => None
      end
  | pc_update v =>
      let old_value := Atomic.load val in
      let new_value := extreme is_high old_value v in
      if new_value =? old_value then Some (pc_done true, w)
      else Some (pc_update_cas v old_value, w)
  | pc_update_cas v old_value =>
      let new_value := extreme is_high old_value v in
      let '(ok, cell, _) := Atomic.compare_exchange_strong old_value new_value val in
      let w' := WaterMarkCounter.mk (Counter.with_value cell (WaterMarkCounter.base w))
                  (WaterMarkCounter.current_value_ w) in
      if ok then Some (pc_done true, w') else Some (pc_update v, w')
  | pc_done _ | pc_undefined => None
  end.

Inductive step (is_high : bool) : sys -> sys -> Prop :=
| step_thread (w w' : WaterMarkCounter.t) (ths : list thread) (i : nat)
    (c : call) (p p' : pc) :
    ths !! i = Some (c, p) ->
    thread_step is_high c p w = Some (p', w') ->
    step is_high (mkSys w ths) (mkSys w' (<[i := (c, p')]> ths)).

(** The system in which every call is still to begin. *)
Definition initial (w : WaterMarkCounter.t) (calls : list call) : sys :=
  mkSys w ((fun c => (c, pc_start)) <$> calls).

(** Every thread has returned. *)
Definition all_returned (s : sys) : Prop :=
  Forall (fun t : thread => exists b, t.2 = pc_done b) (threads s).

(** The delta a thread has added to the current value so far. *)
Definition applied (t : thread) : Z :=
  match t with
  | (call_add delta, pc_start) => 0
  | (call_add delta, _) => delta
  | (call_try_add delta _, (pc_update _ | pc_update_cas _ _ | pc_done true)) => delta
  | _ => 0
  end.

Definition applied_total (ths : list thread) : Z :=
  foldr (fun t acc => applied t + acc) 0 ths.

(** A scheduler given as the list of thread indices that step next; a thread
    that cannot step is skipped. *)
Fixpoint run_schedule (is_high : bool) (sched : list nat) (s : sys) : sys :=
  match sched with
  | [] => s
  | i :: sched' =>
      match threads s !! i with
      | Some (c, p) =>
          match thread_step is_high c p (counter s) with
          | Some (p', w') => run_schedule is_high sched' (mkSys w' (<[i := (c, p')]> (threads s)))
          | None => run_schedule is_high sched' s
          end
      | None => run_schedule is_high sched' s
      end
  end.

(** The recorded extreme is on the right side of [v]. *)
Definition covers (is_high : bool) (w : WaterMarkCounter.t) (v : Z) : Prop :=
  if is_high then v <= WaterMarkCounter.value w else WaterMarkCounter.value w <= v.

(** The thread is inside [Update(v)]. *)
Definition updating (p : pc) (v : Z) : Prop :=
  p = pc_update v \/ exists old_value, p = pc_update_cas v old_value.

(** The current value is accounted for: the recorded extreme covers it, or a
    thread is still inside the [Update] call that will make it so, or the run
    has left defined behaviour. *)
Definition accounted (is_high : bool) (s : sys) : Prop :=
  covers is_high (counter s) (WaterMarkCounter.current_value (counter s)) \/
  exists j c p, threads s !! j = Some (c, p) /\
    (p = pc_undefined \/
     exists v, updating p v /\
       (if is_high then WaterMarkCounter.current_value (counter s) <= v
        else v <= WaterMarkCounter.current_value (counter s))).

(** Every call is a [try_add] with a bound of at most [M], and a thread about
    to compare-exchange has checked its sum against its bound. *)
Definition within_quota (M : Z) (t : thread) : Prop :=
  exists delta max, t.1 = call_try_add delta max /\ max <= M /\
    forall old_val, t.2 = pc_try_cas old_val -> old_val + delta <= max.

(** The call is an [add] or a [try_add], and a thread about to
    compare-exchange has a representable sum. *)
Definition adding (t : thread) : Prop :=
  match t with
  | (call_set _, _) => False
  | (call_add _, pc_try_cas _) => False
  | (call_try_add delta _, pc_try_cas old_val) => in_int64 (old_val + delta)
  | _ => True
  end.

(** Three threads that each try to take from a quota of 10, and a schedule
    in which two of them race on the same value: the second thread's
    compare-exchange fails and its retry is refused. *)
Definition quota_calls : list call :=
  [call_try_add 5 10; call_try_add 7 10; call_try_add 3 10].

Definition quota_schedule : list nat :=
  [0; 1; 0; 1; 1; 2; 2; 0; 2; 2; 0; 0]%nat.

Definition quota_run : sys :=
  run_schedule true quota_schedule
    (initial (HighWaterMarkCounter2 0 TUnit.BYTES 0) quota_calls).

End WaterMarkConcurrent.

(** ** The scroll scan reader (be/src/exec/es/es_scan_reader.cpp) *)

Module ESScanReader.

(** Modelled from the spec of its use: [common/status.h] is not part of the
    sources.  A status is OK or an error with a message; [InternalError] is the
    one kind of error that the reader makes itself. *)
Inductive Status : Set :=
| OK
| InternalError (msg : string)
| OtherError (code : Z) (msg : string).

Definition ok (s : Status) : bool :=
  match s with OK => true | _ => false end.

Definition message (s : Status) : string :=
  match s with OK => "" | InternalError m | OtherError _ m => m end.

(** The calls made on an [HttpClient], in the order they are made. *)
Inductive client_call : Set :=
| cc_init (url : string)
| cc_set_basic_auth (user passwd : string)
| cc_set_content_type (content_type : string)
| cc_set_timeout_ms (ms : Z)
| cc_trust_all_ssl
| cc_set_method_delete
| cc_execute_post_request (payload : string)
| cc_execute_delete_request (payload : string).

(** What the reader takes from outside this file: the property keys and the
    configuration values, the library functions, the HTTP client (whose
    answers may depend on everything that was asked of it so far), the query
    builder and the scroll parser [T]. *)
Record environment (T : Type) : Type := mkEnvironment {
  KEY_INDEX : string;
  KEY_TYPE : string;
  KEY_USER_NAME : string;
  KEY_PASS_WORD : string;
  KEY_SHARD : string;
  KEY_QUERY : string;
  KEY_ES_NET_SSL : string;
  KEY_BATCH_SIZE : string;
  KEY_TERMINATE_AFTER : string;
  es_scroll_keepalive : string;
  es_http_timeout_ms : Z;
  (* [atoi] *)
  atoi : string -> Z;
  (* [std::istringstream(s) >> std::boolalpha >> b], from the old [b] *)
  read_boolalpha : string -> bool -> bool;
  (* [HttpClient::init], after the calls so far *)
  init_status : list client_call -> Status;
  (* [HttpClient::execute_post_request]: status and the response buffer,
     from the calls so far and the old buffer *)
  post_result : list client_call -> string -> Status * string;
  (* [HttpClient::get_http_status] *)
  http_status : list client_call -> Z;
  build_next_scroll_body : string -> string -> string;
  build_clear_scroll_body : string -> string;
  (* [new T(doc_value_mode)], [parse], [get_scroll_id], [get_size] *)
  new_parser : bool -> T;
  parse : string -> bool -> T -> Status * T;
  get_scroll_id : T -> string;
  get_size : T -> Z;
  (* [PriorityThreadPool::try_offer] *)
  try_offer : list client_call -> bool
}.

Arguments KEY_INDEX {T}. Arguments KEY_TYPE {T}. Arguments KEY_USER_NAME {T}.
Arguments KEY_PASS_WORD {T}. Arguments KEY_SHARD {T}. Arguments KEY_QUERY {T}.
Arguments KEY_ES_NET_SSL {T}. Arguments KEY_BATCH_SIZE {T}.
Arguments KEY_TERMINATE_AFTER {T}. Arguments es_scroll_keepalive {T}.
Arguments es_http_timeout_ms {T}. Arguments atoi {T}. Arguments read_boolalpha {T}.
Arguments init_status {T}. Arguments post_result {T}. Arguments http_status {T}.
Arguments build_next_scroll_body {T}. Arguments build_clear_scroll_body {T}.
Arguments new_parser {T}. Arguments parse {T}. Arguments get_scroll_id {T}.
Arguments get_size {T}. Arguments try_offer {T}.

Definition SOURCE_SCROLL_SEARCH_FILTER_PATH : string :=
  "filter_path=_scroll_id,hits.hits._source,hits.total,hits.hits._id".
Definition DOCVALUE_SCROLL_SEARCH_FILTER_PATH : string :=
  "filter_path=_scroll_id,hits.total,hits.hits._score,hits.hits.fields".
Definition REQUEST_PREFERENCE_PREFIX : string := "&preference=_shards:".
Definition REQUEST_SEARCH_SCROLL_PATH : string := "/_search/scroll".

(** The data members; [_network_client] is the list of calls made on it. *)
Record t : Set := mk {
  _scroll_keep_alive : string;
  _http_timeout_ms : Z;
  _doc_value_mode : bool;
  _target : string;
  _index : string;
  _type : string;
  _user_name : string;
  _passwd : string;
  _shards : string;
  _query : string;
  _ssl_enabled : bool;
  _batch_size : Z;
  _exactly_once : bool;
  _search_url : string;
  _init_scroll_url : string;
  _next_scroll_url : string;
  _eos : bool;
  _is_first : bool;
  _cached_response : string;
  _scroll_id : string;
  _network_client : list client_call
}.

Definition with_client (calls : list client_call) (r : t) : t :=
  mk (_scroll_keep_alive r) (_http_timeout_ms r) (_doc_value_mode r) (_target r) (_index r)
     (_type r) (_user_name r) (_passwd r) (_shards r) (_query r) (_ssl_enabled r)
     (_batch_size r) (_exactly_once r) (_search_url r) (_init_scroll_url r)
     (_next_scroll_url r) (_eos r) (_is_first r) (_cached_response r) (_scroll_id r) calls.

Definition with_eos (b : bool) (r : t) : t :=
  mk (_scroll_keep_alive r) (_http_timeout_ms r) (_doc_value_mode r) (_target r) (_index r)
     (_type r) (_user_name r) (_passwd r) (_shards r) (_query r) (_ssl_enabled r)
     (_batch_size r) (_exactly_once r) (_search_url r) (_init_scroll_url r)
     (_next_scroll_url r) b (_is_first r) (_cached_response r) (_scroll_id r)
     (_network_client r).

Definition with_is_first (b : bool) (r : t) : t :=
  mk (_scroll_keep_alive r) (_http_timeout_ms r) (_doc_value_mode r) (_target r) (_index r)
     (_type r) (_user_name r) (_passwd r) (_shards r) (_query r) (_ssl_enabled r)
     (_batch_size r) (_exactly_once r) (_search_url r) (_init_scroll_url r)
     (_next_scroll_url r) (_eos r) b (_cached_response r) (_scroll_id r)
     (_network_client r).

Definition with_cached_response (s : string) (r : t) : t :=
  mk (_scroll_keep_alive r) (_http_timeout_ms r) (_doc_value_mode r) (_target r) (_index r)
     (_type r) (_user_name r) (_passwd r) (_shards r) (_query r) (_ssl_enabled r)
     (_batch_size r) (_exactly_once r) (_search_url r) (_init_scroll_url r)
     (_next_scroll_url r) (_eos r) (_is_first r) s (_scroll_id r) (_network_client r).

Definition with_scroll_id (s : string) (r : t) : t :=
  mk (_scroll_keep_alive r) (_http_timeout_ms r) (_doc_value_mode r) (_target r) (_index r)
     (_type r) (_user_name r) (_passwd r) (_shards r) (_query r) (_ssl_enabled r)
     (_batch_size r) (_exactly_once r) (_search_url r) (_init_scroll_url r)
     (_next_scroll_url r) (_eos r) (_is_first r) (_cached_response r) s
     (_network_client r).

(** [s.empty()] *)
Definition empty (s : string) : bool := bool_decide (s = "").

(** [props.find(key) != props.end() ? props.at(key) : old] *)
Definition find_or (props : gmap string string) (key : string) (old : string) : string :=
  match props !! key with Some v => v | None => old end.

Section WithEnvironment.

Context {T : Type} (E : environment T).

(** [ESScanReader(target, props, doc_value_mode)]; [None] when [props.at]
    throws.  [ssl0] and [is_first0] are what the members [_ssl_enabled] and
    [_is_first] hold before the constructor body runs. *)
Definition ESScanReader (ssl0 is_first0 : bool) (target : string)
    (props : gmap string string) (doc_value_mode : bool) : option t :=
  index ← props !! KEY_INDEX E;
  let type := find_or props (KEY_TYPE E) "" in
  let user_name := find_or props (KEY_USER_NAME E) "" in
  let passwd := find_or props (KEY_PASS_WORD E) "" in
  let shards := find_or props (KEY_SHARD E) "" in
  let query := find_or props (KEY_QUERY E) "" in
  let ssl_enabled := match props !! KEY_ES_NET_SSL E with
                     | Some v => read_boolalpha E v ssl0
                     | None => ssl0
                     end in
  batch_size_str ← props !! KEY_BATCH_SIZE E;
  let batch_size := atoi E batch_size_str in
  let filter_path := if doc_value_mode then DOCVALUE_SCROLL_SEARCH_FILTER_PATH
                     else SOURCE_SCROLL_SEARCH_FILTER_PATH in
  let keep_alive := es_scroll_keepalive E in
  match props !! KEY_TERMINATE_AFTER E with
  | Some terminate_after =>
      let search_url :=
        if empty type
        then target +:+ "/" +:+ index +:+ "/_search?terminate_after=" +:+ terminate_after
             +:+ "&preference=_shards:" +:+ shards +:+ "&" +:+ filter_path
        else target +:+ "/" +:+ index +:+ "/" +:+ type +:+ "/_search?terminate_after="
             +:+ terminate_after +:+ "&preference=_shards:" +:+ shards +:+ "&"
             +:+ filter_path in
      Some (mk keep_alive (es_http_timeout_ms E) doc_value_mode target index type user_name
              passwd shards query ssl_enabled batch_size true search_url "" "" false
              is_first0 "" "" [])
  | None =>
      let init_scroll_url :=
        if empty type
        then target +:+ "/" +:+ index +:+ "/_search?scroll=" +:+ keep_alive
             +:+ "&preference=_shards:" +:+ shards +:+ "&" +:+ filter_path
        else target +:+ "/" +:+ index +:+ "/" +:+ type +:+ "/_search?scroll=" +:+ keep_alive
             +:+ "&preference=_shards:" +:+ shards +:+ "&" +:+ filter_path in
      let next_scroll_url := target +:+ REQUEST_SEARCH_SCROLL_PATH +:+ "?" +:+ filter_path in
      Some (mk keep_alive (es_http_timeout_ms E) doc_value_mode target index type user_name
              passwd shards query ssl_enabled batch_size false "" init_scroll_url
              next_scroll_url false is_first0 "" "" [])
  end.

(** One call on [_network_client]. *)
Definition call (c : client_call) (r : t) : t :=
  with_client (_network_client r ++ [c]) r.

(** [if (!_user_name.empty() || !_passwd.empty()) set_basic_auth(...)] *)
Definition maybe_basic_auth (r : t) : t :=
  if negb (empty (_user_name r)) || negb (empty (_passwd r))
  then call (cc_set_basic_auth (_user_name r) (_passwd r)) r else r.

(** [if (_ssl_enabled) trust_all_ssl()] *)
Definition maybe_trust_all_ssl (r : t) : t :=
  if _ssl_enabled r then call cc_trust_all_ssl r else r.

(** [open()] *)
Definition open (r : t) : Status * t :=
  let r := with_is_first true r in
  let url := if _exactly_once r then _search_url r else _init_scroll_url r in
  let r := call (cc_init url) r in
  let st := init_status E (_network_client r) in
  if negb (ok st) then (st, r)
  else
    let r := maybe_basic_auth r in
    let r := call (cc_set_content_type "application/json") r in
    let r := maybe_trust_all_ssl r in
    let r := call (cc_execute_post_request (_query r)) r in
    let '(status, response) := post_result E (_network_client r) (_cached_response r) in
    let r := with_cached_response response r in
    if negb (ok status) || negb (http_status E (_network_client r) =? 200)
    then (InternalError ("Failed to connect to ES server, errmsg is: " +:+ message status), r)
    else (OK, r).

(** The part of [get_next] from [scroll_parser.reset] on. *)
Definition parse_response (response : string) (r : t) : Status * bool * option T * t :=
  let '(status, parser) := parse E response (_exactly_once r) (new_parser E (_doc_value_mode r)) in
  if negb (ok status) then (status, true, Some parser, with_eos true r)
  else if _exactly_once r then (OK, false, Some parser, with_eos true r)
  else
    let r := with_scroll_id (get_scroll_id E parser) r in
    if get_size E parser =? 0 then (OK, true, Some parser, with_eos true r)
    else (OK, false, Some parser, with_eos (get_size E parser <? _batch_size r) r).

(** [get_next(scan_eos, scroll_parser)]: the status, what [*scan_eos] holds
    on return, the scroll parser on return, and the reader. *)
Definition get_next (scroll_parser : option T) (r : t) : Status * bool * option T * t :=
  if _eos r then (OK, true, scroll_parser, r)
  else if _is_first r then parse_response (_cached_response r) (with_is_first false r)
  else if _exactly_once r then (OK, true, scroll_parser, r)
  else
    let r := call (cc_init (_next_scroll_url r)) r in
    let st := init_status E (_network_client r) in
    if negb (ok st) then (st, true, scroll_parser, r)
    else
      let r := maybe_basic_auth r in
      let r := call (cc_set_content_type "application/json") r in
      let r := call (cc_set_timeout_ms (_http_timeout_ms r)) r in
      let r := maybe_trust_all_ssl r in
      let r := call (cc_execute_post_request
                       (build_next_scroll_body E (_scroll_id r) (_scroll_keep_alive r))) r in
      let '(st, response) := post_result E (_network_client r) "" in
      if negb (ok st) then (st, true, scroll_parser, r)
      else
        let status := http_status E (_network_client r) in
        if status =? 404
        then (InternalError ("No search context found for " +:+ _scroll_id r),
              true, scroll_parser, r)
        else if negb (status =? 200)
        then (InternalError ("request scroll search failure: "
                             +:+ (if empty response then "empty response" else response)),
              true, scroll_parser, r)
        else parse_response response r.

(** The calls that the task built by [close()] makes on its own client when
    its [init] succeeds. *)
Definition send_del_request (user_name passwd : string) (enable_ssl : bool)
    (scroll_id scratch_target : string) : list client_call :=
  [cc_init scratch_target]
  ++ (if negb (empty user_name) || negb (empty passwd)
      then [cc_set_basic_auth user_name passwd] else [])
  ++ [cc_set_method_delete; cc_set_content_type "application/json";
      cc_set_timeout_ms (5 * 1000)]
  ++ (if enable_ssl then [cc_trust_all_ssl] else [])
  ++ [cc_execute_delete_request (build_clear_scroll_body E scroll_id)].

(** [close()]: the status and the task offered to the thread pool, if any. *)
Definition close (r : t) : Status * option (list client_call) :=
  if empty (_scroll_id r) then (OK, None)
  else
    let scratch_target := _target r +:+ REQUEST_SEARCH_SCROLL_PATH in
    (OK, Some (send_del_request (_user_name r) (_passwd r) (_ssl_enabled r)
                 (_scroll_id r) scratch_target)).

(** The calls on the HTTP client that make up one follow-up scroll request. *)
Definition follow_up_calls (r : t) : list client_call :=
  [cc_init (_next_scroll_url r)]
  ++ (if negb (empty (_user_name r)) || negb (empty (_passwd r))
      then [cc_set_basic_auth (_user_name r) (_passwd r)] else [])
  ++ [cc_set_content_type "application/json"; cc_set_timeout_ms (_http_timeout_ms r)]
  ++ (if _ssl_enabled r then [cc_trust_all_ssl] else [])
  ++ [cc_execute_post_request (build_next_scroll_body E (_scroll_id r) (_scroll_keep_alive r))].

(** The calls on the HTTP client that make up the request of [open]. *)
Definition open_calls (r : t) : list client_call :=
  [cc_init (if _exactly_once r then _search_url r else _init_scroll_url r)]
  ++ (if negb (empty (_user_name r)) || negb (empty (_passwd r))
      then [cc_set_basic_auth (_user_name r) (_passwd r)] else [])
  ++ [cc_set_content_type "application/json"]
  ++ (if _ssl_enabled r then [cc_trust_all_ssl] else [])
  ++ [cc_execute_post_request (_query r)].

(** The calls a user makes on a reader. *)
Inductive request : Set := req_open | req_get_next | req_close.

Definition run_request (q : request) (r : t) : t :=
  match q with
  | req_open => (open r).2
  | req_get_next => (get_next None r).2
  | req_close => r
  end.

Definition run_requests (qs : list request) (r : t) : t :=
  foldl (fun r q => run_request q r) r qs.

End WithEnvironment.

(** Environments for examples: a server that always answers with the HTTP
    status [code] and the response "hits", and a parser that takes the
    response as the scroll id and its length as the number of hits, and
    returns [parse_status]. *)
Definition example_environment_answering (code : Z) (parse_status : Status) :
    environment (string * Z) :=
  mkEnvironment (string * Z)
    "index" "type" "user" "password" "shard_id" "query" "es.net.ssl" "batch_size"
    "limit" "5m" 30000
    (fun s => Z.of_nat (String.length s))
    (fun s _ => bool_decide (s = "true"))
    (fun _ => OK)
    (fun _ _ => (OK, "hits"))
    (fun _ => code)
    (fun scroll_id keep_alive => scroll_id +:+ keep_alive)
    (fun scroll_id => scroll_id)
    (fun _ => ("", 0))
    (fun response _ _ => (parse_status, (response, Z.of_nat (String.length response))))
    fst snd
    (fun _ => true).

Definition example_environment : environment (string * Z) :=
  example_environment_answering 200 OK.

Definition example_gone_environment : environment (string * Z) :=
  example_environment_answering 404 OK.

Definition example_garbled_environment : environment (string * Z) :=
  example_environment_answering 200 (OtherError 6 "invalid json").

(** A scrolling reader and an exactly-once reader for the examples. *)
Definition example_props : gmap string string :=
  {[ "index" := "logs"; "batch_size" := "ab"; "user" := "reader" ]}.

Definition example_reader : option t :=
  ESScanReader example_environment false false "http://es:9200" example_props false.

Definition example_once_reader : option t :=
  ESScanReader example_environment false false "http://es:9200"
    (<["limit" := "10"]> example_props) false.

(** The scrolling reader as the constructor leaves it, after [open], and
    after [open] and one [get_next]. *)
Definition example_scrolling : t :=
  mk "5m" 30000 false "http://es:9200" "logs" "" "reader" "" "" "" false 2 false ""
     ("http://es:9200/logs/_search?scroll=5m&preference=_shards:&"
      +:+ SOURCE_SCROLL_SEARCH_FILTER_PATH)
     ("http://es:9200/_search/scroll?" +:+ SOURCE_SCROLL_SEARCH_FILTER_PATH)
     false false "" "" [].

(** The exactly-once reader as the constructor leaves it. *)
Definition example_once : t :=
  mk "5m" 30000 false "http://es:9200" "logs" "" "reader" "" "" "" false 2 true
     ("http://es:9200/logs/_search?terminate_after=10&preference=_shards:&"
      +:+ SOURCE_SCROLL_SEARCH_FILTER_PATH)
     "" "" false false "" "" [].

Definition example_opened : t := (open example_environment example_scrolling).2.

Definition example_started : t := (get_next example_environment None example_opened).2.

End ESScanReader.
(** * Properties

    ** 64-bit arithmetic *)

Section Int64Facts.

Lemma wrap64_in_int64 z : in_int64 (wrap64 z).
Proof.
  unfold in_int64, wrap64, MIN_INT64, MAX_INT64.
  pose proof (Z.mod_pos_bound (z + 2 ^ 63) (2 ^ 64) ltac:(lia)). lia.
Qed.

Lemma wrap64_id z : in_int64 z -> wrap64 z = z.
Proof.
  unfold in_int64, wrap64, MIN_INT64, MAX_INT64. intros Hz.
  rewrite Z.mod_small; lia.
Qed.

Lemma wrap64_add_l a b : wrap64 (wrap64 a + b) = wrap64 (a + b).
Proof.
  unfold wrap64. f_equal.
  replace ((a + 2 ^ 63) mod 2 ^ 64 - 2 ^ 63 + b + 2 ^ 63)
    with ((a + 2 ^ 63) mod 2 ^ 64 + b) by lia.
  rewrite Zplus_mod_idemp_l. f_equal. lia.
Qed.

Lemma add64_id a b : in_int64 (a + b) -> add64 a b = a + b.
Proof. apply wrap64_id. Qed.

End Int64Facts.

(** ** Counter construction *)

Section CounterFacts.

(** C9: the two-argument constructor [Counter(type, value)] discards its
    [value] argument, so [value()] is 0 whatever was passed, whereas the
    three-argument constructor [Counter(type, strategy, value)] stores it. *)
Theorem Counter_two_arg_ctor_discards_value :
  forall (type : TUnit.type) (strategy : TCounterStrategy) (v : Z),
    Counter.value (Counter.Counter2 type v) = 0 /\
    Counter.value (Counter.Counter3 type strategy v) = v.
Proof. intros type strategy v. split; reflexivity. Qed.

Example Counter2_42 : Counter.value (Counter.Counter2 TUnit.BYTES 42) = 0.
Proof. reflexivity. Qed.

Example Counter3_42 :
  Counter.value (Counter.Counter3 TUnit.BYTES (Counter.default_strategy TUnit.BYTES) 42) = 42.
Proof. reflexivity. Qed.

Lemma Counter_update_value delta c :
  Counter.value (Counter.update delta c) = add64 (Counter.value c) delta.
Proof. reflexivity. Qed.

End CounterFacts.

(** ** Watermark counters *)

Section WaterMarkCounterFacts.

Import WaterMarkCounter.

(** C10: a freshly constructed [LowWaterMarkCounter] reports 2^63 - 1 from both
    [value()] and [current_value()], and a freshly constructed
    [HighWaterMarkCounter] reports 0 from both; this holds for either
    constructor and whatever arguments it is given. *)
Theorem fresh_WaterMarkCounter_values :
  forall (uninit : Z) (type : TUnit.type) (strategy : TCounterStrategy) (v : Z),
    (value (LowWaterMarkCounter2 uninit type v) = 2 ^ 63 - 1 /\
     current_value (LowWaterMarkCounter2 uninit type v) = 2 ^ 63 - 1) /\
    (value (LowWaterMarkCounter3 uninit type strategy v) = 2 ^ 63 - 1 /\
     current_value (LowWaterMarkCounter3 uninit type strategy v) = 2 ^ 63 - 1) /\
    (value (HighWaterMarkCounter2 uninit type v) = 0 /\
     current_value (HighWaterMarkCounter2 uninit type v) = 0) /\
    (value (HighWaterMarkCounter3 uninit type strategy v) = 0 /\
     current_value (HighWaterMarkCounter3 uninit type strategy v) = 0).
Proof. intros uninit type strategy v. repeat split; reflexivity. Qed.

(** In a run without interference the first compare-and-exchange of [Update]
    succeeds: one iteration stores the new extreme. *)
Lemma Update_first_iteration is_high fuel v w :
  Update is_high (S fuel) v w =
    Some (mk (Counter.with_value
                (if is_high then Z.max (value w) v else Z.min (value w) v) (base w))
             (current_value_ w)).
Proof.
  destruct w as [[cv ty st mn mx] cur]. cbn.
  unfold Atomic.load, Atomic.compare_exchange_strong, value, Counter.value,
    Counter.with_value, Atomic.load. cbn.
  set (nv := if is_high then Z.max cv v else Z.min cv v).
  destruct (Z.eqb_spec nv cv) as [Heq|Hne].
  - do 3 f_equal. symmetry. exact Heq.
  - rewrite Z.eqb_refl. reflexivity.
Qed.

Lemma Update_current_value is_high fuel v w w' :
  Update is_high (S fuel) v w = Some w' -> current_value w' = current_value w.
Proof. rewrite Update_first_iteration. intros [= <-]. reflexivity. Qed.

(** What one call of [try_add] does when the sum is representable. *)
Lemma try_add_first_iteration is_high fuel delta max w :
  in_int64 (current_value w + delta) ->
  try_add is_high (S fuel) delta max w =
    if current_value w + delta >? max then Some (false, w)
    else Some (true,
               mk (Counter.with_value
                     (if is_high then Z.max (value w) (current_value w + delta)
                      else Z.min (value w) (current_value w + delta)) (base w))
                  (current_value w + delta)).
Proof.
  intros Hrange.
  cbn [try_add]. unfold current_value, Atomic.load in *.
  unfold checked_add64. destruct (decide _) as [_|Hn]; [|contradiction].
  destruct (current_value_ w + delta >? max); [reflexivity|].
  unfold Atomic.compare_exchange_strong. rewrite Z.eqb_refl.
  rewrite Update_first_iteration. reflexivity.
Qed.

(** C3 (counterexample): a high watermark counter raised to 10 by [add] and
    then asked [try_add(1, 5)] answers false and keeps its current value 10,
    which is greater than the bound 5. *)
Lemma try_add_leaves_current_above_max :
  let w0 := HighWaterMarkCounter2 0 TUnit.BYTES 0 in
  exists w1,
    add true 1 10 w0 = Some w1 /\
    try_add true 1 1 5 w1 = Some (false, w1) /\
    current_value w1 = 10 /\
    ~ (current_value w1 <= 5).
Proof.
  eexists. split; [reflexivity|]. split; [reflexivity|].
  split; [reflexivity|]. intros H. vm_compute in H. apply H. reflexivity.
Qed.

(** C3 (amended): with [c] the current value and [c + delta] representable in
    64 bits, [try_add(delta, max)] returns true, sets the current value to
    [c + delta] (which is then at most [max]) and folds it into the recorded
    extreme when [c + delta <= max]; it returns false and leaves the whole
    counter (current value and recorded extreme) unchanged when
    [c + delta > max].  Hence the current value after the call exceeds [max]
    only when the call returned false and [c] already exceeded [max]. *)
Theorem try_add_applies_or_leaves_unchanged :
  forall (is_high : bool) (fuel : nat) (delta max : Z) (w : t),
    in_int64 (current_value w + delta) ->
    (current_value w + delta <= max ->
       exists w', try_add is_high (S fuel) delta max w = Some (true, w') /\
                  current_value w' = current_value w + delta /\
                  current_value w' <= max /\
                  value w' = (if is_high then Z.max (value w) (current_value w + delta)
                              else Z.min (value w) (current_value w + delta))) /\
    (current_value w + delta > max ->
       try_add is_high (S fuel) delta max w = Some (false, w)) /\
    (forall b w', try_add is_high (S fuel) delta max w = Some (b, w') ->
       current_value w' > max -> b = false /\ w' = w /\ current_value w > max).
Proof.
  intros is_high fuel delta max w Hrange.
  rewrite try_add_first_iteration by exact Hrange.
  destruct (Z.gtb_spec (current_value w + delta) max) as [Hgt|Hle].
  - split; [intros; lia|]. split; [reflexivity|].
    intros b w' [= <- <-] Hcur. auto.
  - split.
    + intros _. eexists. split; [reflexivity|]. cbn. auto.
    + split; [intros; lia|]. intros b w' [= <- <-]. cbn. lia.
Qed.

Lemma try_add_applies_or_leaves_unchanged_witness :
  let w := HighWaterMarkCounter2 0 TUnit.BYTES 0 in
  in_int64 (current_value w + 7) /\
  exists w', try_add true 1 7 10 w = Some (true, w') /\ current_value w' = 7.
Proof.
  assert (Hr : in_int64 (current_value (HighWaterMarkCounter2 0 TUnit.BYTES 0) + 7)).
  { split; vm_compute; discriminate. }
  split; [exact Hr|].
  destruct (try_add_applies_or_leaves_unchanged true 0 7 10
              (HighWaterMarkCounter2 0 TUnit.BYTES 0) Hr) as [Happ _].
  assert (Hle : current_value (HighWaterMarkCounter2 0 TUnit.BYTES 0) + 7 <= 10).
  { vm_compute; discriminate. }
  destruct (Happ Hle) as [w' [H1 [H2 _]]].
  exists w'. split; [exact H1 | exact H2].
Defined.

End WaterMarkCounterFacts.

(** ** Concurrent updates of one counter *)

Section ConcurrentFacts.

Import Concurrent.

Lemma total_deltas_take_one (ths : list (list Z)) i delta rest :
  ths !! i = Some (delta :: rest) ->
  total_deltas (<[i := rest]> ths) = total_deltas ths - delta.
Proof.
  revert i. induction ths as [|th ths IH]; intros [|i] Hi; simplify_eq/=.
  - lia.
  - rewrite (IH _ Hi). lia.
Qed.

Lemma total_deltas_finished (ths : list (list Z)) :
  Forall (fun th => th = []) ths -> total_deltas ths = 0.
Proof.
  induction 1 as [|th ths Hth _ IH]; [reflexivity|]. subst th.
  change (total_deltas ([] :: ths)) with (0 + total_deltas ths).
  rewrite IH. reflexivity.
Qed.

Lemma step_pending_total s s' : step s s' -> pending_total s' = pending_total s.
Proof.
  intros [c ths i delta rest Hi]. unfold pending_total. cbn [counter threads].
  rewrite (total_deltas_take_one _ _ _ _ Hi), Counter_update_value.
  unfold add64. rewrite wrap64_add_l. f_equal. lia.
Qed.

Lemma steps_pending_total s s' : rtc step s s' -> pending_total s' = pending_total s.
Proof.
  induction 1 as [|s1 s2 s3 H12 _ IH]; [reflexivity|].
  rewrite IH. apply step_pending_total, H12.
Qed.

Lemma Counter_value_in_int64_update delta c :
  in_int64 (Counter.value (Counter.update delta c)).
Proof. rewrite Counter_update_value. apply wrap64_in_int64. Qed.

(** A scheduler run is an interleaving of the threads' calls. *)
Lemma run_schedule_steps sched s : rtc step s (run_schedule sched s).
Proof.
  revert s. induction sched as [|i sched IH]; intros s; cbn; [constructor|].
  destruct (threads s !! i) as [[|delta rest]|] eqn:Hi; try apply IH.
  eapply rtc_l; [|apply IH]. destruct s as [c ths]. constructor. exact Hi.
Qed.

(** C7: whatever the number of threads and however their [update(delta)]
    calls on one counter interleave, once every thread has issued all its
    calls the counter holds its initial value plus the sum of all deltas (as
    a 64-bit value; exactly that sum whenever it is representable): no
    increment is lost. *)
Theorem concurrent_updates_never_lost :
  forall (c : Counter.t) (ths : list (list Z)) (s' : sys),
    in_int64 (Counter.value c) ->
    rtc step (mkSys c ths) s' ->
    finished s' ->
    Counter.value (counter s') = wrap64 (Counter.value c + total_deltas ths) /\
    (in_int64 (Counter.value c + total_deltas ths) ->
       Counter.value (counter s') = Counter.value c + total_deltas ths).
Proof.
  intros c ths s' Hc Hsteps Hfin.
  assert (Hval : Counter.value (counter s') = wrap64 (Counter.value c + total_deltas ths)).
  { pose proof (steps_pending_total _ _ Hsteps) as Hinv.
    unfold pending_total in Hinv. cbn [counter threads] in Hinv.
    rewrite (total_deltas_finished _ Hfin), Z.add_0_r in Hinv.
    rewrite <- Hinv. symmetry. apply wrap64_id.
    clear Hinv Hfin. remember (mkSys c ths) as s eqn:Hs. revert c ths Hc Hs.
    induction Hsteps as [s|s1 s2 s3 H12 _ IH]; intros c ths Hc ->; [exact Hc|].
    inversion H12; subst. eapply IH; [|reflexivity].
    apply Counter_value_in_int64_update. }
  split; [exact Hval|]. intros Hr. rewrite Hval. apply wrap64_id, Hr.
Qed.

Lemma concurrent_updates_never_lost_witness :
  let c := Counter.Counter3 TUnit.UNIT (Counter.default_strategy TUnit.UNIT) 5 in
  let ths := [[1; 2]; [10]; [100; 200; 300]] in
  let s' := run_schedule [2; 0; 2; 1; 0; 2]%nat (mkSys c ths) in
  Counter.value (counter s') = 5 + 613.
Proof.
  intros c ths s'.
  assert (Hc : in_int64 (Counter.value c)) by (split; vm_compute; discriminate).
  assert (Hfin : finished s').
  { unfold finished. vm_compute. repeat constructor. }
  assert (Hr : in_int64 (Counter.value c + total_deltas ths))
    by (split; vm_compute; discriminate).
  exact (proj2 (concurrent_updates_never_lost c ths s' Hc
                  (run_schedule_steps _ _) Hfin) Hr).
Defined.

(** Every system can be run to completion, so the statement above is about
    executions that exist. *)
Lemma some_schedule_finishes (c : Counter.t) (ths : list (list Z)) :
  exists sched, finished (run_schedule sched (mkSys c ths)).
Proof.
  assert (Hgen : forall (ths' fin : list (list Z)) (c' : Counter.t),
             Forall (fun th => th = []) fin ->
             exists sched, finished (run_schedule sched (mkSys c' (fin ++ ths')))).
  { induction ths' as [|th ths' IH]; intros fin c' Hfin.
    - exists []. cbn. unfold finished. cbn. rewrite app_nil_r. exact Hfin.
    - revert c'. induction th as [|delta th IHth]; intros c'.
      + destruct (IH (fin ++ [[]]) c') as [sched Hs].
        { apply Forall_app. split; [exact Hfin|]. repeat constructor. }
        exists sched. rewrite <- app_assoc in Hs. exact Hs.
      + destruct (IHth (Counter.update delta c')) as [sched Hs].
        exists (length fin :: sched). cbn.
        rewrite list_lookup_middle by reflexivity.
        replace (<[length fin := th]> (fin ++ (delta :: th) :: ths'))
          with (fin ++ th :: ths'); [exact Hs|].
        rewrite insert_app_r_alt by lia. rewrite Nat.sub_diag. reflexivity. }
  apply (Hgen ths [] c). constructor.
Qed.

End ConcurrentFacts.

(** ** Scoped timers *)

Section ScopedTimerFacts.

Import ScopedTimer.

Context {T : Type} `{StopWatch T}.

(** The effect of a block with a scoped timer, for any stop watch. *)
Lemma scoped_timer_effect :
  forall (t0 : Z) (c : addr) (is_cancelled : option addr)
         (body : store -> exit_path * store * Z) (st : store),
    let '(path, st1, t1) := body st in
    let elapsed := sw_elapsed_time t1 (sw_stop t1 (sw_start t0 sw_new)) in
    let cancelled := match is_cancelled with
                     | None => false
                     | Some p => flags st1 p
                     end in
    let '(path', st2) := scoped t0 (Some c) is_cancelled body st in
    path' = path /\
    counters st2 c = (if cancelled then counters st1 c
                      else Counter.update elapsed (counters st1 c)) /\
    Counter.value (counters st2 c) =
      (if cancelled then Counter.value (counters st1 c)
       else add64 (Counter.value (counters st1 c)) elapsed) /\
    (forall c', c' <> c -> counters st2 c' = counters st1 c') /\
    flags st2 = flags st1.
Proof.
  intros t0 c is_cancelled body st. unfold scoped.
  destruct (body st) as [[path st1] t1]. cbn zeta.
  unfold destroy, UpdateCounter, ScopedTimer.is_cancelled, elapsed_time, stop, ScopedTimer.
  cbn [_counter _is_cancelled _sw].
  destruct is_cancelled as [p|]; [destruct (flags st1 p) eqn:Hp|]; cbn [negb counters flags].
  - repeat split; reflexivity.
  - repeat split; try reflexivity.
    + apply fn_lookup_insert.
    + rewrite fn_lookup_insert. reflexivity.
    + intros c' Hne. apply fn_lookup_insert_ne. congruence.
  - repeat split; try reflexivity.
    + apply fn_lookup_insert.
    + rewrite fn_lookup_insert. reflexivity.
    + intros c' Hne. apply fn_lookup_insert_ne. congruence.
Qed.

End ScopedTimerFacts.

Section ScopedTimerExamples.

Import ScopedTimer.

(** The monotonic stop watch of a timer started at [t0] and destroyed at [t1]
    reports [t1 - t0]. *)
Lemma MonotonicStopWatch_elapsed t0 t1 :
  sw_elapsed_time (T := MonotonicStopWatch.t) t1 (sw_stop t1 (sw_start t0 sw_new)) = t1 - t0.
Proof. cbn. unfold MonotonicStopWatch.elapsed_time. cbn. lia. Qed.

(** C4: a block whose scoped timer was constructed on the counter at address
    [c] leaves, on every exit path, the counter equal to what the body left
    there updated exactly once by the stop watch's elapsed time, unless the
    cancellation flag pointer is non-null and the flag reads true at exit, in
    which case the counter is what the body left there; no other counter and no
    flag is touched.  A counter at 0 whose timer runs for 50 time units stays
    at 0 when the flag is read true at exit, and holds 50 otherwise. *)
Theorem scoped_timer_updates_once_unless_cancelled :
  (forall (T : Type) (SW : StopWatch T) (t0 : Z) (c : addr) (is_cancelled : option addr)
          (body : store -> exit_path * store * Z) (st : store),
     let '(path, st1, t1) := body st in
     let elapsed := sw_elapsed_time t1 (sw_stop t1 (sw_start t0 sw_new)) in
     let cancelled := match is_cancelled with
                      | None => false
                      | Some p => flags st1 p
                      end in
     let '(path', st2) := scoped t0 (Some c) is_cancelled body st in
     path' = path /\
     counters st2 c = (if cancelled then counters st1 c
                       else Counter.update elapsed (counters st1 c)) /\
     Counter.value (counters st2 c) =
       (if cancelled then Counter.value (counters st1 c)
        else add64 (Counter.value (counters st1 c)) elapsed) /\
     (forall c', c' <> c -> counters st2 c' = counters st1 c') /\
     flags st2 = flags st1) /\
  (forall path : exit_path,
     Counter.value
       (counters (snd (scoped (T := MonotonicStopWatch.t) 1000 (Some 7%nat) (Some 0%nat)
                         (body_50 true 1000 path) zero_timer_store)) 7%nat) = 0) /\
  (forall path : exit_path,
     Counter.value
       (counters (snd (scoped (T := MonotonicStopWatch.t) 1000 (Some 7%nat) (Some 0%nat)
                         (body_50 false 1000 path) zero_timer_store)) 7%nat) = 50).
Proof.
  split; [|split].
  - intros T SW t0 c is_cancelled body st. apply scoped_timer_effect.
  - intros path. reflexivity.
  - intros path. reflexivity.
Qed.

End ScopedTimerExamples.

(** ** Profile nodes: registration and versions *)

Section RuntimeProfileFacts.

Import RuntimeProfile.

Lemma heap_rel_refl (R : t -> t -> Prop) h : (forall p, R p p) -> heap_rel R h h.
Proof. intros HR a p Hp. eauto. Qed.

Lemma heap_rel_trans (R : t -> t -> Prop) h1 h2 h3 :
  (forall p q r, R p q -> R q r -> R p r) ->
  heap_rel R h1 h2 -> heap_rel R h2 h3 -> heap_rel R h1 h3.
Proof.
  intros HR H12 H23 a p Hp.
  destruct (H12 a p Hp) as [q [Hq Hpq]]. destruct (H23 a q Hq) as [r [Hr Hqr]].
  eauto.
Qed.

Lemma heap_rel_is_Some R h h' a :
  heap_rel R h h' -> is_Some (profiles h !! a) -> is_Some (profiles h' !! a).
Proof. intros Hrel [p Hp]. destruct (Hrel a p Hp) as [p' [Hp' _]]. eauto. Qed.

(** Replacing the node at [this] by a related one. *)
Lemma heap_rel_set_profile (R : t -> t -> Prop) this p p' h :
  (forall q, R q q) -> profiles h !! this = Some p -> R p p' ->
  heap_rel R h (set_profile this p' h).
Proof.
  intros HR Hp Hpp a q Hq. cbn. destruct (decide (a = this)) as [->|Hne].
  - rewrite lookup_insert_eq. simplify_eq. eauto.
  - rewrite lookup_insert_ne by congruence. eauto.
Qed.

Lemma heap_rel_set_counter (R : t -> t -> Prop) c x h :
  (forall q, R q q) -> heap_rel R h (set_counter c x h).
Proof. intros HR a q Hq. cbn. eauto. Qed.

(** Allocating a node at a fresh address. *)
Lemma heap_rel_alloc (R : t -> t -> Prop) c h :
  (forall q, R q q) -> heap_rel R h (set_profile (fresh (dom (profiles h))) c h).
Proof.
  intros HR a q Hq. cbn. rewrite lookup_insert_ne; [eauto|].
  intros <-. apply (is_fresh (dom (profiles h))). apply elem_of_dom. eauto.
Qed.

Lemma fresh_profile_ne h this p :
  profiles h !! this = Some p -> fresh (dom (profiles h)) <> this.
Proof.
  intros Hp Heq. apply (is_fresh (dom (profiles h))). rewrite Heq.
  apply elem_of_dom. eauto.
Qed.

(** [create_child] on a live node always returns; what it does to the heap. *)
Lemma create_child_cases name indent prepend this h p :
  profiles h !! this = Some p ->
  (exists child, _child_map p !! name = Some child /\
                 create_child name indent prepend this h = Some (child, h)) \/
  (_child_map p !! name = None /\
   let child := fresh (dom (profiles h)) in
   create_child name indent prepend this h =
     Some (child,
           set_profile this
             (with_children (<[name := child]> (_child_map p))
                (if prepend then (child, indent) :: _children p
                 else _children p ++ [(child, indent)]) p)
             (set_profile child (with_parent (Some this) (RuntimeProfile name false)) h))).
Proof.
  intros Hp. unfold create_child. rewrite Hp. cbn.
  destruct (_child_map p !! name) as [child|]; [left|right]; eauto.
Qed.

(** [add_child_counter] on a live node always returns; what it does. *)
Lemma add_child_counter_cases name type strategy parent_name this h p :
  profiles h !! this = Some p ->
  (exists c pn, _counter_map p !! name = Some (c, pn) /\
                add_child_counter name type strategy parent_name this h = Some (c, h)) \/
  (_counter_map p !! name = None /\
   let c := fresh (dom (counters h)) in
   add_child_counter name type strategy parent_name this h =
     Some (c,
           set_profile this
             (with_counters (<[name := (c, parent_name)]> (_counter_map p))
                (<[parent_name := default ∅ (_child_counter_map p !! parent_name) ∪ {[name]}]>
                   (_child_counter_map p)) p)
             (set_counter c (Counter.Counter3 type strategy 0) h))).
Proof.
  intros Hp. unfold add_child_counter. rewrite Hp. cbn.
  destruct (_counter_map p !! name) as [[c pn]|]; [left|right]; eauto.
Qed.

Lemma create_child_repeat name indent prepend indent' prepend' this h child h1 :
  create_child name indent prepend this h = Some (child, h1) ->
  create_child name indent' prepend' this h1 = Some (child, h1).
Proof.
  unfold create_child at 1. destruct (profiles h !! this) as [p|] eqn:Hp; [|discriminate].
  cbn. destruct (_child_map p !! name) as [c|] eqn:Hc.
  - intros [= <- <-]. unfold create_child. rewrite Hp. cbn. rewrite Hc. reflexivity.
  - intros [= <- <-]. unfold create_child. cbn.
    rewrite lookup_insert_eq. cbn. rewrite lookup_insert_eq. reflexivity.
Qed.

Lemma add_child_counter_repeat name type strategy parent_name type' strategy' parent_name'
    this h c h1 :
  add_child_counter name type strategy parent_name this h = Some (c, h1) ->
  add_child_counter name type' strategy' parent_name' this h1 = Some (c, h1).
Proof.
  unfold add_child_counter at 1. destruct (profiles h !! this) as [p|] eqn:Hp; [|discriminate].
  cbn. destruct (_counter_map p !! name) as [[c0 pn]|] eqn:Hc.
  - intros [= <- <-]. unfold add_child_counter. rewrite Hp. cbn. rewrite Hc. reflexivity.
  - intros [= <- <-]. unfold add_child_counter. cbn.
    rewrite lookup_insert_eq. cbn. rewrite lookup_insert_eq. reflexivity.
Qed.

(** C5: on a live node, [create_child(name, indent, prepend)] returns a child,
    and calling it again with that name returns exactly the same object and
    leaves the whole heap (hence the node's child list, child map, counter map
    and child-counter map) as it was, whatever [indent] and [prepend] the
    repeat call passes; likewise [add_counter(name, unit, strategy)] (and
    [add_child_counter]) whatever unit, strategy and parent name the repeat
    call passes. *)
Theorem create_child_add_counter_idempotent :
  forall (h : heap) (this : addr) (name : string),
    is_Some (profiles h !! this) ->
    (forall indent prepend,
       exists child h1,
         create_child name indent prepend this h = Some (child, h1) /\
         forall indent' prepend',
           create_child name indent' prepend' this h1 = Some (child, h1)) /\
    (forall type strategy,
       exists c h1,
         add_counter name type strategy this h = Some (c, h1) /\
         forall type' strategy',
           add_counter name type' strategy' this h1 = Some (c, h1)) /\
    (forall type strategy parent_name,
       exists c h1,
         add_child_counter name type strategy parent_name this h = Some (c, h1) /\
         forall type' strategy' parent_name',
           add_child_counter name type' strategy' parent_name' this h1 = Some (c, h1)).
Proof.
  intros h this name [p Hp]. split; [|split].
  - intros indent prepend.
    destruct (create_child name indent prepend this h) as [[child h1]|] eqn:Hc.
    + exists child, h1. split; [reflexivity|]. intros indent' prepend'.
      eapply create_child_repeat, Hc.
    + destruct (create_child_cases name indent prepend this h p Hp)
        as [(c & _ & Heq)|[_ Heq]]; cbn in Heq; congruence.
  - intros type strategy. unfold add_counter.
    destruct (add_child_counter name type strategy ROOT_COUNTER this h) as [[c h1]|] eqn:Hc.
    + exists c, h1. split; [reflexivity|]. intros type' strategy'.
      eapply add_child_counter_repeat, Hc.
    + destruct (add_child_counter_cases name type strategy ROOT_COUNTER this h p Hp)
        as [(c & pn & _ & Heq)|[_ Heq]]; cbn in Heq; congruence.
  - intros type strategy parent_name.
    destruct (add_child_counter name type strategy parent_name this h) as [[c h1]|] eqn:Hc.
    + exists c, h1. split; [reflexivity|]. intros type' strategy' parent_name'.
      eapply add_child_counter_repeat, Hc.
    + destruct (add_child_counter_cases name type strategy parent_name this h p Hp)
        as [(c & pn & _ & Heq)|[_ Heq]]; cbn in Heq; congruence.
Qed.


Lemma create_child_add_counter_idempotent_witness :
  is_Some (profiles root_only_heap !! 0%nat) /\
  exists child h1,
    create_child "scan" true false 0%nat root_only_heap = Some (child, h1) /\
    create_child "scan" false true 0%nat h1 = Some (child, h1).
Proof.
  assert (Hlive : is_Some (profiles root_only_heap !! 0%nat)).
  { exists (RuntimeProfile "root" false). reflexivity. }
  split; [exact Hlive|].
  destruct (create_child_add_counter_idempotent root_only_heap 0%nat "scan" Hlive)
    as [Hchild _].
  destruct (Hchild true false) as [child [h1 [Hfirst Hrepeat]]].
  exists child, h1. split; [exact Hfirst|]. apply Hrepeat.
Defined.

(** *** How the operations change the nodes of the heap *)

Section Frames.

Variable R : t -> t -> Prop.
Hypothesis R_refl : forall p, R p p.
Hypothesis R_trans : forall p q r, R p q -> R q r -> R p r.

Lemma create_child_rel name indent prepend this h child h1 :
  (forall p m l, R p (with_children m l p)) ->
  create_child name indent prepend this h = Some (child, h1) ->
  heap_rel R h h1.
Proof.
  intros Hch Hc. unfold create_child in Hc.
  destruct (profiles h !! this) as [p|] eqn:Hp; [|discriminate]. cbn in Hc.
  destruct (_child_map p !! name) as [c|].
  - injection Hc as <- <-. apply heap_rel_refl, R_refl.
  - injection Hc as <- <-.
    eapply heap_rel_trans; [exact R_trans|apply heap_rel_alloc, R_refl|].
    eapply heap_rel_set_profile; [exact R_refl| |apply Hch].
    cbn. rewrite lookup_insert_ne; [exact Hp|]. eapply fresh_profile_ne, Hp.
Qed.

Lemma add_child_counter_rel name type strategy parent_name this h c h1 :
  (forall p m l, R p (with_counters m l p)) ->
  add_child_counter name type strategy parent_name this h = Some (c, h1) ->
  heap_rel R h h1.
Proof.
  intros Hco Hc. unfold add_child_counter in Hc.
  destruct (profiles h !! this) as [p|] eqn:Hp; [|discriminate]. cbn in Hc.
  destruct (_counter_map p !! name) as [[c0 pn]|].
  - injection Hc as <- <-. apply heap_rel_refl, R_refl.
  - injection Hc as <- <-.
    eapply heap_rel_trans; [exact R_trans|apply heap_rel_set_counter, R_refl|].
    eapply heap_rel_set_profile; [exact R_refl|exact Hp|apply Hco].
Qed.

Lemma add_info_string_rel key value this h h1 :
  (forall p m l, R p (with_info_strings m l p)) ->
  add_info_string key value this h = Some h1 ->
  heap_rel R h h1.
Proof.
  intros Hin Hc. unfold add_info_string in Hc.
  destruct (profiles h !! this) as [p|] eqn:Hp; [|discriminate]. cbn in Hc.
  injection Hc as <-. eapply heap_rel_set_profile; [exact R_refl|exact Hp|apply Hin].
Qed.

Lemma update_counters_rel tcs this h h1 :
  (forall p m l, R p (with_counters m l p)) ->
  update_counters tcs this h = Some h1 ->
  heap_rel R h h1.
Proof.
  intros Hco. revert h. induction tcs as [|tc tcs IH]; intros h Hu; cbn in Hu.
  - injection Hu as <-. apply heap_rel_refl, R_refl.
  - destruct (update_counter tc this h) as [h'|] eqn:Hone; [|discriminate]. cbn in Hu.
    eapply heap_rel_trans; [exact R_trans| |apply IH, Hu].
    unfold update_counter in Hone.
    destruct (add_child_counter _ _ _ _ this h) as [[c h2]|] eqn:Hadd; [|discriminate].
    cbn in Hone. destruct (counters h2 !! c) as [cnt|]; [|discriminate].
    injection Hone as <-.
    eapply heap_rel_trans; [exact R_trans|eapply add_child_counter_rel; eauto|].
    apply heap_rel_set_counter, R_refl.
Qed.

Lemma update_info_strings_rel kvs this h h1 :
  (forall p m l, R p (with_info_strings m l p)) ->
  update_info_strings kvs this h = Some h1 ->
  heap_rel R h h1.
Proof.
  intros Hin. revert h. induction kvs as [|[k v] kvs IH]; intros h Hu; cbn in Hu.
  - injection Hu as <-. apply heap_rel_refl, R_refl.
  - destruct (add_info_string k v this h) as [h'|] eqn:Hone; [|discriminate]. cbn in Hu.
    eapply heap_rel_trans; [exact R_trans|eapply add_info_string_rel; eauto|apply IH, Hu].
Qed.

Lemma update_children_rel rec count nodes idx this h idx' h' :
  (forall p m l, R p (with_children m l p)) ->
  (forall i child hh i' hh', rec i child hh = Some (i', hh') -> heap_rel R hh hh') ->
  update_children rec count nodes idx this h = Some (idx', h') ->
  heap_rel R h h'.
Proof.
  intros Hch Hrec. revert idx h.
  induction count as [|count IH]; intros idx h Hu; cbn in Hu.
  - injection Hu as <- <-. apply heap_rel_refl, R_refl.
  - destruct (nodes !! idx) as [tchild|]; [|discriminate]. cbn in Hu.
    destruct (create_child _ _ false this h) as [[child h1]|] eqn:Hcc; [|discriminate].
    cbn in Hu. destruct (rec idx child h1) as [[i2 h2]|] eqn:Hr; [|discriminate].
    cbn in Hu.
    eapply heap_rel_trans; [exact R_trans|eapply create_child_rel; eauto|].
    eapply heap_rel_trans; [exact R_trans|eapply Hrec; eauto|].
    eapply IH, Hu.
Qed.

End Frames.


(** *** Versions *)

Lemma version_le_refl p : version_le p p.
Proof. unfold version_le. lia. Qed.

Lemma version_le_trans p q r : version_le p q -> version_le q r -> version_le p r.
Proof. unfold version_le. lia. Qed.

Lemma version_eq_refl p : version_eq p p.
Proof. reflexivity. Qed.

Lemma version_eq_trans p q r : version_eq p q -> version_eq q r -> version_eq p r.
Proof. unfold version_eq. congruence. Qed.

Lemma heap_rel_version_eq_le h h' : heap_rel version_eq h h' -> heap_rel version_le h h'.
Proof.
  intros Hrel a p Hp. destruct (Hrel a p Hp) as [p' [Hp' Heq]].
  exists p'. split; [exact Hp'|]. unfold version_le, version_eq in *. lia.
Qed.

Ltac version_le_setter := unfold version_le, version_eq; cbn; lia.

(** The value updates of a snapshot entry move the version of [this] to the
    entry's version and leave every other version alone. *)
Lemma update_values_version node this h h1 p :
  profiles h !! this = Some p ->
  _version p <= TRuntimeProfileNode.version node ->
  update_values node this h = Some h1 ->
  heap_rel version_le h h1.
Proof.
  intros Hp Hnew Hu. unfold update_values in Hu.
  destruct (update_counters _ this h) as [h2|] eqn:Hc; [|discriminate]. cbn in Hu.
  destruct (update_info_strings _ this h2) as [h3|] eqn:Hi; [|discriminate]. cbn in Hu.
  destruct (profiles h3 !! this) as [p3|] eqn:Hp3; [|discriminate]. cbn in Hu.
  injection Hu as <-.
  assert (H13 : heap_rel version_eq h h3).
  { eapply heap_rel_trans; [exact version_eq_trans| |].
    - eapply (update_counters_rel version_eq); eauto using version_eq_refl, version_eq_trans.
      reflexivity.
    - eapply (update_info_strings_rel version_eq);
        eauto using version_eq_refl, version_eq_trans.
      reflexivity. }
  intros a q Hq. cbn. destruct (H13 a q Hq) as [q3 [Hq3 Heq]].
  destruct (decide (a = this)) as [->|Hne].
  - rewrite lookup_insert_eq. eexists. split; [reflexivity|].
    unfold version_le. cbn. simplify_eq. lia.
  - rewrite lookup_insert_ne by congruence. exists q3. split; [exact Hq3|].
    unfold version_le, version_eq in *. lia.
Qed.

Lemma update_rec_version fuel nodes :
  forall idx is_parent_node_old this h idx' h',
    update_rec fuel nodes idx is_parent_node_old this h = Some (idx', h') ->
    heap_rel version_le h h'.
Proof.
  induction fuel as [|fuel IH]; intros idx old this h idx' h' Hu; [discriminate|].
  cbn in Hu.
  destruct (nodes !! idx) as [node|]; [|discriminate]. cbn in Hu.
  destruct (profiles h !! this) as [p|] eqn:Hp; [|discriminate]. cbn in Hu.
  destruct (old || (TRuntimeProfileNode.version node <=? _version p)) eqn:Hold.
  - cbn in Hu.
    eapply (update_children_rel version_le version_le_refl version_le_trans);
      [| |exact Hu].
    + intros q m l. version_le_setter.
    + intros i child hh i' hh' Hr. eapply IH, Hr.
  - destruct (update_values node this h) as [h1|] eqn:Hv; [|discriminate]. cbn in Hu.
    apply orb_false_iff in Hold as [_ Hnew%Z.leb_gt].
    eapply heap_rel_trans; [exact version_le_trans| |].
    + eapply update_values_version; [exact Hp| |exact Hv]. lia.
    + eapply (update_children_rel version_le version_le_refl version_le_trans);
        [| |exact Hu].
      * intros q m l. version_le_setter.
      * intros i child hh i' hh' Hr. eapply IH, Hr.
Qed.

Lemma run_operation_version o this h h1 :
  run_operation o this h = Some h1 -> heap_rel version_le h h1.
Proof.
  destruct o; cbn; intros Hr.
  - unfold inc_version in Hr.
    destruct (profiles h !! this) as [p|] eqn:Hp; [|discriminate]. cbn in Hr.
    unfold checked_add64 in Hr. destruct (decide _); [|discriminate]. cbn in Hr.
    injection Hr as <-.
    eapply heap_rel_set_profile; [exact version_le_refl|exact Hp|].
    unfold version_le. cbn. lia.
  - destruct (get_version this h); [|discriminate]. injection Hr as <-.
    apply heap_rel_refl, version_le_refl.
  - unfold reset_parent in Hr.
    destruct (profiles h !! this) as [p|] eqn:Hp; [|discriminate]. injection Hr as <-.
    eapply heap_rel_set_profile; [exact version_le_refl|exact Hp|version_le_setter].
  - unfold set_name in Hr.
    destruct (profiles h !! this) as [p|] eqn:Hp; [|discriminate]. injection Hr as <-.
    eapply heap_rel_set_profile; [exact version_le_refl|exact Hp|version_le_setter].
  - unfold set_metadata in Hr.
    destruct (profiles h !! this) as [p|] eqn:Hp; [|discriminate]. injection Hr as <-.
    eapply heap_rel_set_profile; [exact version_le_refl|exact Hp|version_le_setter].
  - destruct (create_child _ _ _ this h) as [[c h2]|] eqn:Hc; [|discriminate].
    injection Hr as <-.
    eapply (create_child_rel version_le); [exact version_le_refl|exact version_le_trans| |exact Hc].
    intros q m l. version_le_setter.
  - destruct (add_child_counter _ _ _ _ this h) as [[c h2]|] eqn:Hc; [|discriminate].
    injection Hr as <-.
    eapply (add_child_counter_rel version_le);
      [exact version_le_refl|exact version_le_trans| |exact Hc].
    intros q m l. version_le_setter.
  - eapply (add_info_string_rel version_le); [exact version_le_refl| |exact Hr].
    intros q m l. version_le_setter.
  - unfold update in Hr.
    destruct (update_rec _ _ 0 false this h) as [[i h2]|] eqn:Hu; [|discriminate].
    injection Hr as <-. eapply update_rec_version, Hu.
Qed.

Lemma run_operations_version ops h h1 :
  run_operations ops h = Some h1 -> heap_rel version_le h h1.
Proof.
  revert h. induction ops as [|[this o] ops IH]; intros h Hr; cbn in Hr.
  - injection Hr as <-. apply heap_rel_refl, version_le_refl.
  - destruct (run_operation o this h) as [h2|] eqn:Ho; [|discriminate]. cbn in Hr.
    eapply heap_rel_trans; [exact version_le_trans|eapply run_operation_version, Ho|].
    apply IH, Hr.
Qed.

(** C8: the version of a node only increases.  After any sequence of
    operations on the nodes of the heap, [get_version] on a node returns a
    value at least as large as before; and [inc_version] on a node whose
    version is below the largest [int64_t] returns and increases the stored
    version by exactly 1. *)
Theorem version_only_increases :
  forall (this : addr) (h : heap) (v : Z),
    get_version this h = Some v ->
    (forall ops h', run_operations ops h = Some h' ->
       exists v', get_version this h' = Some v' /\ v <= v') /\
    (in_int64 v -> v < MAX_INT64 ->
       exists h', inc_version this h = Some h' /\ get_version this h' = Some (v + 1)).
Proof.
  intros this h v Hv. unfold get_version in Hv.
  destruct (profiles h !! this) as [p|] eqn:Hp; [|discriminate]. injection Hv as <-.
  split.
  - intros ops h' Hrun.
    destruct (run_operations_version ops h h' Hrun this p Hp) as [p' [Hp' Hle]].
    exists (_version p'). unfold get_version. rewrite Hp'. split; [reflexivity|exact Hle].
  - intros Hrange Hmax. unfold inc_version, get_version. rewrite Hp. cbn.
    unfold checked_add64. destruct (decide (in_int64 (_version p + 1))) as [_|Hn].
    + eexists. split; [reflexivity|]. cbn. rewrite lookup_insert_eq. reflexivity.
    + exfalso. apply Hn. unfold in_int64, MIN_INT64, MAX_INT64 in *. lia.
Qed.

Lemma version_only_increases_witness :
  get_version 0%nat root_only_heap = Some 0 /\
  (exists v', get_version 0%nat root_only_heap = Some v' /\ 0 <= v') /\
  exists h', inc_version 0%nat root_only_heap = Some h' /\
             get_version 0%nat h' = Some (0 + 1).
Proof.
  assert (Hv : get_version 0%nat root_only_heap = Some 0) by reflexivity.
  split; [exact Hv|].
  destruct (version_only_increases 0%nat root_only_heap 0 Hv) as [Hmono Hinc].
  split.
  - apply (Hmono [] root_only_heap). reflexivity.
  - apply Hinc; [split|]; vm_compute; reflexivity || discriminate.
Defined.


(** *** Stale snapshot entries *)

(** Induction on snapshots, with the property available for every child. *)
Lemma snapshot_forall_ind (P : snapshot -> Prop) :
  (forall node children, Forall P children -> P (Snapshot node children)) ->
  forall s, P s.
Proof.
  intros Hstep. fix IH 1. intros [node children]. apply Hstep.
  induction children as [|k ks IHks]; constructor; [apply IH|exact IHks].
Qed.

Lemma length_flatten s : length (flatten s) = span s.
Proof.
  induction s as [node children IH] using snapshot_forall_ind. cbn. f_equal.
  induction IH as [|k ks Hk _ IHks]; [reflexivity|].
  cbn. rewrite length_app, Hk, IHks. reflexivity.
Qed.

Lemma span_pos s : (0 < span s)%nat.
Proof. destruct s. cbn. lia. Qed.

Lemma flatten_head s :
  exists node rest, flatten s = node :: rest /\
    TRuntimeProfileNode.version node = root_version s.
Proof. destruct s as [node children]. cbn. eauto. Qed.

Lemma same_values_refl p : same_values p p.
Proof. exists (_child_map p), (_children p). destruct p. reflexivity. Qed.

Lemma same_values_trans p q r : same_values p q -> same_values q r -> same_values p r.
Proof. intros (m & l & ->) (m' & l' & ->). exists m', l'. reflexivity. Qed.

Lemma same_values_children p m l : same_values p (with_children m l p).
Proof. exists m, l. reflexivity. Qed.

Lemma create_child_counters name indent prepend this h child h1 :
  create_child name indent prepend this h = Some (child, h1) -> counters h1 = counters h.
Proof.
  unfold create_child. destruct (profiles h !! this) as [p|]; [|discriminate]. cbn.
  destruct (_child_map p !! name); intros [= <- <-]; reflexivity.
Qed.

Lemma create_child_wf name indent prepend this h child h1 :
  heap_wf h ->
  create_child name indent prepend this h = Some (child, h1) ->
  heap_wf h1 /\ is_Some (profiles h1 !! child).
Proof.
  intros Hwf Hc. unfold create_child in Hc.
  destruct (profiles h !! this) as [p|] eqn:Hp; [|discriminate]. cbn in Hc.
  destruct (_child_map p !! name) as [c|] eqn:Hname.
  - injection Hc as <- <-. split; [exact Hwf|]. eapply Hwf; eauto.
  - injection Hc as <- <-.
    pose proof (fresh_profile_ne h this p Hp) as Hne.
    set (child := fresh (dom (profiles h))) in *.
    assert (Hkeep : forall x, is_Some (profiles h !! x) ->
              is_Some (<[this := with_children (<[name := child]> (_child_map p))
                                   (if prepend then (child, indent) :: _children p
                                    else _children p ++ [(child, indent)]) p]>
                         (<[child := with_parent (Some this) (RuntimeProfile name false)]>
                            (profiles h)) !! x)).
    { intros x [q Hq]. destruct (decide (x = this)) as [->|Hx].
      - rewrite lookup_insert_eq. eauto.
      - rewrite lookup_insert_ne by congruence.
        destruct (decide (x = child)) as [->|Hx'].
        + rewrite lookup_insert_eq. eauto.
        + rewrite lookup_insert_ne by congruence. eauto. }
    assert (Hchild : is_Some (<[this := with_children (<[name := child]> (_child_map p))
                                   (if prepend then (child, indent) :: _children p
                                    else _children p ++ [(child, indent)]) p]>
                         (<[child := with_parent (Some this) (RuntimeProfile name false)]>
                            (profiles h)) !! child)).
    { rewrite lookup_insert_ne by congruence. rewrite lookup_insert_eq. eauto. }
    split; [|exact Hchild].
    intros a q nm c0 Hq Hc0. cbn in Hq |- *.
    destruct (decide (a = this)) as [->|Ha].
    + rewrite lookup_insert_eq in Hq. injection Hq as <-. cbn in Hc0.
      destruct (decide (nm = name)) as [->|Hnm].
      * rewrite lookup_insert_eq in Hc0. injection Hc0 as <-. exact Hchild.
      * rewrite lookup_insert_ne in Hc0 by congruence. apply Hkeep. eapply Hwf; eauto.
    + rewrite lookup_insert_ne in Hq by congruence.
      destruct (decide (a = child)) as [->|Ha'].
      * rewrite lookup_insert_eq in Hq. injection Hq as <-. cbn in Hc0.
        rewrite lookup_empty in Hc0. discriminate.
      * rewrite lookup_insert_ne in Hq by congruence. apply Hkeep. eapply Hwf; eauto.
Qed.

Lemma update_children_stale fuel :
  stale_traversal fuel ->
  forall kids, (list_sum (List.map span kids) <= fuel)%nat ->
  forall nodes pre post this h,
    nodes = pre ++ concat (List.map flatten kids) ++ post ->
    heap_wf h -> is_Some (profiles h !! this) ->
    stale_result
      (update_children (fun i child hh => update_rec fuel nodes i true child hh)
         (length kids) nodes (length pre) this h)
      (length pre + list_sum (List.map span kids))%nat h.
Proof.
  intros IH kids. induction kids as [|k ks IHks]; intros Hfuel nodes pre post this h Hn Hwf Hthis.
  - cbn. rewrite Nat.add_0_r. exists h. repeat split; auto.
    apply heap_rel_refl, same_values_refl.
  - change (list_sum (List.map span (k :: ks)))
      with (span k + list_sum (List.map span ks))%nat in *.
    cbn [length update_children List.map concat] in *.
    destruct (flatten_head k) as (tchild & rest & Hflat & _).
    assert (Hidx : nodes !! length pre = Some tchild).
    { rewrite Hn, Hflat. rewrite lookup_app_r by lia. rewrite Nat.sub_diag. reflexivity. }
    rewrite Hidx. cbn.
    destruct Hthis as [p Hp].
    destruct (create_child (TRuntimeProfileNode.name tchild)
                (TRuntimeProfileNode.indent tchild) false this h) as [[child h1]|] eqn:Hcc.
    2:{ destruct (create_child_cases (TRuntimeProfileNode.name tchild)
                    (TRuntimeProfileNode.indent tchild) false this h p Hp)
          as [(c & _ & Heq)|[_ Heq]]; cbn in Heq; congruence. }
    cbn.
    destruct (create_child_wf _ _ _ _ _ _ _ Hwf Hcc) as [Hwf1 [pc Hpc]].
    pose proof (create_child_counters _ _ _ _ _ _ _ Hcc) as Hcnt1.
    pose proof (create_child_rel same_values same_values_refl same_values_trans
                  _ _ _ _ _ _ _ same_values_children Hcc) as Hrel1.
    destruct (IH k ltac:(lia) nodes pre (concat (List.map flatten ks) ++ post)
                true child h1 pc) as (h2 & Hrec & Hwf2 & Hcnt2 & Hrel2);
      [rewrite Hn, <- app_assoc; reflexivity|exact Hwf1|exact Hpc|reflexivity|].
    rewrite Hrec. cbn.
    assert (Hrel12 : heap_rel same_values h h2).
    { eapply heap_rel_trans; eauto using same_values_trans. }
    destruct (IHks ltac:(lia) nodes (pre ++ flatten k) post this h2)
      as (h3 & Hloop & Hwf3 & Hcnt3 & Hrel3);
      [rewrite Hn, <- !app_assoc; reflexivity|exact Hwf2| |].
    { eapply heap_rel_is_Some; [exact Hrel12|eauto]. }
    rewrite length_app, length_flatten in Hloop. rewrite Hloop.
    exists h3. split; [f_equal; f_equal; lia|]. split; [exact Hwf3|].
    split; [congruence|].
    eapply heap_rel_trans; eauto using same_values_trans.
Qed.

Lemma update_rec_stale fuel : stale_traversal fuel.
Proof.
  induction fuel as [|fuel IH]; intros s Hfuel nodes pre post old this h p Hn Hwf Hp Hold.
  - pose proof (span_pos s). lia.
  - destruct s as [node kids]. cbn [flatten span root_version] in *.
    cbn [update_rec].
    assert (Hidx : nodes !! length pre =
                   Some (with_num_children (Z.of_nat (length kids)) node)).
    { rewrite Hn. rewrite lookup_app_r by lia. rewrite Nat.sub_diag. reflexivity. }
    rewrite Hidx. cbn. rewrite Hp. cbn. rewrite Hold. cbn.
    rewrite Nat2Z.id.
    destruct (update_children_stale fuel IH kids ltac:(lia) nodes
                (pre ++ [with_num_children (Z.of_nat (length kids)) node]) post this h)
      as (h' & Hloop & Hrest); [rewrite Hn, <- app_assoc; reflexivity|exact Hwf|eauto|].
    rewrite length_app in Hloop. cbn [length] in Hloop.
    rewrite Nat.add_1_r in Hloop. rewrite Hloop.
    exists h'. split; [f_equal; f_equal; lia|exact Hrest].
Qed.

(** C1: take any live node [this] of a well-formed heap and any flattened
    listing that holds, from the cursor on, the depth-first listing of a
    snapshot subtree [s].  If the entry is stale (its parent was, or its
    version is not strictly newer than the version stored in [this]), then
    [update] returns with the cursor on the entry that immediately follows the
    whole span of [s], which is where the next sibling is read; no counter of
    the pool has changed, and every node that existed keeps its counter map,
    child-counter map, total-time counter, display strings and version. *)
Theorem stale_update_keeps_values_and_advances_cursor :
  forall (s : snapshot) (pre post : list TRuntimeProfileNode.t)
         (is_parent_node_old : bool) (this : addr) (h : heap) (p : t) (fuel : nat),
    heap_wf h ->
    profiles h !! this = Some p ->
    is_parent_node_old = true \/ root_version s <= _version p ->
    (span s <= fuel)%nat ->
    exists h',
      update_rec fuel (pre ++ flatten s ++ post) (length pre) is_parent_node_old this h
        = Some ((length pre + span s)%nat, h') /\
      (pre ++ flatten s ++ post) !! (length pre + span s)%nat = post !! 0%nat /\
      counters h' = counters h /\
      forall a q, profiles h !! a = Some q ->
        exists q', profiles h' !! a = Some q' /\
                   _counter_map q' = _counter_map q /\
                   _child_counter_map q' = _child_counter_map q /\
                   _counter_total_time q' = _counter_total_time q /\
                   _info_strings q' = _info_strings q /\
                   _version q' = _version q.
Proof.
  intros s pre post old this h p fuel Hwf Hp Hstale Hfuel.
  destruct (update_rec_stale fuel s Hfuel (pre ++ flatten s ++ post) pre post old this h p
              eq_refl Hwf Hp) as (h' & Hu & _ & Hcnt & Hrel).
  { destruct Hstale as [->|Hle]; [reflexivity|].
    apply orb_true_iff. right. apply Z.leb_le, Hle. }
  exists h'. split; [exact Hu|]. split.
  { rewrite lookup_app_r by lia. rewrite lookup_app_r by (rewrite length_flatten; lia).
    rewrite length_flatten. f_equal. lia. }
  split; [exact Hcnt|].
  intros a q Hq. destruct (Hrel a q Hq) as (q' & Hq' & m & l & ->).
  exists (with_children m l q). split; [exact Hq'|]. repeat split; reflexivity.
Qed.


Lemma root_only_heap_wf : heap_wf root_only_heap.
Proof.
  intros a p name c Hp Hc. unfold root_only_heap in Hp. cbn in Hp.
  apply lookup_singleton_Some in Hp as [_ <-]. cbn in Hc.
  rewrite lookup_empty in Hc. discriminate.
Defined.

Lemma stale_update_keeps_values_and_advances_cursor_witness :
  heap_wf root_only_heap /\
  profiles root_only_heap !! 0%nat = Some (RuntimeProfile "root" false) /\
  root_version stale_snapshot <= _version (RuntimeProfile "root" false) /\
  (span stale_snapshot <= 4)%nat /\
  exists h',
    update_rec 4 ([] ++ flatten stale_snapshot ++ [next_sibling]) 0 false 0%nat root_only_heap
      = Some (3%nat, h') /\
    counters h' = counters root_only_heap.
Proof.
  assert (Hp : profiles root_only_heap !! 0%nat = Some (RuntimeProfile "root" false))
    by reflexivity.
  assert (Hv : root_version stale_snapshot <= _version (RuntimeProfile "root" false))
    by (vm_compute; discriminate).
  assert (Hs : (span stale_snapshot <= 4)%nat) by (vm_compute; lia).
  split; [exact root_only_heap_wf|]. split; [exact Hp|]. split; [exact Hv|].
  split; [exact Hs|].
  destruct (stale_update_keeps_values_and_advances_cursor stale_snapshot [] [next_sibling]
              false 0%nat root_only_heap _ 4%nat root_only_heap_wf Hp (or_intror Hv) Hs)
    as (h' & Hu & _ & Hc & _).
  exists h'. split; [exact Hu|exact Hc].
Defined.

End RuntimeProfileFacts.

(** ** Profile trees *)

Section ProfileTreeFacts.

Import ProfileTree.

(** Induction on profile trees, with the property available for every child. *)
Lemma tree_forall_ind (P : t -> Prop) :
  (forall n cm total_time f kids, Forall P kids -> P (Tree n cm total_time f kids)) ->
  forall p, P p.
Proof.
  intros Hstep. fix IH 1. intros [n cm total_time f kids]. apply Hstep.
  induction kids as [|k ks IHks]; constructor; [apply IH|exact IHks].
Qed.

(** *** Time attribution *)

Lemma children_compute_time total p :
  children (compute_time_in_profile_rec total p)
  = compute_time_in_profile_rec total <$> children p.
Proof. destruct p. reflexivity. Qed.

Lemma subtree_compute_time total path :
  forall p, subtree path (compute_time_in_profile_rec total p)
            = compute_time_in_profile_rec total <$> subtree path p.
Proof.
  induction path as [|i path IH]; intros p; cbn [subtree]; [reflexivity|].
  rewrite children_compute_time, list_lookup_fmap.
  destruct (children p !! i) as [k|]; cbn; [apply IH|reflexivity].
Qed.

Lemma fraction_compute_time total p :
  local_time_percent (compute_time_in_profile_rec total p) = local_time_fraction total p.
Proof. destruct p. reflexivity. Qed.

Lemma total_time_compute_time total p :
  counter_total_time (compute_time_in_profile_rec total p) = counter_total_time p.
Proof. destruct p. reflexivity. Qed.

Lemma clamp01_cases q :
  (q <= 0 -> clamp01 q == 0)%Q /\
  (1 <= q -> clamp01 q == 1)%Q /\
  (0 <= q <= 1 -> clamp01 q == q)%Q /\
  (0 <= clamp01 q <= 1)%Q.
Proof.
  unfold clamp01.
  destruct (Qle_bool q 0) eqn:H0.
  - apply Qle_bool_iff in H0. repeat split; intros; try lra.
  - assert (Hpos : (0 < q)%Q).
    { apply Qnot_le_lt. intros Hle. apply Qle_bool_iff in Hle. congruence. }
    destruct (Qle_bool 1 q) eqn:H1.
    + apply Qle_bool_iff in H1. repeat split; intros; try lra.
    + assert (Hlt : (q < 1)%Q).
      { apply Qnot_le_lt. intros Hle. apply Qle_bool_iff in Hle. congruence. }
      repeat split; intros; try lra.
Qed.

(** C6: [compute_time_in_profile] leaves the tree as it is except for the
    local-time fractions, and sets the fraction of every node to (the node's
    total-time value minus the sum of its direct children's total-time values)
    divided by the root's total-time value, clamped to the interval from 0 to
    1, and to 0 when the root's total time is 0; a root with total time 100
    and a single childless child with total time 40 gets fraction 0.60 and the
    child 0.40. *)
Theorem compute_time_in_profile_fractions :
  (forall (p : t) (path : list nat) (n : t),
     subtree path p = Some n ->
     let total := Counter.value (counter_total_time p) in
     let raw := (inject_Z (Counter.value (counter_total_time n)
                           - children_total_time (children n))
                 / inject_Z total)%Q in
     exists n',
       subtree path (compute_time_in_profile p) = Some n' /\
       name n' = name n /\ counter_map n' = counter_map n /\
       counter_total_time n' = counter_total_time n /\
       (total = 0 -> (local_time_percent n' == 0)%Q) /\
       (total <> 0 ->
          (raw <= 0 -> local_time_percent n' == 0)%Q /\
          (1 <= raw -> local_time_percent n' == 1)%Q /\
          (0 <= raw <= 1 -> local_time_percent n' == raw)%Q) /\
       (0 <= local_time_percent n' <= 1)%Q) /\
  (forall rn rcm rt rf cn ccm ct cf,
     Counter.value rt = 100 -> Counter.value ct = 40 ->
     let r := compute_time_in_profile (Tree rn rcm rt rf [Tree cn ccm ct cf []]) in
     exists c', children r = [c'] /\
                (local_time_percent r == 0.60)%Q /\
                (local_time_percent c' == 0.40)%Q).
Proof.
  split.
  - intros p path n Hn total raw. unfold compute_time_in_profile. fold total.
    exists (compute_time_in_profile_rec total n).
    rewrite subtree_compute_time, Hn. split; [reflexivity|].
    rewrite fraction_compute_time, total_time_compute_time.
    split; [destruct n; reflexivity|]. split; [destruct n; reflexivity|].
    split; [reflexivity|].
    unfold local_time_fraction. fold raw.
    destruct (Z.eqb_spec total 0) as [Hz|Hnz].
    + split; [intros _; reflexivity|]. split; [intros Hne; contradiction|].
      split; lra.
    + pose proof (clamp01_cases raw) as (H0 & H1 & H01 & Hr).
      split; [intros; congruence|]. split; [intros _; auto|exact Hr].
  - intros rn rcm rt rf cn ccm ct cf Hrt Hct r. subst r.
    unfold compute_time_in_profile. cbn.
    eexists. split; [reflexivity|]. cbn.
    unfold local_time_fraction. cbn. rewrite Hrt, Hct. cbn.
    split; reflexivity.
Qed.

Lemma compute_time_in_profile_fractions_witness :
  let child := Tree "child" ∅ (Counter.Counter3 TUnit.TIME_NS
                                 (Counter.default_strategy TUnit.TIME_NS) 40) 0%Q [] in
  let root := Tree "root" ∅ (Counter.Counter3 TUnit.TIME_NS
                               (Counter.default_strategy TUnit.TIME_NS) 100) 0%Q [child] in
  subtree [0%nat] root = Some child /\
  exists n', subtree [0%nat] (compute_time_in_profile root) = Some n' /\
             (0 <= local_time_percent n' <= 1)%Q.
Proof.
  intros child root.
  assert (Hn : subtree [0%nat] root = Some child) by reflexivity.
  split; [exact Hn|].
  destruct (proj1 compute_time_in_profile_fractions root [0%nat] child Hn)
    as (n' & Hsub & _ & _ & _ & _ & _ & Hr).
  exists n'. split; [exact Hsub|exact Hr].
Defined.


(** *** Merging isomorphic trees *)

Lemma foldl_add64 vs :
  forall a, in_int64 a -> foldl add64 a vs = wrap64 (a + sum_values vs).
Proof.
  induction vs as [|v vs IH]; intros a Ha; cbn.
  - rewrite Z.add_0_r. symmetry. apply wrap64_id, Ha.
  - rewrite IH by apply wrap64_in_int64. unfold add64, sum_values.
    rewrite wrap64_add_l. f_equal. lia.
Qed.

Lemma sum64_wrap vs : sum64 vs = wrap64 (sum_values vs).
Proof.
  unfold sum64. rewrite foldl_add64; [reflexivity|].
  unfold in_int64, MIN_INT64, MAX_INT64. lia.
Qed.

Lemma omap_bind_list {A B C} (f : A -> option B) (g : B -> option C) (l : list A) :
  omap (fun x => f x ≫= g) l = omap g (omap f l).
Proof.
  induction l as [|x l IH]; [reflexivity|]. cbn.
  destruct (f x) as [y|]; cbn; [|exact IH].
  destruct (g y); cbn; rewrite IH; reflexivity.
Qed.

Lemma subtree_instances i path others :
  omap (subtree (i :: path)) others = omap (subtree path) (instance_children i others).
Proof. unfold instance_children. rewrite <- omap_bind_list. reflexivity. Qed.

Lemma merge_children_lookup others kids :
  forall j i,
    merge_children merge_into_first others j kids !! i
    = (fun k => merge_into_first k (instance_children (j + i) others)) <$> kids !! i.
Proof.
  induction kids as [|k kids IH]; intros j i; [reflexivity|].
  destruct i as [|i]; cbn.
  - rewrite Nat.add_0_r. reflexivity.
  - rewrite IH. replace (S j + i)%nat with (j + S i)%nat by lia. reflexivity.
Qed.

(** The node at [path] of the merge is the merge of the nodes at [path]. *)
Lemma subtree_merge_into_first path :
  forall p0 others,
    subtree path (merge_into_first p0 others)
    = (fun n0 => merge_into_first n0 (omap (subtree path) others)) <$> subtree path p0.
Proof.
  induction path as [|i path IH]; intros p0 others.
  - cbn. f_equal. f_equal. induction others as [|o os IHo]; [reflexivity|].
    cbn. rewrite <- IHo. reflexivity.
  - cbn [subtree]. destruct p0 as [n cm total_time f kids]. cbn [merge_into_first children].
    rewrite merge_children_lookup. cbn.
    destruct (kids !! i) as [k|]; cbn; [|reflexivity].
    rewrite IH. rewrite <- subtree_instances. reflexivity.
Qed.

Lemma counter_values_instances path cname others :
  counter_values path cname others
  = Counter.value <$> instance_counters cname (omap (subtree path) others).
Proof.
  unfold counter_values, instance_counters.
  induction others as [|o os IH]; [reflexivity|]. cbn.
  destruct (subtree path o) as [n|]; cbn; [|exact IH].
  destruct (counter_map n !! cname) as [[c pn]|]; cbn; rewrite IH; reflexivity.
Qed.


Lemma prefix_min_ne_max a b :
  RuntimeProfile.MERGED_INFO_PREFIX_MIN +:+ a <> RuntimeProfile.MERGED_INFO_PREFIX_MAX +:+ b.
Proof. cbn. discriminate. Qed.

Lemma kmap_prefix_lookup {A} (pre : string) (m : gmap string A) x :
  kmap (M2 := gmap string) (String.append pre) m !! (pre +:+ x) = m !! x.
Proof. exact (lookup_kmap (String.append pre) m x). Qed.

Lemma kmap_prefix_None {A} (pre : string) (m : gmap string A) k :
  (forall x, k = pre +:+ x -> m !! x = None) ->
  kmap (M2 := gmap string) (String.append pre) m !! k = None.
Proof. exact (proj2 (lookup_kmap_None (String.append pre) m k)). Qed.

(** What the merged counter map holds for a counter of the first instance. *)
Lemma merge_counter_map_lookup cm0 others cname c0 parent :
  (forall x, cm0 !! (RuntimeProfile.MERGED_INFO_PREFIX_MIN +:+ x) = None /\
             cm0 !! (RuntimeProfile.MERGED_INFO_PREFIX_MAX +:+ x) = None) ->
  cm0 !! cname = Some (c0, parent) ->
  let info := merge_isomorphic_counters (c0 :: instance_counters cname others) in
  merge_counter_map cm0 others !! cname = Some (Counter.set info.1.1 c0, parent) /\
  (Counter.skip_min_max c0 = false ->
     merge_counter_map cm0 others !! (RuntimeProfile.MERGED_INFO_PREFIX_MIN +:+ cname)
       = Some (published c0 info.1.2, parent) /\
     merge_counter_map cm0 others !! (RuntimeProfile.MERGED_INFO_PREFIX_MAX +:+ cname)
       = Some (published c0 info.2, parent)) /\
  (Counter.skip_min_max c0 = true ->
     merge_counter_map cm0 others !! (RuntimeProfile.MERGED_INFO_PREFIX_MIN +:+ cname) = None /\
     merge_counter_map cm0 others !! (RuntimeProfile.MERGED_INFO_PREFIX_MAX +:+ cname) = None).
Proof.
  intros Hclean Hc info. unfold merge_counter_map. cbn zeta.
  set (im := merged_info cm0 others).
  assert (Him : im !! cname = Some (c0, parent, info)).
  { unfold im, merged_info. rewrite map_lookup_imap, Hc. reflexivity. }
  assert (Hdom : forall k, cm0 !! k = None -> im !! k = None).
  { intros k Hk. unfold im, merged_info. rewrite map_lookup_imap, Hk. reflexivity. }
  set (mins := kmap (String.append RuntimeProfile.MERGED_INFO_PREFIX_MIN)
                 (omap published_min im)).
  set (maxs := kmap (String.append RuntimeProfile.MERGED_INFO_PREFIX_MAX)
                 (omap published_max im)).
  assert (Hmin_none : forall k, (forall x, k <> RuntimeProfile.MERGED_INFO_PREFIX_MIN +:+ x \/
                                           cm0 !! x = None) -> mins !! k = None).
  { intros k Hk. apply kmap_prefix_None. intros x Hx. rewrite lookup_omap.
    destruct (Hk x) as [Hne|Hnone]; [congruence|]. rewrite (Hdom _ Hnone). reflexivity. }
  assert (Hmax_none : forall k, (forall x, k <> RuntimeProfile.MERGED_INFO_PREFIX_MAX +:+ x \/
                                           cm0 !! x = None) -> maxs !! k = None).
  { intros k Hk. apply kmap_prefix_None. intros x Hx. rewrite lookup_omap.
    destruct (Hk x) as [Hne|Hnone]; [congruence|]. rewrite (Hdom _ Hnone). reflexivity. }
  assert (Hmin : mins !! (RuntimeProfile.MERGED_INFO_PREFIX_MIN +:+ cname) = published_min (c0, parent, info)).
  { unfold mins. rewrite kmap_prefix_lookup.
    rewrite lookup_omap, Him. reflexivity. }
  assert (Hmax : maxs !! (RuntimeProfile.MERGED_INFO_PREFIX_MAX +:+ cname) = published_max (c0, parent, info)).
  { unfold maxs. rewrite kmap_prefix_lookup.
    rewrite lookup_omap, Him. reflexivity. }
  assert (Hmerged_none : forall (g : Counter.t * string * MergedInfo -> Counter.t * string) x,
            (g <$> im) !! (RuntimeProfile.MERGED_INFO_PREFIX_MIN +:+ x) = None /\
            (g <$> im) !! (RuntimeProfile.MERGED_INFO_PREFIX_MAX +:+ x) = None).
  { intros g x. rewrite !lookup_fmap. destruct (Hclean x) as [H1 H2].
    rewrite (Hdom _ H1), (Hdom _ H2). split; reflexivity. }
  destruct info as [[v mn] mx] eqn:Hinfo. cbn [fst snd].
  split; [|split].
  - rewrite lookup_union_r.
    + rewrite lookup_fmap, Him. reflexivity.
    + apply lookup_union_None. split.
      * apply Hmin_none. intros x. left. intros ->. destruct (Hclean x). congruence.
      * apply Hmax_none. intros x. left. intros ->. destruct (Hclean x). congruence.
  - intros Hskip. split.
    + erewrite lookup_union_Some_l; [reflexivity|].
      erewrite lookup_union_Some_l; [reflexivity|].
      rewrite Hmin. cbn. rewrite Hskip. reflexivity.
    + erewrite lookup_union_Some_l; [reflexivity|].
      rewrite lookup_union_r.
      * rewrite Hmax. cbn. rewrite Hskip. reflexivity.
      * apply Hmin_none. intros x. left. intros Heq. symmetry in Heq.
        exact (prefix_min_ne_max _ _ Heq).
  - intros Hskip. split.
    + apply lookup_union_None. split; [apply lookup_union_None; split|].
      * rewrite Hmin. cbn. rewrite Hskip. reflexivity.
      * apply Hmax_none. intros x. left. apply prefix_min_ne_max.
      * exact (proj1 (Hmerged_none merged_entry cname)).
    + apply lookup_union_None. split; [apply lookup_union_None; split|].
      * apply Hmin_none. intros x. left. intros Heq. symmetry in Heq.
        exact (prefix_min_ne_max _ _ Heq).
      * rewrite Hmax. cbn. rewrite Hskip. reflexivity.
      * exact (proj2 (Hmerged_none merged_entry cname)).
Qed.


Lemma identical_children_lookup ka :
  forall kb i x,
    identical_children identical_shape ka kb = true -> ka !! i = Some x ->
    exists y, kb !! i = Some y /\ identical_shape x y = true.
Proof.
  induction ka as [|a ka IH]; intros [|b kb] i x Hid Hx; try discriminate.
  cbn in Hid. apply andb_true_iff in Hid as [Hab Hrest].
  destruct i as [|i]; cbn in *.
  - injection Hx as <-. eauto.
  - eapply IH; eauto.
Qed.

Lemma identical_shape_subtree path :
  forall a b na,
    identical_shape a b = true -> subtree path a = Some na ->
    exists nb, subtree path b = Some nb /\ identical_shape na nb = true.
Proof.
  induction path as [|i path IH]; intros a b na Hid Hna; cbn in *.
  - injection Hna as <-. eauto.
  - destruct a as [na' cma ta fa ka], b as [nb' cmb tb fb kb]. cbn in *.
    apply andb_true_iff in Hid as [_ Hkids].
    destruct (ka !! i) as [x|] eqn:Hx; [|discriminate]. cbn in Hna.
    destruct (identical_children_lookup ka kb i x Hkids Hx) as (y & Hy & Hxy).
    rewrite Hy. cbn. eapply IH; eauto.
Qed.

Lemma identical_shape_counter a b cname x :
  identical_shape a b = true -> counter_map a !! cname = Some x ->
  is_Some (counter_map b !! cname).
Proof.
  destruct a as [na cma ta fa ka], b as [nb cmb tb fb kb]. cbn.
  intros Hid Hx. apply andb_true_iff in Hid as [Hid _].
  apply andb_true_iff in Hid as [_ Hdom]. apply bool_decide_eq_true in Hdom.
  apply elem_of_dom. rewrite <- Hdom. apply elem_of_dom. eauto.
Qed.

Lemma counter_values_length path cname p0 others n0 x :
  Forall (fun o => identical_shape p0 o = true) others ->
  subtree path p0 = Some n0 -> counter_map n0 !! cname = Some x ->
  length (counter_values path cname others) = length others.
Proof.
  intros Hall Hn0 Hx. unfold counter_values.
  induction Hall as [|o os Ho _ IH]; [reflexivity|]. cbn.
  destruct (identical_shape_subtree path p0 o n0 Ho Hn0) as (no & Hno & Hid).
  rewrite Hno. cbn.
  destruct (identical_shape_counter n0 no cname x Hid Hx) as [y Hy].
  rewrite Hy. cbn. rewrite IH. reflexivity.
Qed.

Lemma foldr_min_least v vs :
  foldr Z.min v vs ∈ v :: vs /\ Forall (fun x => foldr Z.min v vs <= x) (v :: vs).
Proof.
  induction vs as [|w vs [Hin Hall]]; cbn.
  - split; [left|repeat constructor; lia].
  - inversion Hall as [|? ? Hv Hvs]; subst. split.
    + destruct (Z.min_spec w (foldr Z.min v vs)) as [[_ ->]|[_ ->]].
      * right. left.
      * apply elem_of_cons in Hin as [->|Hin]; [left|right; right; exact Hin].
    + constructor; [lia|]. constructor; [lia|].
      eapply Forall_impl; [exact Hvs|]. cbn. intros; lia.
Qed.

Lemma foldr_max_greatest v vs :
  foldr Z.max v vs ∈ v :: vs /\ Forall (fun x => x <= foldr Z.max v vs) (v :: vs).
Proof.
  induction vs as [|w vs [Hin Hall]]; cbn.
  - split; [left|repeat constructor; lia].
  - inversion Hall as [|? ? Hv Hvs]; subst. split.
    + destruct (Z.max_spec w (foldr Z.max v vs)) as [[_ ->]|[_ ->]].
      * apply elem_of_cons in Hin as [->|Hin]; [left|right; right; exact Hin].
      * right. left.
    + constructor; [lia|]. constructor; [lia|].
      eapply Forall_impl; [exact Hvs|]. cbn. intros; lia.
Qed.

Lemma is_avg_not_is_sum c : Counter.is_avg c = negb (Counter.is_sum c).
Proof.
  unfold Counter.is_avg, Counter.is_sum.
  destruct (aggregate_type (Counter._strategy c)); reflexivity.
Qed.


Lemma merge_isomorphic_counters_cons c0 cs :
  merge_isomorphic_counters (c0 :: cs) =
    ((if Counter.is_sum c0 then wrap64 (sum_values (Counter.value <$> c0 :: cs))
      else wrap64 (sum_values (Counter.value <$> c0 :: cs))
           `quot` Z.of_nat (length (Counter.value <$> c0 :: cs))),
     foldr Z.min (Counter.value c0) (Counter.value <$> cs),
     foldr Z.max (Counter.value c0) (Counter.value <$> cs)).
Proof.
  unfold merge_isomorphic_counters. rewrite sum64_wrap, !length_fmap. reflexivity.
Qed.

Lemma Counter_set_value v c : Counter.value (Counter.set v c) = v.
Proof. reflexivity. Qed.

(** The merged value, minimum and maximum of a counter of the node at [path],
    in terms of the values the counter has in the instances. *)
Lemma merge_into_first_counter p0 others path n0 cname c0 parent :
  subtree path p0 = Some n0 ->
  counter_map n0 !! cname = Some (c0, parent) ->
  unprefixed_names n0 ->
  let vals := counter_values path cname (p0 :: others) in
  exists nr,
    subtree path (merge_into_first p0 others) = Some nr /\
    (exists c', counter_map nr !! cname = Some (c', parent) /\
       Counter.type c' = Counter.type c0 /\ Counter.strategy c' = Counter.strategy c0 /\
       Counter.value c' =
         (if Counter.is_sum c0 then wrap64 (sum_values vals)
          else wrap64 (sum_values vals) `quot` Z.of_nat (length vals))) /\
    (Counter.skip_min_max c0 = false ->
       exists cmin cmax,
         counter_map nr !! (RuntimeProfile.MERGED_INFO_PREFIX_MIN +:+ cname)
           = Some (cmin, parent) /\
         counter_map nr !! (RuntimeProfile.MERGED_INFO_PREFIX_MAX +:+ cname)
           = Some (cmax, parent) /\
         Counter.value cmin ∈ vals /\ Forall (fun v => Counter.value cmin <= v) vals /\
         Counter.value cmax ∈ vals /\ Forall (fun v => v <= Counter.value cmax) vals) /\
    (Counter.skip_min_max c0 = true ->
       counter_map nr !! (RuntimeProfile.MERGED_INFO_PREFIX_MIN +:+ cname) = None /\
       counter_map nr !! (RuntimeProfile.MERGED_INFO_PREFIX_MAX +:+ cname) = None).
Proof.
  intros Hn0 Hc Hclean vals.
  assert (Hvals : vals = Counter.value c0 ::
            (Counter.value <$> instance_counters cname (omap (subtree path) others))).
  { unfold vals, counter_values. cbn. rewrite Hn0. cbn. rewrite Hc. cbn. f_equal.
    apply counter_values_instances. }
  clearbody vals.
  rewrite subtree_merge_into_first, Hn0. cbn.
  eexists. split; [reflexivity|].
  destruct n0 as [n cm total_time f kids]. cbn [merge_into_first counter_map] in *.
  destruct (merge_counter_map_lookup cm (omap (subtree path) others) cname c0 parent
              Hclean Hc) as (Hmerged & Hpub & Hskip).
  set (cs := instance_counters cname (omap (subtree path) others)) in *.
  subst vals.
  rewrite merge_isomorphic_counters_cons in Hmerged, Hpub. cbn [fst snd] in Hmerged, Hpub.
  split; [|split].
  - eexists. split; [exact Hmerged|]. split; [reflexivity|]. split; [reflexivity|].
    rewrite Counter_set_value. reflexivity.
  - intros Hns. destruct (Hpub Hns) as [Hmin Hmax].
    eexists _, _. split; [exact Hmin|]. split; [exact Hmax|].
    destruct (foldr_min_least (Counter.value c0) (Counter.value <$> cs)) as [H1 H2].
    destruct (foldr_max_greatest (Counter.value c0) (Counter.value <$> cs)) as [H3 H4].
    auto.
  - exact Hskip.
Qed.

(** C2: for N structurally identical trees [merge_isomorphic_profiles]
    returns the first tree overwritten with the merge.  Every counter of every
    node then holds the sum of its N instance values (as a 64-bit sum) when it
    aggregates by sum and their average (that sum divided by N) when it
    aggregates by average; and unless its min-max policy is [SKIP_ALL] the node
    also holds, under the counter's name prefixed with [__MIN_OF_] and
    [__MAX_OF_], the least and the greatest of the N values.  Three trees with
    the SUM counter "rows" at 10, 20 and 30 give rows = 60 with minimum 10 and
    maximum 30; three trees with the AVG counter "latency_ns" at 100, 200 and
    300 give latency_ns = 200. *)
Theorem merge_isomorphic_profiles_sum_avg_min_max :
  (forall (p0 : t) (others : list t) (require_identical : bool),
     Forall (fun o => identical_shape p0 o = true) others ->
     exists r,
       merge_isomorphic_profiles (p0 :: others) require_identical = Some r /\
       forall path n0 cname c0 parent,
         subtree path p0 = Some n0 ->
         counter_map n0 !! cname = Some (c0, parent) ->
         unprefixed_names n0 ->
         let vals := counter_values path cname (p0 :: others) in
         length vals = S (length others) /\
         exists nr c',
           subtree path r = Some nr /\
           counter_map nr !! cname = Some (c', parent) /\
           (Counter.is_sum c0 = true ->
              Counter.value c' = wrap64 (sum_values vals) /\
              (in_int64 (sum_values vals) -> Counter.value c' = sum_values vals)) /\
           (Counter.is_avg c0 = true ->
              Counter.value c' = wrap64 (sum_values vals) `quot` Z.of_nat (length vals) /\
              (in_int64 (sum_values vals) ->
                 Counter.value c' = sum_values vals `quot` Z.of_nat (length vals))) /\
           (Counter.skip_min_max c0 = false ->
              exists cmin cmax,
                counter_map nr !! (RuntimeProfile.MERGED_INFO_PREFIX_MIN +:+ cname)
                  = Some (cmin, parent) /\
                counter_map nr !! (RuntimeProfile.MERGED_INFO_PREFIX_MAX +:+ cname)
                  = Some (cmax, parent) /\
                Counter.value cmin ∈ vals /\ Forall (fun v => Counter.value cmin <= v) vals /\
                Counter.value cmax ∈ vals /\ Forall (fun v => v <= Counter.value cmax) vals)) /\
  (forall require_identical,
     exists r,
       merge_isomorphic_profiles
         [single_counter_instance "rows" TUnit.UNIT TCounterAggregateType.SUM 10;
          single_counter_instance "rows" TUnit.UNIT TCounterAggregateType.SUM 20;
          single_counter_instance "rows" TUnit.UNIT TCounterAggregateType.SUM 30]
         require_identical = Some r /\
       counter_value "rows" r = Some 60 /\
       counter_value "__MIN_OF_rows" r = Some 10 /\
       counter_value "__MAX_OF_rows" r = Some 30) /\
  (forall require_identical,
     exists r,
       merge_isomorphic_profiles
         [single_counter_instance "latency_ns" TUnit.TIME_NS TCounterAggregateType.AVG 100;
          single_counter_instance "latency_ns" TUnit.TIME_NS TCounterAggregateType.AVG 200;
          single_counter_instance "latency_ns" TUnit.TIME_NS TCounterAggregateType.AVG 300]
         require_identical = Some r /\
       counter_value "latency_ns" r = Some 200).
Proof.
  split; [|split].
  - intros p0 others require_identical Hall.
    exists (merge_into_first p0 others). split.
    { unfold merge_isomorphic_profiles.
      replace (forallb (identical_shape p0) others) with true;
        [rewrite andb_false_r; reflexivity|].
      symmetry. apply forallb_forall. intros o Ho.
      rewrite List.Forall_forall in Hall. apply Hall, Ho. }
    intros path n0 cname c0 parent Hn0 Hc Hclean vals.
    split.
    { unfold vals, counter_values. cbn. rewrite Hn0. cbn. rewrite Hc. cbn. f_equal.
      eapply counter_values_length; eauto. }
    destruct (merge_into_first_counter p0 others path n0 cname c0 parent Hn0 Hc Hclean)
      as (nr & Hnr & (c' & Hc' & _ & _ & Hval) & Hpub & _).
    fold vals in Hval, Hpub.
    exists nr, c'. split; [exact Hnr|]. split; [exact Hc'|].
    split; [|split].
    + intros Hsum. rewrite Hsum in Hval. split; [exact Hval|].
      intros Hr. rewrite Hval. apply wrap64_id, Hr.
    + intros Havg. rewrite is_avg_not_is_sum in Havg.
      apply negb_true_iff in Havg. rewrite Havg in Hval. split; [exact Hval|].
      intros Hr. rewrite Hval, (wrap64_id _ Hr). reflexivity.
    + exact Hpub.
  - intros [|]; eexists; (split; [reflexivity|]); repeat split; vm_compute; reflexivity.
  - intros [|]; eexists; (split; [reflexivity|]); vm_compute; reflexivity.
Qed.


Lemma single_counter_instance_unprefixed type aggregate v :
  unprefixed_names (single_counter_instance "rows" type aggregate v).
Proof.
  intros cname. cbn. split; apply lookup_singleton_None; cbn; discriminate.
Defined.

Lemma merge_isomorphic_profiles_sum_avg_min_max_witness :
  let p0 := single_counter_instance "rows" TUnit.UNIT TCounterAggregateType.SUM 10 in
  let others := [single_counter_instance "rows" TUnit.UNIT TCounterAggregateType.SUM 20;
                 single_counter_instance "rows" TUnit.UNIT TCounterAggregateType.SUM 30] in
  Forall (fun o => identical_shape p0 o = true) others /\
  exists r nr c',
    merge_isomorphic_profiles (p0 :: others) true = Some r /\
    subtree [] r = Some nr /\
    counter_map nr !! "rows" = Some (c', RuntimeProfile.ROOT_COUNTER) /\
    Counter.value c' = wrap64 (sum_values (counter_values [] "rows" (p0 :: others))).
Proof.
  intros p0 others.
  assert (Hall : Forall (fun o => identical_shape p0 o = true) others).
  { repeat constructor; vm_compute; reflexivity. }
  split; [exact Hall|].
  destruct (proj1 merge_isomorphic_profiles_sum_avg_min_max p0 others true Hall)
    as (r & Hr & Hcounters).
  assert (Hn0 : subtree [] p0 = Some p0) by reflexivity.
  assert (Hc : counter_map p0 !! "rows"
               = Some (Counter.Counter3 TUnit.UNIT
                         (Counter.create_strategy TCounterAggregateType.SUM
                            TCounterMergeType.MERGE_ALL 0 TCounterMinMaxType.MIN_MAX_ALL) 10,
                       RuntimeProfile.ROOT_COUNTER)) by reflexivity.
  destruct (Hcounters [] p0 "rows" _ _ Hn0 Hc (single_counter_instance_unprefixed _ _ _))
    as (_ & nr & c' & Hnr & Hc' & Hsum & _).
  exists r, nr, c'. split; [exact Hr|]. split; [exact Hnr|]. split; [exact Hc'|].
  exact (proj1 (Hsum eq_refl)).
Defined.

End ProfileTreeFacts.

(** ** Further properties of the counters *)

Section CounterBitOrFacts.

(** [bit_or] returns after one iteration when no other thread interferes;
    the counter then holds the bitwise or of its old value and [delta]: every
    bit that was set stays set and every bit of [delta] is set.  When the bits
    were already there the counter object is left untouched, and repeating
    the call changes nothing. *)
Theorem bit_or_sets_bits :
  forall (fuel : nat) (delta : Z) (c : Counter.t),
    exists c',
      Counter.bit_or (S fuel) delta c = Some c' /\
      Counter.value c' = Z.lor (Counter.value c) delta /\
      (forall n, Z.testbit (Counter.value c') n
                 = Z.testbit (Counter.value c) n || Z.testbit delta n) /\
      (Z.lor (Counter.value c) delta = Counter.value c -> c' = c) /\
      Counter.bit_or (S fuel) delta c' = Some c'.
Proof.
  intros fuel delta [v ty st mn mx].
  unfold Counter.bit_or, Counter.value, Atomic.load, Atomic.compare_exchange_strong,
    Counter.with_value. cbn [Counter._value Counter._type Counter._strategy
                              Counter._min_value Counter._max_value].
  destruct (Z.eqb_spec (Z.lor v delta) v) as [Heq|Hne].
  - eexists. split; [reflexivity|]. cbn [Counter._value].
    split; [congruence|]. split; [intros n; rewrite <- Z.lor_spec, Heq; reflexivity|].
    split; [reflexivity|].
    destruct (Z.eqb_spec (Z.lor v delta) v); [reflexivity|contradiction].
  - rewrite Z.eqb_refl. eexists. split; [reflexivity|]. cbn [Counter._value].
    split; [reflexivity|]. split; [intros n; apply Z.lor_spec|].
    split; [intros Heq; contradiction|].
    assert (Hidem : Z.lor (Z.lor v delta) delta = Z.lor v delta).
    { rewrite <- Z.lor_assoc, Z.lor_diag. reflexivity. }
    rewrite Hidem, Z.eqb_refl. reflexivity.
Qed.

(** A counter made by the two-argument constructor aggregates by average
    exactly when its unit is a time unit and by sum otherwise, takes part in
    every merge, has its minimum and maximum tracked and is always displayed;
    and no counter at all aggregates both by sum and by average. *)
Theorem default_strategy_follows_unit :
  forall (type : TUnit.type) (v : Z),
    let c := Counter.Counter2 type v in
    Counter.is_avg c = is_time_type type /\
    Counter.is_sum c = negb (is_time_type type) /\
    Counter.skip_merge c = false /\
    Counter.skip_min_max c = false /\
    Counter.should_display c = true /\
    (forall c' : Counter.t, Counter.is_sum c' && Counter.is_avg c' = false).
Proof.
  intros type v c. subst c.
  unfold Counter.is_avg, Counter.is_sum, Counter.skip_merge, Counter.skip_min_max,
    Counter.should_display, Counter.Counter2, Counter.default_strategy,
    Counter.create_strategy_of_unit, Counter.create_strategy. cbn.
  repeat split; try (destruct (is_time_type type); reflexivity).
  intros c'. destruct (aggregate_type (Counter._strategy c')); reflexivity.
Qed.

End CounterBitOrFacts.

Section WaterMarkCallsFacts.

Import WaterMarkCounter WaterMarkCalls.

Lemma add_first_iteration is_high fuel delta w :
  in_int64 (current_value w + delta) ->
  add is_high (S fuel) delta w =
    Some (mk (Counter.with_value
                (if is_high then Z.max (value w) (current_value w + delta)
                 else Z.min (value w) (current_value w + delta)) (base w))
             (current_value w + delta)).
Proof.
  intros Hrange. unfold add, Atomic.fetch_add, checked_add64.
  unfold current_value, Atomic.load in *.
  destruct (decide (in_int64 (current_value_ w + delta))) as [_|Hn]; [|contradiction].
  rewrite Update_first_iteration. unfold add64. rewrite (wrap64_id _ Hrange).
  reflexivity.
Qed.

Lemma set_first_iteration is_high fuel v w :
  set is_high (S fuel) v w =
    Some (mk (Counter.with_value
                (if is_high then Z.max (value w) v else Z.min (value w) v) (base w))
             v).
Proof. unfold set. rewrite Update_first_iteration. reflexivity. Qed.

Lemma run_call_extreme is_high fuel c w :
  extreme_covers is_high w ->
  (call_defined c w -> is_Some (run_call is_high fuel c w)) /\
  (forall w', run_call is_high fuel c w = Some w' ->
     extreme_covers is_high w' /\ extreme_moved is_high w w').
Proof.
  intros Hcov. split.
  - destruct c as [delta|delta max|v]; cbn [run_call call_defined]; intros Hdef.
    + rewrite add_first_iteration by exact Hdef. eauto.
    + rewrite try_add_first_iteration by exact Hdef.
      destruct (current_value w + delta >? max); cbn; eauto.
    + rewrite set_first_iteration. eauto.
  - intros w' Hrun. destruct c as [delta|delta max|v]; cbn [run_call] in Hrun.
    + unfold add, Atomic.fetch_add, checked_add64 in Hrun.
      destruct (decide (in_int64 (current_value_ w + delta))) as [Hr|]; [|discriminate].
      rewrite Update_first_iteration in Hrun. injection Hrun as <-.
      unfold add64. rewrite (wrap64_id _ Hr).
      unfold extreme_covers, extreme_moved, current_value, value, Counter.value,
        Atomic.load in *. destruct is_high; cbn; lia.
    + unfold try_add in Hrun. unfold checked_add64, Atomic.load in Hrun.
      destruct (decide (in_int64 (current_value_ w + delta))) as [Hr|]; [|discriminate].
      destruct (current_value_ w + delta >? max).
      * injection Hrun as <-. split; [exact Hcov|].
        unfold extreme_moved. destruct is_high; lia.
      * unfold Atomic.compare_exchange_strong in Hrun. rewrite Z.eqb_refl in Hrun.
        rewrite Update_first_iteration in Hrun. injection Hrun as <-.
        unfold extreme_covers, extreme_moved, current_value, value, Counter.value,
          Atomic.load in *. destruct is_high; cbn; lia.
    + rewrite set_first_iteration in Hrun. injection Hrun as <-.
      unfold extreme_covers, extreme_moved, current_value, value, Counter.value,
        Atomic.load in *. destruct is_high; cbn; lia.
Qed.

(** Over any run of [add], [try_add] and [set] calls by one thread, a high
    watermark counter's [value()] never decreases and is never below
    [current_value()]; for a low watermark counter it never increases and is
    never above.  A call returns whenever its addition does not overflow. *)
Theorem watermark_extreme_covers_current :
  forall (is_high : bool) (fuel : nat) (cs : list call) (w : t),
    extreme_covers is_high w ->
    (forall w', run_calls is_high fuel cs w = Some w' ->
       extreme_covers is_high w' /\ extreme_moved is_high w w') /\
    (forall c, call_defined c w -> is_Some (run_call is_high fuel c w)).
Proof.
  intros is_high fuel cs. induction cs as [|c cs IH]; intros w Hcov.
  - split; [|intros c; apply run_call_extreme, Hcov].
    intros w' [= <-]. split; [exact Hcov|].
    unfold extreme_moved. destruct is_high; lia.
  - split; [|intros c0; apply run_call_extreme, Hcov].
    intros w' Hrun. cbn in Hrun.
    destruct (run_call is_high fuel c w) as [w1|] eqn:Hc; [|discriminate]. cbn in Hrun.
    destruct (proj2 (run_call_extreme is_high fuel c w Hcov) w1 Hc) as [Hcov1 Hmov1].
    destruct (proj1 (IH w1 Hcov1) w' Hrun) as [Hcov' Hmov'].
    split; [exact Hcov'|].
    unfold extreme_moved in *. destruct is_high; lia.
Qed.

Lemma watermark_extreme_covers_current_witness :
  let w := HighWaterMarkCounter2 0 TUnit.BYTES 0 in
  extreme_covers true w /\
  exists w', run_calls true 0 [call_add 5; call_try_add 9 10; call_set 2; call_add (-1)] w
             = Some w' /\
             extreme_covers true w'.
Proof.
  intros w.
  assert (Hcov : extreme_covers true w) by (vm_compute; discriminate).
  split; [exact Hcov|].
  assert (Hrun : exists w', run_calls true 0
                   [call_add 5; call_try_add 9 10; call_set 2; call_add (-1)] w = Some w').
  { eexists. vm_compute. reflexivity. }
  destruct Hrun as [w' Hrun]. exists w'. split; [exact Hrun|].
  exact (proj1 (proj1 (watermark_extreme_covers_current true 0 _ w Hcov) w' Hrun)).
Defined.

(** After a run of [add(delta)] calls that never overflow, the current value
    is the old one plus all deltas and [value()] is the largest (for a low
    watermark counter: the smallest) among the old [value()] and every
    intermediate current value. *)
Theorem watermark_of_adds :
  forall (is_high : bool) (fuel : nat) (deltas : list Z) (w : t),
    Forall in_int64 (running_sums (current_value w) deltas) ->
    exists w',
      run_calls is_high fuel (call_add <$> deltas) w = Some w' /\
      current_value w' = current_value w + foldr Z.add 0 deltas /\
      value w' = foldr (if is_high then Z.max else Z.min) (value w)
                   (running_sums (current_value w) deltas).
Proof.
  intros is_high fuel deltas. induction deltas as [|d ds IH]; intros w Hall.
  - exists w. cbn. split; [reflexivity|]. split; [lia|reflexivity].
  - cbn in Hall. inversion Hall as [|? ? Hd Hds]; subst.
    cbn [fmap list_fmap run_calls run_call]. rewrite add_first_iteration by exact Hd.
    cbn [mbind option_bind].
    set (w1 := mk _ _).
    assert (Hcur1 : current_value w1 = current_value w + d) by reflexivity.
    assert (Hval1 : value w1 = (if is_high then Z.max (value w) (current_value w + d)
                                else Z.min (value w) (current_value w + d)))
      by reflexivity.
    destruct (IH w1) as (w' & Hrun & Hcur & Hval); [rewrite Hcur1; exact Hds|].
    exists w'. split; [exact Hrun|]. rewrite Hcur, Hval, Hcur1, Hval1.
    split; [cbn; lia|]. cbn [running_sums foldr].
    generalize (running_sums (current_value w + d) ds). intros l.
    destruct is_high.
    + induction l as [|x l IHl]; cbn; lia.
    + induction l as [|x l IHl]; cbn; lia.
Qed.

Lemma watermark_of_adds_witness :
  let w := HighWaterMarkCounter2 0 TUnit.BYTES 0 in
  Forall in_int64 (running_sums (current_value w) [3; 4; -5; 1]) /\
  exists w', run_calls true 0 (call_add <$> [3; 4; -5; 1]) w = Some w' /\
             current_value w' = 3 /\ value w' = 7.
Proof.
  intros w.
  assert (Hall : Forall in_int64 (running_sums (current_value w) [3; 4; -5; 1])).
  { repeat constructor; vm_compute; discriminate. }
  split; [exact Hall|].
  destruct (watermark_of_adds true 0 [3; 4; -5; 1] w Hall) as (w' & Hrun & Hcur & Hval).
  exists w'. split; [exact Hrun|]. split; [exact Hcur|exact Hval].
Defined.

End WaterMarkCallsFacts.

(** ** Scoped counters, null timers and event sequences *)

Section ScopedCounterFacts.

Import ScopedCounter.

Lemma run_updates_flags us : forall st, ScopedTimer.flags (run_updates us st) = ScopedTimer.flags st.
Proof.
  induction us as [|[c d] us IH]; intros st; [reflexivity|]. cbn. rewrite IH. reflexivity.
Qed.

(** A body that only updates keeps two stores in step when they differ, at
    [c], by an offset of the counter value, and agree elsewhere. *)
Lemma run_updates_offset (c : nat) (k : Z) us :
  forall st1 st2,
    (forall c', c' <> c -> ScopedTimer.counters st1 c' = ScopedTimer.counters st2 c') ->
    ScopedTimer.counters st1 c
      = Counter.with_value (wrap64 (Counter.value (ScopedTimer.counters st2 c) + k))
          (ScopedTimer.counters st2 c) ->
    (forall c', c' <> c ->
       ScopedTimer.counters (run_updates us st1) c'
       = ScopedTimer.counters (run_updates us st2) c') /\
    ScopedTimer.counters (run_updates us st1) c
      = Counter.with_value
          (wrap64 (Counter.value (ScopedTimer.counters (run_updates us st2) c) + k))
          (ScopedTimer.counters (run_updates us st2) c).
Proof.
  induction us as [|[a d] us IH]; intros st1 st2 Hother Hc; [split; assumption|].
  cbn [run_updates]. apply IH; cbn [ScopedTimer.counters].
  - intros c' Hne. destruct (decide (c' = a)) as [->|Hne'].
    + rewrite !fn_lookup_insert. rewrite (Hother a Hne). reflexivity.
    + rewrite !fn_lookup_insert_ne by congruence. apply Hother, Hne.
  - destruct (decide (c = a)) as [<-|Hne].
    + rewrite !fn_lookup_insert. rewrite Hc.
      destruct (ScopedTimer.counters st2 c) as [v ty sg mn mx].
      unfold Counter.update, Counter.with_value, Counter.value, Atomic.fetch_add,
        Atomic.load, add64. cbn. f_equal.
      rewrite !wrap64_add_l. f_equal. lia.
    + rewrite !fn_lookup_insert_ne by congruence. exact Hc.
Qed.

Lemma run_updates_in_int64 us :
  forall st c,
    in_int64 (Counter.value (ScopedTimer.counters st c)) ->
    in_int64 (Counter.value (ScopedTimer.counters (run_updates us st) c)).
Proof.
  induction us as [|[a d] us IH]; intros st c Hc; [exact Hc|].
  cbn [run_updates]. apply IH. cbn [ScopedTimer.counters].
  destruct (decide (c = a)) as [<-|Hne].
  - rewrite fn_lookup_insert. apply Counter_value_in_int64_update.
  - rewrite fn_lookup_insert_ne by congruence. exact Hc.
Qed.

(** A scoped counter is invisible after its block: when the body only issues
    [update] calls, every counter and flag ends up exactly as if the body had
    run without the scoped counter, whatever [val] was taken out on entry and
    put back on exit.  With a null counter nothing is touched at all. *)
Theorem scoped_counter_restores :
  forall (c : nat) (val : Z) (us : list (nat * Z)) (st : ScopedTimer.store),
    in_int64 (- val) ->
    in_int64 (Counter.value (ScopedTimer.counters st c)) ->
    (exists st',
       scoped (Some c) val (run_updates us) st = Some st' /\
       (forall c', ScopedTimer.counters st' c' = ScopedTimer.counters (run_updates us st) c') /\
       ScopedTimer.flags st' = ScopedTimer.flags (run_updates us st)) /\
    scoped None val (run_updates us) st = Some (run_updates us st).
Proof.
  intros c val us st Hneg Hrange. split; [|reflexivity].
  unfold scoped, ScopedCounter, checked_neg64.
  destruct (decide (in_int64 (- val))) as [_|Hn]; [|contradiction].
  cbn [mbind option_bind]. eexists. split; [reflexivity|].
  unfold destroy. cbn [_counter _val ScopedTimer.counters ScopedTimer.flags].
  set (st1 := ScopedTimer.mkStore _ _).
  destruct (run_updates_offset c (- val) us st1 st) as [Hother Hc].
  { intros c' Hne. unfold st1. cbn. rewrite fn_lookup_insert_ne by congruence. reflexivity. }
  { unfold st1. cbn. rewrite fn_lookup_insert.
    destruct (ScopedTimer.counters st c) as [v ty sg mn mx]. reflexivity. }
  split.
  - intros c'. destruct (decide (c' = c)) as [->|Hne].
    + rewrite fn_lookup_insert, Hc.
      pose proof (run_updates_in_int64 us st c Hrange) as Hr.
      destruct (ScopedTimer.counters (run_updates us st) c) as [v ty sg mn mx].
      unfold Counter.update, Counter.with_value, Counter.value, Atomic.fetch_add,
        Atomic.load, add64 in *. cbn in *. f_equal.
      rewrite wrap64_add_l. replace (v + - val + val) with v by lia.
      apply wrap64_id, Hr.
    + rewrite fn_lookup_insert_ne by congruence. apply Hother, Hne.
  - rewrite !run_updates_flags. reflexivity.
Qed.

Lemma scoped_counter_restores_witness :
  let st := ScopedTimer.zero_timer_store in
  in_int64 (- 3) /\
  in_int64 (Counter.value (ScopedTimer.counters st 1%nat)) /\
  exists st',
    scoped (Some 1%nat) 3 (run_updates [(1%nat, 10); (2%nat, 5)]) st = Some st' /\
    ScopedTimer.counters st' 1%nat
      = ScopedTimer.counters (run_updates [(1%nat, 10); (2%nat, 5)] st) 1%nat.
Proof.
  intros st.
  assert (Hneg : in_int64 (- 3)) by (split; vm_compute; discriminate).
  assert (Hr : in_int64 (Counter.value (ScopedTimer.counters st 1%nat)))
    by (split; vm_compute; discriminate).
  split; [exact Hneg|]. split; [exact Hr|].
  destruct (proj1 (scoped_counter_restores 1%nat 3 [(1%nat, 10); (2%nat, 5)] st Hneg Hr))
    as (st' & Hs & Hc & _).
  exists st'. split; [exact Hs|apply Hc].
Defined.

End ScopedCounterFacts.

Section ScopedTimerNullFacts.

Import ScopedTimer.

(** A scoped timer constructed on a null counter never starts its stop watch
    and leaves the store exactly as the body left it, on every exit path and
    whatever the cancellation flag says. *)
Theorem scoped_timer_null_counter :
  forall (T : Type) (SW : StopWatch T) (t0 : Z) (is_cancelled : option addr)
         (body : store -> exit_path * store * Z) (st : store),
    _sw (ScopedTimer t0 None is_cancelled) = sw_new /\
    scoped t0 None is_cancelled body st = (body st).1.
Proof.
  intros T SW t0 is_cancelled body st. split; [reflexivity|].
  unfold scoped. destruct (body st) as [[path st1] t1]. reflexivity.
Qed.

End ScopedTimerNullFacts.

Section EventSequenceFacts.

Import EventSequence.

Context {T : Type} `{StopWatch T}.

Lemma mark_events_sw marks : forall es : EventSequence.t T, _sw (mark_events marks es) = _sw es.
Proof.
  induction marks as [|[now label] marks IH]; intros es; [reflexivity|].
  cbn. rewrite IH. reflexivity.
Qed.


End EventSequenceFacts.

Section EventSequenceOrder.

Import EventSequence.




End EventSequenceOrder.

(** ** Watermark counters under concurrent calls *)

Section WaterMarkConcurrentFacts.

Import WaterMarkCounter WaterMarkCalls WaterMarkConcurrent.

(** A scheduler run is an interleaving of the threads' atomic accesses. *)
Lemma watermark_run_schedule_steps is_high sched s :
  rtc (step is_high) s (run_schedule is_high sched s).
Proof.
  revert s. induction sched as [|i sched IH]; intros s; cbn; [constructor|].
  destruct (threads s !! i) as [[c p]|] eqn:Hi; [|apply IH].
  destruct (thread_step is_high c p (counter s)) as [[p' w']|] eqn:Hs; [|apply IH].
  eapply rtc_l; [|apply IH]. destruct s as [w ths]. econstructor; eassumption.
Qed.

(** An invariant of the steps holds in every reachable state. *)
Lemma step_invariant is_high (I : sys -> Prop) :
  (forall s s', I s -> step is_high s s' -> I s') ->
  forall s s', rtc (step is_high) s s' -> I s -> I s'.
Proof.
  intros Hstep s s' Hrtc. induction Hrtc as [|s1 s2 s3 H12 _ IH]; [auto|].
  intros H1. apply IH. eapply Hstep; eauto.
Qed.

Lemma Forall_initial (P : thread -> Prop) calls :
  Forall (fun c => P (c, pc_start)) calls ->
  Forall P ((fun c => (c, pc_start)) <$> calls).
Proof. intros H. apply Forall_fmap. exact H. Qed.

(** *** The quota of [try_add] *)

Lemma step_within_quota is_high M s s' :
  Forall (within_quota M) (threads s) /\ current_value (counter s) <= M ->
  step is_high s s' ->
  Forall (within_quota M) (threads s') /\ current_value (counter s') <= M.
Proof.
  intros [Hall Hcur] Hstep. destruct Hstep as [w w' ths i c p p' Hi Hs].
  cbn [threads counter] in *.
  pose proof (Forall_lookup_1 _ _ _ _ Hall Hi) as (delta & max & Hc & Hmax & Hcas).
  cbn [fst snd] in Hc, Hcas. subst c.
  assert (Hgoal : within_quota M (call_try_add delta max, p') /\ current_value w' <= M);
    [|destruct Hgoal; split; [apply Forall_insert; assumption|assumption]].
  unfold within_quota. cbn [fst snd].
  destruct p as [|old|v|v old|b|]; cbn in Hs; try discriminate.
  - unfold checked_add64, Atomic.load in Hs.
    destruct (decide (in_int64 (current_value_ w + delta))) as [_|_].
    + destruct (Z.gtb_spec (current_value_ w + delta) max) as [Hgt|Hle];
        injection Hs as <- <-; (split; [|exact Hcur]);
        exists delta, max; (split; [reflexivity|]); (split; [exact Hmax|]);
        intros old_val [=]. subst old_val. exact Hle.
    + injection Hs as <- <-. split; [|exact Hcur].
      exists delta, max. split; [reflexivity|]. split; [exact Hmax|]. intros ? [=].
  - unfold Atomic.compare_exchange_strong in Hs.
    destruct (Z.eqb_spec (current_value_ w) old) as [Heq|Hne]; injection Hs as <- <-.
    + split.
      * exists delta, max. split; [reflexivity|]. split; [exact Hmax|]. intros ? [=].
      * unfold current_value, Atomic.load. cbn. specialize (Hcas old eq_refl). lia.
    + split; [|exact Hcur].
      exists delta, max. split; [reflexivity|]. split; [exact Hmax|]. intros ? [=].
  - destruct (extreme is_high (Atomic.load (Counter._value (base w))) v
              =? Atomic.load (Counter._value (base w))); injection Hs as <- <-;
      (split; [|exact Hcur]); exists delta, max;
      (split; [reflexivity|]); (split; [exact Hmax|]); intros ? [=].
  - unfold Atomic.compare_exchange_strong in Hs.
    destruct (Counter._value (base w) =? old); injection Hs as <- <-;
      (split; [|exact Hcur]); exists delta, max;
      (split; [reflexivity|]); (split; [exact Hmax|]); intros ? [=].
Qed.

(** When threads call [try_add] concurrently, each with a bound of at most
    [M], on a counter whose current value is at most [M], the current value is
    at most [M] in every state the system can reach, however the threads'
    loads and compare-exchanges interleave. *)
Theorem concurrent_try_add_respects_quota :
  forall (is_high : bool) (M : Z) (w : t) (calls : list call) (s : sys),
    Forall (fun c => exists delta max, c = call_try_add delta max /\ max <= M) calls ->
    current_value w <= M ->
    rtc (step is_high) (initial w calls) s ->
    current_value (counter s) <= M.
Proof.
  intros is_high M w calls s Hcalls Hcur Hsteps.
  apply (step_invariant is_high
           (fun s => Forall (within_quota M) (threads s) /\ current_value (counter s) <= M)
           (step_within_quota is_high M) _ _ Hsteps).
  split; [|exact Hcur]. apply Forall_initial.
  eapply Forall_impl; [exact Hcalls|]. cbn. intros c (delta & max & -> & Hmax).
  exists delta, max. split; [reflexivity|]. split; [exact Hmax|]. intros ? [=].
Qed.

(** *** No lost addition *)

Lemma applied_total_insert ths i t t' :
  ths !! i = Some t ->
  applied_total (<[i := t']> ths) = applied_total ths - applied t + applied t'.
Proof.
  revert i. induction ths as [|x ths IH]; intros [|i] Hi; simplify_eq/=.
  - lia.
  - rewrite (IH _ Hi). lia.
Qed.

Lemma step_applied is_high (v0 : Z) s s' :
  Forall adding (threads s) /\
  current_value (counter s) = wrap64 (v0 + applied_total (threads s)) ->
  step is_high s s' ->
  Forall adding (threads s') /\
  current_value (counter s') = wrap64 (v0 + applied_total (threads s')).
Proof.
  intros [Hall Hcur] Hstep. destruct Hstep as [w w' ths i c p p' Hi Hs].
  cbn [threads counter] in *.
  pose proof (Forall_lookup_1 _ _ _ _ Hall Hi) as Hadd.
  rewrite (applied_total_insert _ _ _ (c, p') Hi).
  assert (Hgoal : adding (c, p') /\
            current_value w' = wrap64 (current_value w - applied (c, p) + applied (c, p')));
    [|destruct Hgoal as [Ha Hw]; split; [apply Forall_insert; assumption|];
      rewrite Hw, Hcur;
      replace (wrap64 (v0 + applied_total ths) - applied (c, p) + applied (c, p'))
        with (wrap64 (v0 + applied_total ths) + (- applied (c, p) + applied (c, p')))
        by lia;
      rewrite wrap64_add_l; f_equal; lia].
  assert (Hid : current_value w = wrap64 (current_value w)).
  { rewrite Hcur. symmetry. apply wrap64_id, wrap64_in_int64. }
  unfold current_value, Atomic.load in *.
  destruct p as [|old|v|v old|b|]; cbn in Hs; try discriminate.
  - destruct c as [delta|delta max|v]; cbn in Hadd; [| |contradiction].
    + unfold Atomic.fetch_add, checked_add64 in Hs.
      destruct (decide (in_int64 (current_value_ w + delta))); injection Hs as <- <-;
        cbn; (split; [exact I|]); unfold add64; f_equal; lia.
    + unfold checked_add64, Atomic.load in Hs.
      destruct (decide (in_int64 (current_value_ w + delta))) as [Hr|_].
      * destruct (current_value_ w + delta >? max); injection Hs as <- <-; cbn;
          (split; [exact I || exact Hr|]); rewrite Hid at 1; f_equal; lia.
      * injection Hs as <- <-. cbn. split; [exact I|]. rewrite Hid at 1. f_equal. lia.
  - destruct c as [delta|delta max|v]; cbn in Hadd; try contradiction.
    unfold Atomic.compare_exchange_strong in Hs.
    destruct (Z.eqb_spec (current_value_ w) old) as [Heq|Hne]; injection Hs as <- <-; cbn.
    + split; [exact I|]. rewrite Heq. symmetry.
      replace (old - 0 + delta) with (old + delta) by lia. apply wrap64_id, Hadd.
    + split; [exact I|]. rewrite Hid at 1. f_equal. lia.
  - destruct (extreme is_high (Atomic.load (Counter._value (base w))) v
              =? Atomic.load (Counter._value (base w))); injection Hs as <- <-;
      destruct c as [delta|delta max|v']; cbn in Hadd |- *; try contradiction;
      (split; [exact I|]); rewrite Hid at 1; f_equal; lia.
  - unfold Atomic.compare_exchange_strong in Hs.
    destruct (Counter._value (base w) =? old); injection Hs as <- <-;
      destruct c as [delta|delta max|v']; cbn in Hadd |- *; try contradiction;
      (split; [exact I|]); rewrite Hid at 1; f_equal; lia.
Qed.

(** When threads call [add] and [try_add] concurrently, the current value is
    at every moment the initial value plus the deltas applied so far (in
    64-bit arithmetic): once all have returned, that is the delta of every
    [add] and of every [try_add] that returned true, and nothing of a
    [try_add] that returned false. *)
Theorem concurrent_adds_never_lost :
  forall (is_high : bool) (w : t) (calls : list call) (s : sys),
    in_int64 (current_value w) ->
    Forall (fun c => forall v, c <> call_set v) calls ->
    rtc (step is_high) (initial w calls) s ->
    current_value (counter s) = wrap64 (current_value w + applied_total (threads s)).
Proof.
  intros is_high w calls s Hrange Hcalls Hsteps.
  apply (step_invariant is_high
           (fun s => Forall adding (threads s) /\
                     current_value (counter s)
                     = wrap64 (current_value w + applied_total (threads s)))
           (step_applied is_high (current_value w)) _ _ Hsteps).
  split.
  - apply Forall_initial. eapply Forall_impl; [exact Hcalls|]. cbn.
    intros [d|d m|v] Hc; cbn; try exact I. exact (Hc v eq_refl).
  - unfold initial. cbn [counter threads]. assert (Hz : applied_total ((fun c => (c, pc_start)) <$> calls) = 0).
    { clear. induction calls as [|c cs IH]; [reflexivity|].
      change (applied_total ((fun c => (c, pc_start)) <$> c :: cs))
        with (applied (c, pc_start) + applied_total ((fun c => (c, pc_start)) <$> cs)).
      rewrite IH. destruct c; reflexivity. }
    rewrite Hz, Z.add_0_r. symmetry. apply wrap64_id, Hrange.
Qed.


(** *** The recorded extreme *)

(** A step that leaves the current value alone and moves the recorded extreme
    outwards, if at all, keeps the current value accounted for, provided the
    stepping thread was not the one inside the pending [Update]. *)
Lemma accounted_frame is_high w w' ths i c p p' :
  accounted is_high (mkSys w ths) ->
  ths !! i = Some (c, p) ->
  current_value w' = current_value w ->
  (forall x, covers is_high w x -> covers is_high w' x) ->
  (p = pc_undefined \/ (exists v, updating p v) ->
   accounted is_high (mkSys w' (<[i := (c, p')]> ths))) ->
  accounted is_high (mkSys w' (<[i := (c, p')]> ths)).
Proof.
  intros Hacc Hi Hcur Hcov Hself. destruct Hacc as [Hleft|(j & cj & pj & Hj & Hw)].
  - left. cbn in *. rewrite Hcur. apply Hcov, Hleft.
  - cbn [threads counter] in *. destruct (decide (j = i)) as [->|Hne].
    + rewrite Hi in Hj. injection Hj as <- <-. apply Hself.
      destruct Hw as [Hu|(v & Hv & _)]; [left; exact Hu|right; eauto].
    + right. exists j, cj, pj. cbn [threads counter].
      rewrite list_lookup_insert_ne by congruence. split; [exact Hj|].
      rewrite Hcur. exact Hw.
Qed.

(** A thread that has just moved the current value to [v] and entered
    [Update(v)], or has left defined behaviour, accounts for it. *)
Lemma accounted_self is_high w' ths i c p p' :
  ths !! i = Some (c, p) ->
  p' = pc_undefined \/ p' = pc_update (current_value w') ->
  accounted is_high (mkSys w' (<[i := (c, p')]> ths)).
Proof.
  intros Hi Hp. right. exists i, c, p'. cbn [threads counter].
  rewrite list_lookup_insert_eq by (eapply lookup_lt_Some; exact Hi).
  split; [reflexivity|]. destruct Hp as [->| ->]; [left; reflexivity|].
  right. exists (current_value w'). split; [left; reflexivity|].
  destruct is_high; lia.
Qed.

Lemma step_accounted is_high s s' :
  accounted is_high s -> step is_high s s' -> accounted is_high s'.
Proof.
  intros Hacc Hstep. destruct Hstep as [w w' ths i c p p' Hi Hs].
  assert (Hnot : forall q, q = pc_start \/ (exists o, q = pc_try_cas o) ->
            q = pc_undefined \/ (exists v, updating q v) -> False).
  { intros q [->|[o ->]] [[=]|(? & [[=]|(? & [=])])]. }
  destruct p as [|old|v|v old|b|]; cbn in Hs; try discriminate.
  - destruct c as [delta|delta max|v].
    + unfold Atomic.fetch_add, checked_add64 in Hs.
      destruct (decide (in_int64 (current_value_ w + delta))) as [Hr|_];
        injection Hs as <- <-.
      * eapply accounted_self; [exact Hi|].
        right. unfold current_value, Atomic.load, add64. cbn.
        rewrite (wrap64_id _ Hr). reflexivity.
      * eapply accounted_self; [exact Hi|]. left. reflexivity.
    + unfold checked_add64, Atomic.load in Hs.
      destruct (decide (in_int64 (current_value_ w + delta))) as [Hr|_].
      * destruct (current_value_ w + delta >? max); injection Hs as <- <-;
          (eapply accounted_frame; [exact Hacc|exact Hi|reflexivity|auto|]);
          intros Hw; exact (False_ind _ (Hnot _ (or_introl eq_refl) Hw)).
      * injection Hs as <- <-.
        eapply accounted_frame; [exact Hacc|exact Hi|reflexivity|auto|].
        intros Hw; exact (False_ind _ (Hnot _ (or_introl eq_refl) Hw)).
    + injection Hs as <- <-. eapply accounted_self; [exact Hi|]. right. reflexivity.
  - destruct c as [delta|delta max|v']; try discriminate.
    unfold Atomic.compare_exchange_strong in Hs.
    destruct (Z.eqb_spec (current_value_ w) old) as [Heq|Hne]; injection Hs as <- <-.
    + eapply accounted_self; [exact Hi|]. right. reflexivity.
    + eapply accounted_frame; [exact Hacc|exact Hi| | |].
      * destruct w; reflexivity.
      * intros x Hx. destruct w. exact Hx.
      * intros Hw.
        exact (False_ind _ (Hnot _ (or_intror (ex_intro _ old eq_refl)) Hw)).
  - unfold Atomic.load in Hs.
    destruct (Z.eqb_spec (extreme is_high (Counter._value (base w)) v)
                (Counter._value (base w))) as [Heq|Hne]; injection Hs as <- <-.
    + eapply accounted_frame; [exact Hacc|exact Hi|reflexivity|auto|]. intros _.
      destruct Hacc as [Hleft|(j & cj & pj & Hj & Hw)]; [left; exact Hleft|].
      cbn [threads counter] in *. destruct (decide (j = i)) as [->|Hji].
      * rewrite Hi in Hj. injection Hj as <- <-.
        destruct Hw as [[=]|(v' & [[= <-]|(? & [=])] & Hle)].
        left. cbn. unfold covers, value, Counter.value, Atomic.load, extreme in *.
        destruct is_high; lia.
      * right. exists j, cj, pj. cbn [threads counter].
        rewrite list_lookup_insert_ne by congruence. eauto.
    + eapply accounted_frame; [exact Hacc|exact Hi|reflexivity|auto|]. intros _.
      destruct Hacc as [Hleft|(j & cj & pj & Hj & Hw)]; [left; exact Hleft|].
      cbn [threads counter] in *. destruct (decide (j = i)) as [->|Hji].
      * rewrite Hi in Hj. injection Hj as <- <-.
        destruct Hw as [[=]|(v' & [[= <-]|(? & [=])] & Hle)].
        right. exists i, c, (pc_update_cas v (Counter._value (base w))).
        cbn [threads counter].
        rewrite list_lookup_insert_eq by (eapply lookup_lt_Some; exact Hi).
        split; [reflexivity|]. right. exists v. split; [right; eauto|exact Hle].
      * right. exists j, cj, pj. cbn [threads counter].
        rewrite list_lookup_insert_ne by congruence. eauto.
  - unfold Atomic.compare_exchange_strong in Hs.
    destruct (Z.eqb_spec (Counter._value (base w)) old) as [Heq|Hne];
      injection Hs as <- <-.
    + assert (Hgrow : forall x, covers is_high w x ->
                covers is_high
                  (mk (Counter.with_value (extreme is_high old v) (base w))
                      (current_value_ w)) x).
      { intros x Hx. unfold covers, value, Counter.value, Atomic.load, extreme in *.
        cbn. destruct is_high; lia. }
      eapply accounted_frame; [exact Hacc|exact Hi|reflexivity|exact Hgrow|]. intros _.
      destruct Hacc as [Hleft|(j & cj & pj & Hj & Hw)].
      { left. apply Hgrow. exact Hleft. }
      cbn [threads counter] in *. destruct (decide (j = i)) as [->|Hji].
      { rewrite Hi in Hj. injection Hj as <- <-.
        destruct Hw as [[=]|(v' & [[=]|(? & [= <- <-])] & Hle)].
        left. cbn. unfold covers, value, current_value, Counter.value, Atomic.load,
          extreme in *. cbn. destruct is_high; lia. }
      right. exists j, cj, pj. cbn [threads counter].
      rewrite list_lookup_insert_ne by congruence. eauto.
    + assert (Hsame : mk (Counter.with_value (Counter._value (base w)) (base w))
                         (current_value_ w) = w).
      { destruct w as [[? ? ? ? ?] ?]. reflexivity. }
      rewrite Hsame.
      eapply accounted_frame; [exact Hacc|exact Hi|reflexivity|auto|]. intros _.
      destruct Hacc as [Hleft|(j & cj & pj & Hj & Hw)]; [left; exact Hleft|].
      cbn [threads counter] in *. destruct (decide (j = i)) as [->|Hji].
      { rewrite Hi in Hj. injection Hj as <- <-.
        destruct Hw as [[=]|(v' & [[=]|(? & [= <- <-])] & Hle)].
        right. exists i, c, (pc_update v). cbn [threads counter].
        rewrite list_lookup_insert_eq by (eapply lookup_lt_Some; exact Hi).
        split; [reflexivity|]. right. exists v. split; [left; reflexivity|exact Hle]. }
      right. exists j, cj, pj. cbn [threads counter].
      rewrite list_lookup_insert_ne by congruence. eauto.
Qed.

(** When threads call [add], [try_add] and [set] concurrently on a counter
    whose recorded extreme covers its current value, then once all calls have
    returned (none having overflowed) the recorded extreme covers the current
    value again: for a high watermark counter [value()] is at least
    [current_value()], for a low one at most. *)
Theorem concurrent_extreme_covers_current :
  forall (is_high : bool) (w : t) (calls : list call) (s : sys),
    extreme_covers is_high w ->
    rtc (step is_high) (initial w calls) s ->
    all_returned s ->
    extreme_covers is_high (counter s).
Proof.
  intros is_high w calls s Hcov Hsteps Hret.
  assert (Hacc : accounted is_high s).
  { apply (step_invariant is_high (accounted is_high) (step_accounted is_high) _ _ Hsteps).
    left. cbn. unfold covers, extreme_covers in *. destruct is_high; exact Hcov. }
  destruct Hacc as [Hleft|(j & cj & pj & Hj & Hw)].
  - unfold covers, extreme_covers in *. destruct is_high; exact Hleft.
  - exfalso. unfold all_returned in Hret.
    pose proof (Forall_lookup_1 _ _ _ _ Hret Hj) as [b Hb]. cbn in Hb. subst pj.
    destruct Hw as [[=]|(v & [[=]|(? & [=])] & _)].
Qed.


Example quota_run_outcome :
  threads quota_run
    = [(call_try_add 5 10, pc_done true); (call_try_add 7 10, pc_done false);
       (call_try_add 3 10, pc_done true)] /\
  current_value (counter quota_run) = 8 /\ value (counter quota_run) = 8.
Proof. vm_compute. repeat split; reflexivity. Qed.

Lemma quota_calls_bounded :
  Forall (fun c => exists delta max, c = call_try_add delta max /\ max <= 10) quota_calls.
Proof.
  repeat constructor; eexists _, _; (split; [reflexivity|]); vm_compute; discriminate.
Defined.

Lemma concurrent_try_add_respects_quota_witness :
  Forall (fun c => exists delta max, c = call_try_add delta max /\ max <= 10) quota_calls /\
  current_value (HighWaterMarkCounter2 0 TUnit.BYTES 0) <= 10 /\
  current_value (counter quota_run) <= 10.
Proof.
  assert (Hcur : current_value (HighWaterMarkCounter2 0 TUnit.BYTES 0) <= 10)
    by (vm_compute; discriminate).
  split; [exact quota_calls_bounded|]. split; [exact Hcur|].
  exact (concurrent_try_add_respects_quota true 10 _ quota_calls quota_run
           quota_calls_bounded Hcur (watermark_run_schedule_steps true _ _)).
Defined.

Lemma quota_calls_no_set : Forall (fun c => forall v, c <> call_set v) quota_calls.
Proof. repeat constructor; intros v; discriminate. Defined.

Lemma concurrent_adds_never_lost_witness :
  in_int64 (current_value (HighWaterMarkCounter2 0 TUnit.BYTES 0)) /\
  Forall (fun c => forall v, c <> call_set v) quota_calls /\
  current_value (counter quota_run)
    = wrap64 (current_value (HighWaterMarkCounter2 0 TUnit.BYTES 0)
              + applied_total (threads quota_run)).
Proof.
  assert (Hr : in_int64 (current_value (HighWaterMarkCounter2 0 TUnit.BYTES 0)))
    by (split; vm_compute; discriminate).
  split; [exact Hr|]. split; [exact quota_calls_no_set|].
  exact (concurrent_adds_never_lost true _ quota_calls quota_run Hr quota_calls_no_set
           (watermark_run_schedule_steps true _ _)).
Defined.

Lemma concurrent_extreme_covers_current_witness :
  extreme_covers true (HighWaterMarkCounter2 0 TUnit.BYTES 0) /\
  all_returned quota_run /\
  extreme_covers true (counter quota_run).
Proof.
  assert (Hcov : extreme_covers true (HighWaterMarkCounter2 0 TUnit.BYTES 0))
    by (vm_compute; discriminate).
  assert (Hret : all_returned quota_run).
  { unfold all_returned. vm_compute. repeat constructor; eexists; reflexivity. }
  split; [exact Hcov|]. split; [exact Hret|].
  exact (concurrent_extreme_covers_current true _ quota_calls quota_run Hcov
           (watermark_run_schedule_steps true _ _) Hret).
Defined.

End WaterMarkConcurrentFacts.

(** ** The scroll scan reader *)

Section ESScanReaderFacts.

Import ESScanReader.

Context {T : Type} (E : environment T).

(** The constructor needs the index and the batch size and nothing else: it
    throws exactly when one of these two keys is missing.  A reader it builds
    has not reached the end, has no scroll id and has made no call; it is in
    exactly-once mode exactly when [terminate_after] was given, and then has
    no scroll URLs, whereas a scrolling reader has no search URL and continues
    at [target/_search/scroll] with the filter path of its mode. *)
Theorem constructor_requires_index_and_batch_size :
  forall (ssl0 is_first0 : bool) (target : string) (props : gmap string string)
         (doc_value_mode : bool),
    (is_Some (ESScanReader E ssl0 is_first0 target props doc_value_mode) <->
     is_Some (props !! KEY_INDEX E) /\ is_Some (props !! KEY_BATCH_SIZE E)) /\
    (forall r, ESScanReader E ssl0 is_first0 target props doc_value_mode = Some r ->
       _eos r = false /\ _scroll_id r = "" /\ _network_client r = [] /\
       (_exactly_once r = true <-> is_Some (props !! KEY_TERMINATE_AFTER E)) /\
       (_exactly_once r = true -> _init_scroll_url r = "" /\ _next_scroll_url r = "") /\
       (_exactly_once r = false ->
          _search_url r = "" /\
          _next_scroll_url r
          = target +:+ "/_search/scroll?"
            +:+ (if doc_value_mode then DOCVALUE_SCROLL_SEARCH_FILTER_PATH
                 else SOURCE_SCROLL_SEARCH_FILTER_PATH))).
Proof.
  intros ssl0 is_first0 target props doc_value_mode. unfold ESScanReader. split.
  - destruct (props !! KEY_INDEX E) as [index|]; cbn.
    + destruct (props !! KEY_BATCH_SIZE E) as [bs|]; cbn.
      * destruct (props !! KEY_TERMINATE_AFTER E); split; eauto.
      * split; [intros [? [=]]|intros [_ [? [=]]]].
    + split; [intros [? [=]]|intros [[? [=]] _]].
  - intros r Hr.
    destruct (props !! KEY_INDEX E) as [index|]; cbn in Hr; [|discriminate].
    destruct (props !! KEY_BATCH_SIZE E) as [bs|]; cbn in Hr; [|discriminate].
    destruct (props !! KEY_TERMINATE_AFTER E) as [ta|]; injection Hr as <-; cbn.
    + repeat split; eauto; discriminate.
    + repeat split; try discriminate; try reflexivity. intros [? [=]].
Qed.

(** [get_next] reports data only together with success: whenever it returns
    an error, [*scan_eos] is true; and when [*scan_eos] is false the status is
    OK, a parser was handed back and, for a scrolling reader, the batch is not
    empty and its scroll id has been stored for the next request. *)
Theorem get_next_reports_eos_on_error :
  forall (scroll_parser : option T) (r : t),
    let '(st, scan_eos, scroll_parser', r') := get_next E scroll_parser r in
    (ok st = false -> scan_eos = true) /\
    (scan_eos = false ->
       st = OK /\
       exists parser, scroll_parser' = Some parser /\
         (_exactly_once r = false ->
            get_size E parser <> 0 /\ _scroll_id r' = get_scroll_id E parser)).
Proof.
  intros sp r. unfold get_next.
  assert (Hparse : forall response r0,
            _exactly_once r0 = _exactly_once r ->
            let '(st, scan_eos, scroll_parser', r') := parse_response E response r0 in
            (ok st = false -> scan_eos = true) /\
            (scan_eos = false ->
               st = OK /\
               exists parser, scroll_parser' = Some parser /\
                 (_exactly_once r = false ->
                    get_size E parser <> 0 /\ _scroll_id r' = get_scroll_id E parser))).
  { intros response r0 Hx. unfold parse_response.
    destruct (parse E response (_exactly_once r0) (new_parser E (_doc_value_mode r0)))
      as [status parser].
    destruct (ok status) eqn:Hok; cbn [negb].
    - rewrite Hx. destruct (_exactly_once r) eqn:Hex.
      + split; [discriminate|]. intros _. split; [reflexivity|].
        exists parser. split; [reflexivity|]. discriminate.
      + destruct (Z.eqb_spec (get_size E parser) 0) as [Hz|Hnz].
        * split; [reflexivity|]. discriminate.
        * split; [discriminate|]. intros _. split; [reflexivity|].
          exists parser. split; [reflexivity|]. intros _. split; [exact Hnz|reflexivity].
    - split; [reflexivity|]. discriminate. }
  destruct (_eos r); [split; [reflexivity|discriminate]|].
  destruct (_is_first r); [apply Hparse; reflexivity|].
  destruct (_exactly_once r) eqn:Hex; [split; [reflexivity|discriminate]|].
  destruct (ok (init_status E _)); cbn [negb]; [|split; [reflexivity|discriminate]].
  destruct (post_result E _ "") as [st response].
  destruct (ok st); cbn [negb]; [|split; [reflexivity|discriminate]].
  destruct (_ =? 404); [split; [reflexivity|discriminate]|].
  destruct (_ =? 200); cbn [negb]; [|split; [reflexivity|discriminate]].
  apply Hparse.
  unfold call, maybe_trust_all_ssl, maybe_basic_auth, call.
  repeat match goal with |- context [if ?b then _ else _] => destruct b end; exact Hex.
Qed.


Lemma open_fields r :
  _eos (open E r).2 = _eos r /\ _exactly_once (open E r).2 = _exactly_once r /\
  _scroll_id (open E r).2 = _scroll_id r.
Proof.
  unfold open, maybe_trust_all_ssl, maybe_basic_auth, call.
  repeat match goal with
         | |- context [if ?b then _ else _] => destruct b
         | |- context [let '(_, _) := ?x in _] => destruct x
         end; cbn; auto.
Qed.

Lemma get_next_at_eos sp r : _eos r = true -> get_next E sp r = (OK, true, sp, r).
Proof. intros Heos. unfold get_next. rewrite Heos. reflexivity. Qed.

(** The end of the stream is final: once [_eos] is set, no sequence of
    [open], [get_next] and [close] calls clears it, and every [get_next]
    afterwards returns OK with [*scan_eos] true, hands the scroll parser back
    untouched, changes nothing in the reader and sends nothing. *)
Theorem eos_is_final :
  forall (r : t) (qs : list request) (scroll_parser : option T),
    _eos r = true ->
    _eos (run_requests E qs r) = true /\
    get_next E scroll_parser (run_requests E qs r)
      = (OK, true, scroll_parser, run_requests E qs r).
Proof.
  intros r qs sp Heos.
  assert (Hkeep : _eos (run_requests E qs r) = true).
  { revert r Heos. induction qs as [|q qs IH]; intros r Heos; [exact Heos|].
    cbn. apply IH. destruct q; cbn.
    - rewrite (proj1 (open_fields r)). exact Heos.
    - rewrite (get_next_at_eos None r Heos). exact Heos.
    - exact Heos. }
  split; [exact Hkeep|]. apply get_next_at_eos, Hkeep.
Qed.

(** In exactly-once mode [get_next] never makes a call on the HTTP client,
    and it hands out data at most once: whatever the first call did, the call
    after it returns OK with [*scan_eos] true and changes nothing. *)
Theorem exactly_once_reads_once :
  forall (r : t) (scroll_parser scroll_parser2 : option T),
    _exactly_once r = true ->
    let r1 := (get_next E scroll_parser r).2 in
    _network_client r1 = _network_client r /\
    _exactly_once r1 = true /\
    get_next E scroll_parser2 r1 = (OK, true, scroll_parser2, r1).
Proof.
  intros r sp sp2 Hex r1. subst r1.
  destruct (_eos r) eqn:Heos.
  - rewrite (get_next_at_eos sp r Heos). cbn [snd].
    split; [reflexivity|]. split; [exact Hex|]. apply get_next_at_eos, Heos.
  - destruct (_is_first r) eqn:Hfirst.
    + assert (Hg : exists st b p,
                get_next E sp r = (st, b, p, with_eos true (with_is_first false r))).
      { unfold get_next. rewrite Heos, Hfirst. unfold parse_response.
        cbn [_exactly_once with_is_first]. rewrite Hex.
        destruct (parse E _ true _) as [status parser].
        destruct (ok status); cbn; eauto. }
      destruct Hg as (st & b & p & ->). cbn [snd].
      split; [reflexivity|]. split; [exact Hex|]. apply get_next_at_eos. reflexivity.
    + assert (Hg : forall p, get_next E p r = (OK, true, p, r)).
      { intros p. unfold get_next. rewrite Heos, Hfirst, Hex. reflexivity. }
      rewrite (Hg sp). cbn [snd]. split; [reflexivity|]. split; [exact Hex|]. apply Hg.
Qed.

(** The first batch of a scrolling reader comes from the response cached by
    [open], without any call on the HTTP client.  If it parses, the parser's
    scroll id is stored; an empty batch ends the scan at once, a batch shorter
    than the batch size is handed out and ends the scan for the calls that
    follow, and a full batch leaves the scan open. *)
Theorem first_batch_decides_end :
  forall (r : t) (scroll_parser : option T) (status : Status) (parser : T),
    _eos r = false -> _is_first r = true -> _exactly_once r = false ->
    parse E (_cached_response r) false (new_parser E (_doc_value_mode r)) = (status, parser) ->
    ok status = true ->
    let '(st, scan_eos, scroll_parser', r') := get_next E scroll_parser r in
    st = OK /\ scroll_parser' = Some parser /\
    _network_client r' = _network_client r /\
    _scroll_id r' = get_scroll_id E parser /\
    _is_first r' = false /\
    scan_eos = (get_size E parser =? 0) /\
    _eos r' = (get_size E parser =? 0) || (get_size E parser <? _batch_size r).
Proof.
  intros r sp status parser Heos Hfirst Hex Hparse Hok.
  unfold get_next. rewrite Heos, Hfirst. unfold parse_response.
  cbn [_exactly_once _doc_value_mode _cached_response with_is_first].
  rewrite Hex, Hparse, Hok. cbn [negb].
  destruct (get_size E parser =? 0); cbn; repeat split; reflexivity.
Qed.


(** [get_next] on a scrolling reader that is past its first batch, with the
    calls of the follow-up request gathered. *)
Lemma get_next_follow_up sp r :
  _eos r = false -> _is_first r = false -> _exactly_once r = false ->
  get_next E sp r =
    if negb (ok (init_status E (_network_client r ++ [cc_init (_next_scroll_url r)])))
    then (init_status E (_network_client r ++ [cc_init (_next_scroll_url r)]), true, sp,
          with_client (_network_client r ++ [cc_init (_next_scroll_url r)]) r)
    else
      let r1 := with_client (_network_client r ++ follow_up_calls E r) r in
      let '(st, response) := post_result E (_network_client r ++ follow_up_calls E r) "" in
      if negb (ok st) then (st, true, sp, r1)
      else if http_status E (_network_client r ++ follow_up_calls E r) =? 404
      then (InternalError ("No search context found for " +:+ _scroll_id r), true, sp, r1)
      else if negb (http_status E (_network_client r ++ follow_up_calls E r) =? 200)
      then (InternalError ("request scroll search failure: "
                           +:+ (if empty response then "empty response" else response)),
            true, sp, r1)
      else parse_response E response r1.
Proof.
  intros Heos Hfirst Hex. unfold get_next. rewrite Heos, Hfirst, Hex.
  unfold follow_up_calls, maybe_basic_auth, maybe_trust_all_ssl, call.
  destruct r as [ka tm dv tg ix ty un pw sh qu ssl bs eo su iu nu eos fst cr sid nc].
  cbn [with_client _network_client _user_name _passwd _ssl_enabled _scroll_id
       _scroll_keep_alive _http_timeout_ms _next_scroll_url _scroll_keep_alive
       _doc_value_mode _target _index _type _shards _query _batch_size _exactly_once
       _search_url _init_scroll_url _eos _is_first _cached_response].
  destruct (ok (init_status E (nc ++ [cc_init nu]))); cbn [negb]; [|reflexivity].
  destruct (negb (empty un) || negb (empty pw)); destruct ssl;
    cbn [with_client _network_client _user_name _passwd _ssl_enabled _scroll_id
         _scroll_keep_alive _http_timeout_ms _next_scroll_url _scroll_keep_alive
         _doc_value_mode _target _index _type _shards _query _batch_size _exactly_once
         _search_url _init_scroll_url _eos _is_first _cached_response app];
    rewrite <- ?app_assoc; cbn [app]; reflexivity.
Qed.

Lemma parse_response_client response r :
  _network_client (parse_response E response r).2 = _network_client r.
Proof.
  unfold parse_response. destruct (parse E _ _ _) as [ps pp].
  destruct (ok ps); cbn [negb]; [|reflexivity].
  destruct (_exactly_once r); [reflexivity|].
  destruct (_ =? 0); reflexivity.
Qed.

(** Past its first batch, a scrolling reader that has not reached the end
    always begins [get_next] with a call on the HTTP client. *)
Lemma get_next_sends sp r :
  _eos r = false -> _is_first r = false -> _exactly_once r = false ->
  exists more,
    _network_client (get_next E sp r).2
    = _network_client r ++ cc_init (_next_scroll_url r) :: more.
Proof.
  intros H1 H2 H3. rewrite (get_next_follow_up sp r H1 H2 H3).
  destruct (ok (init_status E _)); cbn [negb]; [|exists []; reflexivity].
  cbn zeta. destruct (post_result E _ "") as [st1 resp1].
  unfold follow_up_calls. cbn [app].
  destruct (ok st1); cbn [negb]; [|eexists; reflexivity].
  destruct (_ =? 404); [eexists; reflexivity|].
  destruct (_ =? 200); cbn [negb]; [|eexists; reflexivity].
  rewrite parse_response_client. eexists; reflexivity.
Qed.

(** A follow-up request of a scrolling reader goes to the scroll URL, with
    basic authentication exactly when a user name or a password is
    configured, as JSON, with the configured timeout, and carries the stored
    scroll id.  When the server answers 404 or any other status than 200,
    [get_next] returns an internal error that quotes the scroll id or the
    response, reports [*scan_eos], and keeps the parser, the scroll id and an
    open scan, so that the request can be made again. *)
Theorem follow_up_request_errors_keep_scan_open :
  forall (r : t) (scroll_parser : option T) (st : Status) (response : string),
    _eos r = false -> _is_first r = false -> _exactly_once r = false ->
    ok (init_status E (_network_client r ++ [cc_init (_next_scroll_url r)])) = true ->
    post_result E (_network_client r ++ follow_up_calls E r) "" = (st, response) ->
    ok st = true ->
    http_status E (_network_client r ++ follow_up_calls E r) <> 200 ->
    let '(status, scan_eos, scroll_parser', r') := get_next E scroll_parser r in
    status
      = InternalError
          (if http_status E (_network_client r ++ follow_up_calls E r) =? 404
           then "No search context found for " +:+ _scroll_id r
           else "request scroll search failure: "
                +:+ (if empty response then "empty response" else response)) /\
    scan_eos = true /\ scroll_parser' = scroll_parser /\
    _network_client r' = _network_client r ++ follow_up_calls E r /\
    _eos r' = false /\ _scroll_id r' = _scroll_id r /\
    exists more,
      _network_client (get_next E scroll_parser r').2
      = _network_client r' ++ cc_init (_next_scroll_url r) :: more.
Proof.
  intros r sp st response Heos Hfirst Hex Hinit Hpost Hok Hcode.
  rewrite (get_next_follow_up sp r Heos Hfirst Hex), Hinit. cbn [negb].
  cbn zeta. rewrite Hpost, Hok. cbn [negb].
  assert (Hnext : exists more,
            _network_client
              (get_next E sp (with_client (_network_client r ++ follow_up_calls E r) r)).2
            = _network_client (with_client (_network_client r ++ follow_up_calls E r) r)
              ++ cc_init (_next_scroll_url r) :: more).
  { apply (get_next_sends sp (with_client (_network_client r ++ follow_up_calls E r) r));
      assumption. }
  destruct (Z.eqb_spec (http_status E (_network_client r ++ follow_up_calls E r)) 404).
  - repeat split; try reflexivity; try assumption.
  - destruct (Z.eqb_spec (http_status E (_network_client r ++ follow_up_calls E r)) 200);
      [contradiction|]. cbn [negb].
    repeat split; try reflexivity; try assumption.
Qed.


Lemma constructed_fields ssl0 is_first0 target props doc_value_mode r :
  ESScanReader E ssl0 is_first0 target props doc_value_mode = Some r ->
  _scroll_id r = "" /\
  (is_Some (props !! KEY_TERMINATE_AFTER E) -> _exactly_once r = true).
Proof.
  unfold ESScanReader. intros Hr.
  destruct (props !! KEY_INDEX E) as [index|]; cbn in Hr; [|discriminate].
  destruct (props !! KEY_BATCH_SIZE E) as [bs|]; cbn in Hr; [|discriminate].
  destruct (props !! KEY_TERMINATE_AFTER E) as [ta|]; injection Hr as <-; cbn.
  - auto.
  - split; [reflexivity|]. intros [? [=]].
Qed.

Lemma get_next_exactly_once_fields sp r :
  _exactly_once r = true ->
  _exactly_once (get_next E sp r).2 = true /\ _scroll_id (get_next E sp r).2 = _scroll_id r.
Proof.
  intros Hex. unfold get_next, parse_response.
  cbn [_exactly_once with_is_first]. rewrite Hex.
  destruct (_eos r); [auto|]. destruct (_is_first r); [|auto].
  destruct (parse E _ _ _) as [ps pp]. destruct (ok ps); cbn; auto.
Qed.

(** [close] never fails, and it offers a task to the thread pool exactly
    when a scroll id is stored.  A reader that the constructor built in
    exactly-once mode never stores one, so whatever calls were made on it,
    [close] offers nothing. *)
Theorem close_exactly_once_offers_nothing :
  forall (ssl0 is_first0 : bool) (target : string) (props : gmap string string)
         (doc_value_mode : bool) (r : t) (qs : list request),
    ESScanReader E ssl0 is_first0 target props doc_value_mode = Some r ->
    is_Some (props !! KEY_TERMINATE_AFTER E) ->
    close E (run_requests E qs r) = (OK, None).
Proof.
  intros ssl0 is_first0 target props dv r qs Hr Hta.
  destruct (constructed_fields ssl0 is_first0 target props dv r Hr)
    as (Hid & Hex).
  apply Hex in Hta. clear Hr Hex.
  assert (Hinv : _exactly_once (run_requests E qs r) = true /\
                 _scroll_id (run_requests E qs r) = "").
  { revert r Hid Hta. induction qs as [|q qs IH]; intros r Hid Hta; [auto|].
    cbn. apply IH; destruct q; cbn.
    - rewrite (proj2 (proj2 (open_fields r))). exact Hid.
    - rewrite (proj2 (get_next_exactly_once_fields None r Hta)). exact Hid.
    - exact Hid.
    - rewrite (proj1 (proj2 (open_fields r))). exact Hta.
    - exact (proj1 (get_next_exactly_once_fields None r Hta)).
    - exact Hta. }
  unfold close. rewrite (proj2 Hinv). reflexivity.
Qed.

(** When the first batch of a scrolling reader parses and carries a scroll
    id, [close] after it returns OK and offers the task that clears exactly
    this scroll id: a DELETE request to [target/_search/scroll] with the
    reader's credentials and SSL setting and a timeout of five seconds. *)
Theorem close_clears_scroll_of_first_batch :
  forall (r : t) (scroll_parser : option T) (status : Status) (parser : T),
    _eos r = false -> _is_first r = true -> _exactly_once r = false ->
    parse E (_cached_response r) false (new_parser E (_doc_value_mode r)) = (status, parser) ->
    ok status = true ->
    get_scroll_id E parser <> "" ->
    exists task,
      close E (get_next E scroll_parser r).2 = (OK, Some task) /\
      head task = Some (cc_init (_target r +:+ "/_search/scroll")) /\
      last task
        = Some (cc_execute_delete_request (build_clear_scroll_body E (get_scroll_id E parser))) /\
      In cc_set_method_delete task /\
      In (cc_set_timeout_ms 5000) task /\
      (In (cc_set_basic_auth (_user_name r) (_passwd r)) task
       <-> _user_name r <> "" \/ _passwd r <> "") /\
      (In cc_trust_all_ssl task <-> _ssl_enabled r = true) /\
      forall payload, ~ In (cc_execute_post_request payload) task.
Proof.
  intros r sp status parser Heos Hfirst Hex Hparse Hok Hid.
  unfold get_next. rewrite Heos, Hfirst. unfold parse_response.
  cbn [_exactly_once _doc_value_mode _cached_response with_is_first].
  rewrite Hex, Hparse, Hok. cbn [negb].
  assert (Hclose : forall b,
            close E (with_eos b (with_scroll_id (get_scroll_id E parser) (with_is_first false r)))
            = (OK, Some (send_del_request E (_user_name r) (_passwd r) (_ssl_enabled r)
                           (get_scroll_id E parser) (_target r +:+ "/_search/scroll")))).
  { intros b. unfold close. cbn [_scroll_id with_eos with_scroll_id].
    unfold empty. rewrite bool_decide_eq_false_2 by exact Hid. reflexivity. }
  eexists.
  split.
  { destruct (get_size E parser =? 0); cbn [snd]; apply Hclose. }
  unfold send_del_request, empty.
  split; [reflexivity|].
  split.
  { rewrite !app_assoc. apply last_snoc. }
  split; [rewrite !in_app_iff; cbn; tauto|].
  split; [rewrite !in_app_iff; cbn; tauto|].
  split.
  { destruct (decide (_user_name r = "")) as [Hu|Hu], (decide (_passwd r = "")) as [Hp|Hp];
      rewrite ?(bool_decide_eq_true_2 _ Hu), ?(bool_decide_eq_true_2 _ Hp),
              ?(bool_decide_eq_false_2 _ Hu), ?(bool_decide_eq_false_2 _ Hp);
      cbn [negb orb]; rewrite !in_app_iff; cbn [In];
      destruct (_ssl_enabled r); cbn [In];
      (split; [intros H; repeat (destruct H as [H|H]; try discriminate H); tauto| intros H; tauto]). }
  split.
  { rewrite !in_app_iff.
    destruct (negb _ || negb _); destruct (_ssl_enabled r); cbn [In];
      (split; [intros H; repeat (destruct H as [H|H]; try discriminate H); tauto
              | intros H; try discriminate H; tauto]). }
  intros payload. rewrite !in_app_iff.
  destruct (negb _ || negb _); destruct (_ssl_enabled r); cbn [In];
    intros H; repeat (destruct H as [H|H]; try discriminate H); exact H.
Qed.

(** [open] with its calls on the HTTP client gathered. *)
Lemma open_gathered r :
  open E r =
    let url := if _exactly_once r then _search_url r else _init_scroll_url r in
    let r0 := with_is_first true r in
    if negb (ok (init_status E (_network_client r ++ [cc_init url])))
    then (init_status E (_network_client r ++ [cc_init url]),
          with_client (_network_client r ++ [cc_init url]) r0)
    else
      let calls := _network_client r ++ open_calls r in
      let '(status, response) := post_result E calls (_cached_response r) in
      let r1 := with_cached_response response (with_client calls r0) in
      if negb (ok status) || negb (http_status E calls =? 200)
      then (InternalError ("Failed to connect to ES server, errmsg is: " +:+ message status),
            r1)
      else (OK, r1).
Proof.
  unfold open, open_calls, maybe_basic_auth, maybe_trust_all_ssl, call.
  destruct r as [ka tm dv tg ix ty un pw sh qu ssl bs eo su iu nu eos fst cr sid nc].
  cbn [with_client with_is_first _network_client _user_name _passwd _ssl_enabled _scroll_id
       _scroll_keep_alive _http_timeout_ms _next_scroll_url _scroll_keep_alive
       _doc_value_mode _target _index _type _shards _query _batch_size _exactly_once
       _search_url _init_scroll_url _eos _is_first _cached_response].
  destruct (ok (init_status E _)); cbn [negb]; [|reflexivity].
  destruct (negb (empty un) || negb (empty pw)); destruct ssl;
    cbn [with_client with_is_first _network_client _user_name _passwd _ssl_enabled _scroll_id
         _scroll_keep_alive _http_timeout_ms _next_scroll_url _scroll_keep_alive
         _doc_value_mode _target _index _type _shards _query _batch_size _exactly_once
         _search_url _init_scroll_url _eos _is_first _cached_response app];
    rewrite <- ?app_assoc; cbn [app]; reflexivity.
Qed.

Lemma ok_OK st : ok st = true -> st = OK.
Proof. destruct st; [reflexivity|discriminate|discriminate]. Qed.

(** [open] succeeds exactly when the client accepts the URL, the POST
    request succeeds and the server answers 200.  Its request goes to the
    search URL in exactly-once mode and to the first scroll URL otherwise, and
    sets no timeout.  In every case the reader is afterwards at its first
    batch, and in no case does [open] touch [_eos] or the scroll id. *)
Theorem open_succeeds_iff_post_answers_200 :
  forall (r : t),
    let url := if _exactly_once r then _search_url r else _init_scroll_url r in
    let calls := _network_client r ++ open_calls r in
    ((open E r).1 = OK <->
       ok (init_status E (_network_client r ++ [cc_init url])) = true /\
       ok (post_result E calls (_cached_response r)).1 = true /\
       http_status E calls = 200) /\
    (ok (init_status E (_network_client r ++ [cc_init url])) = true ->
       _network_client (open E r).2 = calls /\
       _cached_response (open E r).2 = (post_result E calls (_cached_response r)).2) /\
    (ok (init_status E (_network_client r ++ [cc_init url])) = false ->
       (open E r).1 = init_status E (_network_client r ++ [cc_init url]) /\
       _network_client (open E r).2 = _network_client r ++ [cc_init url] /\
       _cached_response (open E r).2 = _cached_response r) /\
    head (open_calls r) = Some (cc_init url) /\
    (forall ms, ~ In (cc_set_timeout_ms ms) (open_calls r)) /\
    _is_first (open E r).2 = true /\
    _eos (open E r).2 = _eos r /\ _scroll_id (open E r).2 = _scroll_id r.
Proof.
  intros r url calls. subst url calls.
  split; [|split; [|split; [|split; [reflexivity|split]]]].
  - rewrite (open_gathered r). cbn zeta.
    destruct (ok (init_status E _)) eqn:Hinit; cbn [negb].
    + destruct (post_result E _ _) as [st response]. cbn [fst].
      destruct (ok st) eqn:Hst; cbn [negb orb].
      * destruct (Z.eqb_spec (http_status E (_network_client r ++ open_calls r)) 200);
          cbn [negb fst]; split; try tauto; try discriminate.
      * cbn [fst]. split; [discriminate|]. intros (_ & [=] & _).
    + cbn [fst]. split; [|intros ([=] & _)].
      intros Heq. rewrite Heq in Hinit. discriminate.
  - intros Hinit. rewrite (open_gathered r). cbn zeta. rewrite Hinit. cbn [negb].
    destruct (post_result E _ _) as [st response].
    destruct (negb (ok st) || negb _); cbn; auto.
  - intros Hinit. rewrite (open_gathered r). cbn zeta. rewrite Hinit. cbn [negb].
    cbn. auto.
  - intros ms. unfold open_calls. rewrite !in_app_iff.
    destruct (negb _ || negb _); destruct (_ssl_enabled r); cbn [In];
      intros H; repeat (destruct H as [H|H]; try discriminate H); exact H.
  - split; [|exact (conj (proj1 (open_fields r)) (proj2 (proj2 (open_fields r))))].
    rewrite (open_gathered r). cbn zeta.
    destruct (ok (init_status E _)); cbn [negb]; [|reflexivity].
    destruct (post_result E _ _) as [st response].
    destruct (negb (ok st) || negb _); reflexivity.
Qed.

(** After a successful [open] of a reader that has not reached the end, the
    first [get_next] makes no call on the HTTP client: it parses the response
    that the request of [open] received, with a new parser, returns the
    parser's status and hands that parser back. *)
Theorem open_caches_first_batch :
  forall (r r' : t) (scroll_parser : option T),
    _eos r = false ->
    open E r = (OK, r') ->
    exists response,
      post_result E (_network_client r ++ open_calls r) (_cached_response r)
        = (OK, response) /\
      let parsed := parse E response (_exactly_once r) (new_parser E (_doc_value_mode r)) in
      let '(st, scan_eos, scroll_parser', r'') := get_next E scroll_parser r' in
      st = parsed.1 /\ scroll_parser' = Some parsed.2 /\
      _network_client r'' = _network_client r ++ open_calls r /\
      _is_first r'' = false /\
      (ok parsed.1 = false -> scan_eos = true /\ _eos r'' = true).
Proof.
  intros r r' sp Heos Hopen. rewrite (open_gathered r) in Hopen. cbn zeta in Hopen.
  destruct (ok (init_status E _)) eqn:Hinit; cbn [negb] in Hopen.
  2:{ injection Hopen as Hst _. rewrite Hst in Hinit. discriminate. }
  destruct (post_result E _ _) as [st response].
  destruct (ok st) eqn:Hst; cbn [negb orb] in Hopen; [|discriminate].
  destruct (negb _); [discriminate|]. injection Hopen as <-.
  exists response. split; [rewrite (ok_OK st Hst); reflexivity|].
  cbn zeta. unfold get_next.
  cbn [_eos _is_first with_cached_response with_client with_is_first].
  rewrite Heos. unfold parse_response.
  cbn [_exactly_once _doc_value_mode _cached_response with_is_first with_cached_response
       with_client].
  destruct (parse E response (_exactly_once r) (new_parser E (_doc_value_mode r)))
    as [ps pp]. cbn [fst snd].
  destruct (ok ps) eqn:Hps; cbn [negb].
  - rewrite (ok_OK ps Hps).
    destruct (_exactly_once r); [cbn; repeat split; discriminate|].
    destruct (_ =? 0); cbn; repeat split; discriminate.
  - cbn. repeat split.
Qed.

(** A parse failure ends the scan for good and is reported once: the first
    [get_next] returns the parser's error with [*scan_eos] true and sets
    [_eos], leaving the scroll id alone, and the call after it returns OK with
    [*scan_eos] true without parsing or sending anything. *)
Theorem parse_failure_is_reported_once :
  forall (r : t) (scroll_parser scroll_parser2 : option T) (status : Status) (parser : T),
    _eos r = false -> _is_first r = true ->
    parse E (_cached_response r) (_exactly_once r) (new_parser E (_doc_value_mode r))
      = (status, parser) ->
    ok status = false ->
    let '(st, scan_eos, scroll_parser', r') := get_next E scroll_parser r in
    st = status /\ scan_eos = true /\ scroll_parser' = Some parser /\
    _eos r' = true /\ _scroll_id r' = _scroll_id r /\
    _network_client r' = _network_client r /\
    get_next E scroll_parser2 r' = (OK, true, scroll_parser2, r').
Proof.
  intros r sp sp2 status parser Heos Hfirst Hparse Hok.
  unfold get_next at 1. rewrite Heos, Hfirst. unfold parse_response.
  cbn [_exactly_once _doc_value_mode _cached_response with_is_first].
  rewrite Hparse, Hok. cbn [negb].
  repeat split.
Qed.

(** A follow-up request that the server answers with 200 and that parses
    replaces the stored scroll id by the one of the new batch, and decides
    the end like the first batch: an empty batch ends the scan at once, a
    batch shorter than the batch size is handed out and ends it for the calls
    that follow. *)
Theorem follow_up_batch_refreshes_scroll_id :
  forall (r : t) (scroll_parser : option T) (response : string) (status : Status)
         (parser : T),
    _eos r = false -> _is_first r = false -> _exactly_once r = false ->
    ok (init_status E (_network_client r ++ [cc_init (_next_scroll_url r)])) = true ->
    post_result E (_network_client r ++ follow_up_calls E r) "" = (OK, response) ->
    http_status E (_network_client r ++ follow_up_calls E r) = 200 ->
    parse E response false (new_parser E (_doc_value_mode r)) = (status, parser) ->
    ok status = true ->
    let '(st, scan_eos, scroll_parser', r') := get_next E scroll_parser r in
    st = OK /\ scroll_parser' = Some parser /\
    _network_client r' = _network_client r ++ follow_up_calls E r /\
    _scroll_id r' = get_scroll_id E parser /\
    scan_eos = (get_size E parser =? 0) /\
    _eos r' = (get_size E parser =? 0) || (get_size E parser <? _batch_size r).
Proof.
  intros r sp response status parser Heos Hfirst Hex Hinit Hpost Hcode Hparse Hok.
  rewrite (get_next_follow_up sp r Heos Hfirst Hex), Hinit. cbn [negb].
  cbn zeta. rewrite Hpost, Hcode. cbn [ok negb Z.eqb Pos.eqb].
  unfold parse_response. cbn [_exactly_once _doc_value_mode with_client].
  rewrite Hex, Hparse, Hok. cbn [negb].
  destruct (get_size E parser =? 0); cbn; repeat split; reflexivity.
Qed.

End ESScanReaderFacts.

Section ESScanReaderExamples.

Import ESScanReader.

Lemma eos_is_final_witness :
  _eos (with_eos true example_started) = true /\
  _eos (run_requests example_environment [req_open; req_get_next]
          (with_eos true example_started)) = true /\
  get_next example_environment None
    (run_requests example_environment [req_open; req_get_next]
       (with_eos true example_started))
  = (OK, true, None,
     run_requests example_environment [req_open; req_get_next]
       (with_eos true example_started)).
Proof.
  assert (Heos : _eos (with_eos true example_started) = true) by reflexivity.
  split; [exact Heos|].
  exact (eos_is_final example_environment (with_eos true example_started)
           [req_open; req_get_next] None Heos).
Defined.

Example example_reader_built : example_reader = Some example_scrolling.
Proof. vm_compute. reflexivity. Qed.

Example example_once_reader_built : example_once_reader = Some example_once.
Proof. vm_compute. reflexivity. Qed.

Lemma exactly_once_reads_once_witness :
  _exactly_once example_once = true /\
  let r1 := (get_next example_environment None example_once).2 in
  _network_client r1 = _network_client example_once /\
  _exactly_once r1 = true /\
  get_next example_environment None r1 = (OK, true, None, r1).
Proof.
  assert (Hex : _exactly_once example_once = true) by reflexivity.
  split; [exact Hex|].
  exact (exactly_once_reads_once example_environment example_once None None Hex).
Defined.

Lemma first_batch_decides_end_witness :
  _eos example_opened = false /\ _is_first example_opened = true /\
  _exactly_once example_opened = false /\
  let '(st, scan_eos, scroll_parser', r') :=
    get_next example_environment None example_opened in
  st = OK /\ scroll_parser' = Some ("hits", 4) /\
  _network_client r' = _network_client example_opened /\
  _scroll_id r' = get_scroll_id example_environment ("hits", 4) /\
  _is_first r' = false /\
  scan_eos = (get_size example_environment ("hits", 4) =? 0) /\
  _eos r' = (get_size example_environment ("hits", 4) =? 0)
            || (get_size example_environment ("hits", 4) <? _batch_size example_opened).
Proof.
  assert (Heos : _eos example_opened = false) by reflexivity.
  assert (Hfirst : _is_first example_opened = true) by reflexivity.
  assert (Hex : _exactly_once example_opened = false) by reflexivity.
  assert (Hparse : parse example_environment (_cached_response example_opened) false
                     (new_parser example_environment (_doc_value_mode example_opened))
                   = (OK, ("hits", 4))) by reflexivity.
  split; [exact Heos|]. split; [exact Hfirst|]. split; [exact Hex|].
  exact (first_batch_decides_end example_environment example_opened None OK ("hits", 4)
           Heos Hfirst Hex Hparse eq_refl).
Defined.

Lemma follow_up_request_errors_keep_scan_open_witness :
  _eos example_started = false /\ _is_first example_started = false /\
  _exactly_once example_started = false /\
  http_status example_gone_environment
    (_network_client example_started ++ follow_up_calls example_gone_environment example_started)
    <> 200 /\
  let '(status, scan_eos, scroll_parser', r') :=
    get_next example_gone_environment None example_started in
  status
    = InternalError
        (if http_status example_gone_environment
              (_network_client example_started
               ++ follow_up_calls example_gone_environment example_started) =? 404
         then "No search context found for " +:+ _scroll_id example_started
         else "request scroll search failure: "
              +:+ (if empty "hits" then "empty response" else "hits")) /\
  scan_eos = true /\ scroll_parser' = None /\
  _network_client r'
    = _network_client example_started
      ++ follow_up_calls example_gone_environment example_started /\
  _eos r' = false /\ _scroll_id r' = _scroll_id example_started /\
  exists more,
    _network_client (get_next example_gone_environment None r').2
    = _network_client r' ++ cc_init (_next_scroll_url example_started) :: more.
Proof.
  assert (Heos : _eos example_started = false) by reflexivity.
  assert (Hfirst : _is_first example_started = false) by reflexivity.
  assert (Hex : _exactly_once example_started = false) by reflexivity.
  assert (Hcode : http_status example_gone_environment
                    (_network_client example_started
                     ++ follow_up_calls example_gone_environment example_started)
                  <> 200) by (vm_compute; discriminate).
  split; [exact Heos|]. split; [exact Hfirst|]. split; [exact Hex|]. split; [exact Hcode|].
  exact (follow_up_request_errors_keep_scan_open example_gone_environment example_started
           None OK "hits" Heos Hfirst Hex eq_refl eq_refl eq_refl Hcode).
Defined.

Lemma close_exactly_once_offers_nothing_witness :
  ESScanReader example_environment false false "http://es:9200"
    (<["limit" := "10"]> example_props) false = Some example_once /\
  is_Some ((<["limit" := "10"]> example_props : gmap string string)
             !! KEY_TERMINATE_AFTER example_environment) /\
  close example_environment
    (run_requests example_environment [req_open; req_get_next; req_get_next] example_once)
  = (OK, None).
Proof.
  assert (Hr : ESScanReader example_environment false false "http://es:9200"
                 (<["limit" := "10"]> example_props) false = Some example_once)
    by (vm_compute; reflexivity).
  assert (Hta : is_Some ((<["limit" := "10"]> example_props : gmap string string)
                           !! KEY_TERMINATE_AFTER example_environment))
    by (exists "10"; vm_compute; reflexivity).
  split; [exact Hr|]. split; [exact Hta|].
  exact (close_exactly_once_offers_nothing example_environment false false "http://es:9200"
           (<["limit" := "10"]> example_props) false example_once
           [req_open; req_get_next; req_get_next] Hr Hta).
Defined.

Lemma close_clears_scroll_of_first_batch_witness :
  _eos example_opened = false /\ _is_first example_opened = true /\
  _exactly_once example_opened = false /\
  get_scroll_id example_environment ("hits", 4) <> "" /\
  exists task,
    close example_environment (get_next example_environment None example_opened).2
      = (OK, Some task) /\
    head task = Some (cc_init (_target example_opened +:+ "/_search/scroll")) /\
    last task
      = Some (cc_execute_delete_request
                (build_clear_scroll_body example_environment
                   (get_scroll_id example_environment ("hits", 4)))) /\
    In cc_set_method_delete task /\
    In (cc_set_timeout_ms 5000) task /\
    (In (cc_set_basic_auth (_user_name example_opened) (_passwd example_opened)) task
     <-> _user_name example_opened <> "" \/ _passwd example_opened <> "") /\
    (In cc_trust_all_ssl task <-> _ssl_enabled example_opened = true) /\
    forall payload, ~ In (cc_execute_post_request payload) task.
Proof.
  assert (Heos : _eos example_opened = false) by reflexivity.
  assert (Hfirst : _is_first example_opened = true) by reflexivity.
  assert (Hex : _exactly_once example_opened = false) by reflexivity.
  assert (Hparse : parse example_environment (_cached_response example_opened) false
                     (new_parser example_environment (_doc_value_mode example_opened))
                   = (OK, ("hits", 4))) by reflexivity.
  assert (Hid : get_scroll_id example_environment ("hits", 4) <> "")
    by (vm_compute; discriminate).
  split; [exact Heos|]. split; [exact Hfirst|]. split; [exact Hex|]. split; [exact Hid|].
  exact (close_clears_scroll_of_first_batch example_environment example_opened None OK
           ("hits", 4) Heos Hfirst Hex Hparse eq_refl Hid).
Defined.

Lemma open_caches_first_batch_witness :
  _eos example_scrolling = false /\
  open example_environment example_scrolling = (OK, example_opened) /\
  exists response,
    post_result example_environment
      (_network_client example_scrolling ++ open_calls example_scrolling)
      (_cached_response example_scrolling) = (OK, response) /\
    let parsed := parse example_environment response (_exactly_once example_scrolling)
                    (new_parser example_environment (_doc_value_mode example_scrolling)) in
    let '(st, scan_eos, scroll_parser', r'') :=
      get_next example_environment None example_opened in
    st = parsed.1 /\ scroll_parser' = Some parsed.2 /\
    _network_client r'' = _network_client example_scrolling ++ open_calls example_scrolling /\
    _is_first r'' = false /\
    (ok parsed.1 = false -> scan_eos = true /\ _eos r'' = true).
Proof.
  assert (Heos : _eos example_scrolling = false) by reflexivity.
  assert (Hopen : open example_environment example_scrolling = (OK, example_opened))
    by reflexivity.
  split; [exact Heos|]. split; [exact Hopen|].
  exact (open_caches_first_batch example_environment example_scrolling example_opened None
           Heos Hopen).
Defined.

Lemma parse_failure_is_reported_once_witness :
  _eos example_opened = false /\ _is_first example_opened = true /\
  let '(st, scan_eos, scroll_parser', r') :=
    get_next example_garbled_environment None example_opened in
  st = OtherError 6 "invalid json" /\ scan_eos = true /\
  scroll_parser' = Some ("hits", 4) /\
  _eos r' = true /\ _scroll_id r' = _scroll_id example_opened /\
  _network_client r' = _network_client example_opened /\
  get_next example_garbled_environment None r' = (OK, true, None, r').
Proof.
  assert (Heos : _eos example_opened = false) by reflexivity.
  assert (Hfirst : _is_first example_opened = true) by reflexivity.
  split; [exact Heos|]. split; [exact Hfirst|].
  exact (parse_failure_is_reported_once example_garbled_environment example_opened None None
           (OtherError 6 "invalid json") ("hits", 4) Heos Hfirst eq_refl eq_refl).
Defined.

Lemma follow_up_batch_refreshes_scroll_id_witness :
  _eos example_started = false /\ _is_first example_started = false /\
  _exactly_once example_started = false /\
  let '(st, scan_eos, scroll_parser', r') :=
    get_next example_environment None example_started in
  st = OK /\ scroll_parser' = Some ("hits", 4) /\
  _network_client r'
    = _network_client example_started ++ follow_up_calls example_environment example_started /\
  _scroll_id r' = get_scroll_id example_environment ("hits", 4) /\
  scan_eos = (get_size example_environment ("hits", 4) =? 0) /\
  _eos r' = (get_size example_environment ("hits", 4) =? 0)
            || (get_size example_environment ("hits", 4) <? _batch_size example_started).
Proof.
  assert (Heos : _eos example_started = false) by reflexivity.
  assert (Hfirst : _is_first example_started = false) by reflexivity.
  assert (Hex : _exactly_once example_started = false) by reflexivity.
  split; [exact Heos|]. split; [exact Hfirst|]. split; [exact Hex|].
  exact (follow_up_batch_refreshes_scroll_id example_environment example_started None "hits"
           OK ("hits", 4) Heos Hfirst Hex eq_refl eq_refl eq_refl eq_refl eq_refl).
Defined.

End ESScanReaderExamples.
